(** * iframify: a shallow embedding of [src/index.js]

    The script replaces a DOM node by an inline frame that shows the node's
    markup together with the style rules that apply to it.  The embedding
    follows the source function by function ([shouldAddRule],
    [getRulesImpactingNode], [getStylesForTree], [getIframeContentForNode],
    [iframify]); the browser facilities the script calls (the DOM, the
    CSS object model, property assignment on elements, [encodeURI],
    [setTimeout]) are modelled in the first half of the file. *)

From Stdlib Require Import ZArith Lia Ascii String.
From stdpp Require Import base tactics option list numbers strings pretty.

Local Open Scope Z_scope.

(** ** ECMAScript strings

    A string of the language is a sequence of 16-bit code units. *)

Definition JSString := list Z.

Definition codeUnit (a : ascii) : Z := Z.of_nat (nat_of_ascii a).

(** [str] turns a literal of this file into the string it denotes. *)
Definition str (s : string) : JSString := map codeUnit (list_ascii_of_string s).

Definition isCodeUnit (c : Z) : bool := (0 <=? c) && (c <? 65536).

(** The double quote, which the literals of this file do not contain. *)
Definition quote : Z := 34.

(** ** Completions and the monad of script computations *)

Inductive Exn : Type :=
| TypeError
| SecurityError
| URIError
| NotFoundError
| SyntaxError.

Inductive Completion (A : Type) : Type :=
| Normal (a : A)
| Throw (e : Exn).

Arguments Normal {A} a.
Arguments Throw {A} e.

Definition mapCompletion {A B : Type} (f : A -> B) (c : Completion A) : Completion B :=
  match c with
  | Normal a => Normal (f a)
  | Throw e => Throw e
  end.

(** ** The CSS object model *)

(** A rule as the style sheet exposes it: [selectorText] is absent on rules
    that have no selector (font-face, keyframes, media...), [cssRules] is
    present on grouping rules only. *)
#[local] Set Warnings "-register-all".
Inductive CSSRule : Type :=
  MkRule {
    selectorText : option JSString;
    cssText : JSString;
    cssRules : option (list CSSRule)
  }.

(** Reading a property through a host getter either returns or raises. *)
Inductive Getter (A : Type) : Type :=
| Returns (a : A)
| Raises (e : Exn).

Arguments Returns {A} a.
Arguments Raises {A} e.

(** A style sheet has the standard [cssRules] list and the legacy [rules]
    list; each read may yield a list, yield nothing (null or undefined) or
    raise. *)
Record StyleSheet : Type :=
  MkSheet {
    sheetCssRules : Getter (option (list CSSRule));
    sheetRules : Getter (option (list CSSRule))
  }.

(** ** Ordinary objects used as dictionaries

    The own properties of an object, in creation order.  [objectSet] is the
    assignment [o[k] = v]; [ownKeys] is the order in which [Object.keys] and
    [Object.assign] enumerate: array indices first, in ascending numeric
    order, then the other keys in creation order. *)

Definition JSObject := list (JSString * bool).

Definition digitVal (c : Z) : option Z :=
  if (48 <=? c) && (c <=? 57) then Some (c - 48) else None.

Fixpoint parseDigits (acc : Z) (s : JSString) : option Z :=
  match s with
  | [] => Some acc
  | c :: r =>
      match digitVal c with
      | Some d => parseDigits (10 * acc + d) r
      | None => None
      end
  end.

(** The numeric value of a key that is an array index: a canonical decimal
    numeral below 2^32 - 1. *)
Definition arrayIndex (k : JSString) : option Z :=
  match k with
  | [] => None
  | [48] => Some 0
  | 48 :: _ => None
  | _ =>
      match parseDigits 0 k with
      | Some v => if v <? 4294967295 then Some v else None
      | None => None
      end
  end.

Definition isArrayIndex (k : JSString) : bool :=
  match arrayIndex k with Some _ => true | None => false end.

Definition protoKey : JSString := str "__proto__".

(** A key that is neither an array index nor [__proto__].  The serialisation
    of a style rule is always such a key. *)
Definition plainKey (k : JSString) : bool :=
  negb (isArrayIndex k) && negb (bool_decide (k = protoKey)).

Definition hasOwn (o : JSObject) (k : JSString) : bool :=
  bool_decide (k ∈ map fst o).

Fixpoint objectGet (o : JSObject) (k : JSString) : option bool :=
  match o with
  | [] => None
  | kv :: r => if bool_decide (fst kv = k) then Some (snd kv) else objectGet r k
  end.

(** [o[k] = v] on an ordinary object whose prototype is [Object.prototype]:
    an existing own property keeps its place, a new one is created last;
    [__proto__] is the inherited accessor, whose setter ignores a value that
    is not an object. *)
Definition objectSet (o : JSObject) (k : JSString) (v : bool) : JSObject :=
  if bool_decide (k = protoKey) then o
  else if hasOwn o k
       then map (fun kv => if bool_decide (fst kv = k) then (k, v) else kv) o
       else o ++ [(k, v)].

Fixpoint insertIndex (iv : Z * JSString) (l : list (Z * JSString)) : list (Z * JSString) :=
  match l with
  | [] => [iv]
  | jw :: r => if fst iv <=? fst jw then iv :: l else jw :: insertIndex iv r
  end.

Definition sortIndices (l : list (Z * JSString)) : list (Z * JSString) :=
  foldr insertIndex [] l.

Definition indexKeys (ks : list JSString) : list (Z * JSString) :=
  omap (fun k => (fun i => (i, k)) <$> arrayIndex k) ks.

Definition ownKeys (o : JSObject) : list JSString :=
  map snd (sortIndices (indexKeys (map fst o)))
  ++ filter (fun k => isArrayIndex k = false) (map fst o).

(** [Object.keys(o)]: every property created by assignment is enumerable. *)
Definition objectKeys (o : JSObject) : list JSString := ownKeys o.

(** [Object.assign(target, source)]: the own properties of the source are
    assigned to the target in [ownKeys] order. *)
Definition assignFrom (target source : JSObject) : JSObject :=
  fold_left
    (fun t k => match objectGet source k with
                | Some v => objectSet t k v
                | None => t
                end)
    (ownKeys source) target.

Definition objectAssign (target : JSObject) (sources : list JSObject) : JSObject :=
  fold_left assignFrom sources target.

(** [a.join('')] on an array of strings. *)
Definition joinEmpty (a : list JSString) : JSString := concat a.

(** ** The document

    Nodes live in a store and are named by their index in it; a node refers
    to its parent and children by index, so that a script holding a node
    observes what later operations do to it. *)

Inductive NodeKind : Type :=
| DocumentNode
| ElementNode (tagName : JSString)
| TextNode (data : JSString).

Record NodeRec : Type :=
  MkNode {
    kind : NodeKind;
    parentNode : option nat;
    childNodes : list nat;
    attributes : list (string * JSString);
    expandos : list (string * JSString)
  }.

Abbreviation Dom := (list NodeRec).

Definition parentOf (d : Dom) (n : nat) : option nat :=
  d !! n ≫= parentNode.

Definition childrenOf (d : Dom) (n : nat) : list nat :=
  from_option childNodes [] (d !! n).

Definition tagOf (d : Dom) (n : nat) : option JSString :=
  match d !! n with
  | Some r => match kind r with ElementNode t => Some t | _ => None end
  | None => None
  end.

Definition isElement (d : Dom) (n : nat) : bool :=
  match tagOf d n with Some _ => true | None => false end.

(** The element descendants of [n] in tree order, which is what
    [n.querySelectorAll('*')] returns.  The walk is bounded by [fuel]; a
    tree stored in [d] is no deeper than [length d], and on a consistent
    tree more fuel than that gives the same list
    ([descendantElements_enough]). *)
Fixpoint descendantElements (fuel : nat) (d : Dom) (n : nat) : list nat :=
  match fuel with
  | O => []
  | S f =>
      flat_map
        (fun c => (if isElement d c then [c] else []) ++ descendantElements f d c)
        (childrenOf d n)
  end.

(** Following parent links from [n], at most [fuel] nodes: the root of the
    tree [n] is in. *)
Fixpoint rootWithin (fuel : nat) (d : Dom) (n : nat) : option nat :=
  match fuel with
  | O => None
  | S f =>
      match parentOf d n with
      | None => Some n
      | Some p => rootWithin f d p
      end
  end.

(** What a script can read of an element's layout. *)
Record ElementMetrics : Type :=
  MkMetrics {
    scrollHeight : Z;
    offsetHeight : Z;
    clientHeight : Z
  }.

(** What [iframe.contentWindow.document] gives for a frame: no window at
    all (the frame is not in a document), a window of another origin whose
    document may not be read, or a readable document with its
    [documentElement] and [body]. *)
Inductive FrameWindow : Type :=
| NoWindow
| OpaqueWindow
| ReadableWindow (documentElement body : option ElementMetrics).

(** The body of the function passed to [setTimeout], with the variable it
    closes over. *)
Inductive Callback : Type :=
| MeasureHeight (iframe : nat).

Record Timer : Type :=
  MkTimer {
    timerCallback : Callback;
    timerDelay : Z
  }.

(** The operations on the host that change it, in the order they happen. *)
Inductive Effect : Type :=
| CreateElement (tag : JSString) (n : nat)
| SetProperty (n : nat) (p : string) (v : JSString)
| ReplaceChild (parent newChild oldChild : nat)
| SetTimeout (cb : Callback) (delay : Z).

(** The state of the page a script runs in.  Selector matching and markup
    serialisation are the host's: [hostMatches] and [hostInnerHTML] say what
    [node.matches(selector)] and [node.innerHTML] answer on the tree as the
    script finds it (the script calls them before it changes the tree).  The
    selector is absent when the script passes [undefined].  [matches]
    answers with a boolean or throws: a [SyntaxError] on a text that is not
    a selector list (the selector text of a page rule, an empty text), a
    [TypeError] on a node that has no such method. *)
Record World : Type :=
  MkWorld {
    dom : Dom;
    (** the node [document] *)
    documentNode : nat;
    (** [document.styleSheets] *)
    styleSheets : list StyleSheet;
    hostMatches : nat -> option JSString -> Completion bool;
    hostInnerHTML : nat -> JSString;
    (** whether frame elements have the [srcdoc] property *)
    srcdocSupported : bool;
    (** what [iframe.contentWindow.document] gives for each frame *)
    hostFrameWindow : nat -> FrameWindow;
    (** the callbacks scheduled with [setTimeout], oldest first *)
    timers : list Timer;
    (** the trace of the operations that changed the page *)
    effects : list Effect
  }.

Definition withDom (w : World) (d : Dom) (e : Effect) : World :=
  {| dom := d;
     documentNode := documentNode w;
     styleSheets := styleSheets w;
     hostMatches := hostMatches w;
     hostInnerHTML := hostInnerHTML w;
     srcdocSupported := srcdocSupported w;
     hostFrameWindow := hostFrameWindow w;
     timers := timers w;
     effects := effects w ++ [e] |}.

Definition withTimer (w : World) (t : Timer) (e : Effect) : World :=
  {| dom := dom w;
     documentNode := documentNode w;
     styleSheets := styleSheets w;
     hostMatches := hostMatches w;
     hostInnerHTML := hostInnerHTML w;
     srcdocSupported := srcdocSupported w;
     hostFrameWindow := hostFrameWindow w;
     timers := timers w ++ [t];
     effects := effects w ++ [e] |}.

Definition withStyleSheets (w : World) (s : list StyleSheet) : World :=
  {| dom := dom w;
     documentNode := documentNode w;
     styleSheets := s;
     hostMatches := hostMatches w;
     hostInnerHTML := hostInnerHTML w;
     srcdocSupported := srcdocSupported w;
     hostFrameWindow := hostFrameWindow w;
     timers := timers w;
     effects := effects w |}.

(** A computation of the script: it reads and changes the world and either
    completes with a value or throws; what it did before throwing stays
    done. *)
Definition JS (A : Type) : Type := World -> Completion A * World.

Definition ret {A : Type} (a : A) : JS A := fun w => (Normal a, w).

Definition throw {A : Type} (e : Exn) : JS A := fun w => (Throw e, w).

Definition bind {A B : Type} (c : JS A) (k : A -> JS B) : JS B :=
  fun w =>
    match c w with
    | (Normal a, w') => k a w'
    | (Throw e, w') => (Throw e, w')
    end.

Definition gets {A : Type} (f : World -> A) : JS A := fun w => (Normal (f w), w).

Definition readGetter {A : Type} (g : Getter A) : JS A :=
  match g with
  | Returns a => ret a
  | Raises e => throw e
  end.

Notation "'let*' x ':=' c 'in' k" := (bind c (fun x => k))
  (at level 10, x name, c at level 100, k at level 200).

Definition liftCompletion {A : Type} (c : Completion A) : JS A := fun w => (c, w).

(** ** [encodeURI] and percent-decoding

    [encodeURI] leaves the reserved and unreserved characters of a URI and
    the number sign as they are and replaces every other character by the
    escaped octets of its UTF-8 encoding; it throws a URIError at a
    surrogate code unit that is not part of a pair. *)

Definition isHighSurrogate (c : Z) : bool := (55296 <=? c) && (c <=? 56319).
Definition isLowSurrogate (c : Z) : bool := (56320 <=? c) && (c <=? 57343).

Definition codePointOfPair (hi lo : Z) : Z :=
  (hi - 55296) * 1024 + (lo - 56320) + 65536.

Definition utf8Octets (v : Z) : list Z :=
  if v <? 128 then [v]
  else if v <? 2048 then [192 + v / 64; 128 + v mod 64]
  else if v <? 65536 then [224 + v / 4096; 128 + (v / 64) mod 64; 128 + v mod 64]
  else [240 + v / 262144; 128 + (v / 4096) mod 64; 128 + (v / 64) mod 64; 128 + v mod 64].

Definition hexDigit (d : Z) : Z := if d <? 10 then 48 + d else 55 + d.

Definition percent : Z := 37.

Definition escapeOctet (b : Z) : JSString := [percent; hexDigit (b / 16); hexDigit (b mod 16)].

Definition escapeOctets (bs : list Z) : JSString := flat_map escapeOctet bs.

Definition uriReserved : JSString := str ";/?:@&=+$,".

Definition uriMark : JSString := str "-_.!~*'()".

Definition isAlphaNum (c : Z) : bool :=
  ((48 <=? c) && (c <=? 57)) || ((65 <=? c) && (c <=? 90)) || ((97 <=? c) && (c <=? 122)).

(** The characters [encodeURI] does not escape. *)
Definition uriUnescaped (c : Z) : bool :=
  isAlphaNum c || bool_decide (c ∈ uriMark) || bool_decide (c ∈ uriReserved)
  || bool_decide (c = 35).

Fixpoint encodeURI (s : JSString) : Completion JSString :=
  match s with
  | [] => Normal []
  | c :: rest =>
      if uriUnescaped c then mapCompletion (cons c) (encodeURI rest)
      else if isHighSurrogate c then
        match rest with
        | d :: rest' =>
            if isLowSurrogate d
            then mapCompletion (app (escapeOctets (utf8Octets (codePointOfPair c d))))
                               (encodeURI rest')
            else Throw URIError
        | [] => Throw URIError
        end
      else if isLowSurrogate c then Throw URIError
      else mapCompletion (app (escapeOctets (utf8Octets c))) (encodeURI rest)
  end.

(** A string in which every code unit is in range and every surrogate is
    part of a pair. *)
Fixpoint wellFormedUTF16 (s : JSString) : bool :=
  match s with
  | [] => true
  | c :: rest =>
      if isHighSurrogate c then
        match rest with
        | d :: rest' => isLowSurrogate d && wellFormedUTF16 rest'
        | [] => false
        end
      else isCodeUnit c && negb (isLowSurrogate c) && wellFormedUTF16 rest
  end.

(** Percent-decoding, as a URL is decoded: every escape becomes its octet,
    every other character stands for itself; the octets are then read as
    UTF-8, and the characters written as code units. *)

Definition hexVal (c : Z) : option Z :=
  if (48 <=? c) && (c <=? 57) then Some (c - 48)
  else if (65 <=? c) && (c <=? 70) then Some (c - 55)
  else if (97 <=? c) && (c <=? 102) then Some (c - 87)
  else None.

Fixpoint percentDecodeOctets (s : JSString) : list Z :=
  match s with
  | [] => []
  | c :: rest =>
      if c =? percent then
        match rest with
        | h :: l :: rest' =>
            match hexVal h, hexVal l with
            | Some a, Some b => (16 * a + b) :: percentDecodeOctets rest'
            | _, _ => c :: percentDecodeOctets rest
            end
        | _ => c :: percentDecodeOctets rest
        end
      else c :: percentDecodeOctets rest
  end.

Definition isContinuation (b : Z) : bool := (128 <=? b) && (b <=? 191).

(** Strict UTF-8 decoding: no overlong forms, no surrogates, nothing above
    U+10FFFF. *)
Fixpoint utf8Decode (bs : list Z) : option (list Z) :=
  match bs with
  | [] => Some []
  | b0 :: r0 =>
      if (0 <=? b0) && (b0 <? 128) then cons b0 <$> utf8Decode r0
      else if (194 <=? b0) && (b0 <? 224) then
        match r0 with
        | b1 :: r1 =>
            if isContinuation b1
            then cons ((b0 - 192) * 64 + (b1 - 128)) <$> utf8Decode r1
            else None
        | _ => None
        end
      else if (224 <=? b0) && (b0 <? 240) then
        match r0 with
        | b1 :: b2 :: r2 =>
            let v := (b0 - 224) * 4096 + (b1 - 128) * 64 + (b2 - 128) in
            if isContinuation b1 && isContinuation b2 && (2048 <=? v)
               && negb ((55296 <=? v) && (v <=? 57343))
            then cons v <$> utf8Decode r2
            else None
        | _ => None
        end
      else if (240 <=? b0) && (b0 <? 245) then
        match r0 with
        | b1 :: b2 :: b3 :: r3 =>
            let v := (b0 - 240) * 262144 + (b1 - 128) * 4096 + (b2 - 128) * 64 + (b3 - 128) in
            if isContinuation b1 && isContinuation b2 && isContinuation b3
               && (65536 <=? v) && (v <=? 1114111)
            then cons v <$> utf8Decode r3
            else None
        | _ => None
        end
      else None
  end.

Definition utf16Units (v : Z) : JSString :=
  if v <? 65536 then [v]
  else [55296 + (v - 65536) / 1024; 56320 + (v - 65536) mod 1024].

Definition percentDecode (s : JSString) : option JSString :=
  flat_map utf16Units <$> utf8Decode (percentDecodeOctets s).

(** ** Host operations *)

(** [node.matches(selector)] *)
Definition matches (node : nat) (selector : option JSString) : JS bool :=
  fun w => (hostMatches w node selector, w).

(** [node.innerHTML] *)
Definition innerHTML (node : nat) : JS JSString :=
  gets (fun w => hostInnerHTML w node).

(** [node.querySelectorAll('*')], on a node that has the method: an
    element, which is what the script is given, or the document. *)
Definition querySelectorAll (node : nat) : JS (list nat) :=
  gets (fun w => descendantElements (length (dom w)) (dom w) node).

(** [node.parentNode] *)
Definition getParentNode (node : nat) : JS (option nat) :=
  gets (fun w => parentOf (dom w) node).

Definition newElement (tag : JSString) : NodeRec :=
  {| kind := ElementNode tag; parentNode := None; childNodes := [];
     attributes := []; expandos := [] |}.

(** [document.createElement(tag)]: a new element, in no tree. *)
Definition createElement (tag : JSString) : JS nat :=
  fun w =>
    let n := length (dom w) in
    (Normal n, withDom w (dom w ++ [newElement tag]) (CreateElement tag n)).

Definition iframeTag : JSString := str "iframe".

(** The properties of a frame element that reflect a content attribute of
    the same name.  [srcdoc] is one of them only where it is supported. *)
Definition reflected (supported : bool) (k : NodeKind) (p : string) : bool :=
  match k with
  | ElementNode t =>
      bool_decide (t = iframeTag)
      && (bool_decide (p = "src"%string) || bool_decide (p = "height"%string)
          || (bool_decide (p = "srcdoc"%string) && supported))
  | _ => false
  end.

Fixpoint assocGet {A : Type} (p : string) (l : list (string * A)) : option A :=
  match l with
  | [] => None
  | kv :: r => if bool_decide (fst kv = p) then Some (snd kv) else assocGet p r
  end.

Fixpoint assocSet {A : Type} (p : string) (v : A) (l : list (string * A)) : list (string * A) :=
  match l with
  | [] => [(p, v)]
  | kv :: r => if bool_decide (fst kv = p) then (p, v) :: r else kv :: assocSet p v r
  end.

(** [node.p = v]: a reflecting property sets the content attribute; any
    other name becomes an own property of the element object. *)
Definition assignProperty (supported : bool) (p : string) (v : JSString) (r : NodeRec) : NodeRec :=
  if reflected supported (kind r) p
  then {| kind := kind r; parentNode := parentNode r; childNodes := childNodes r;
          attributes := assocSet p v (attributes r); expandos := expandos r |}
  else {| kind := kind r; parentNode := parentNode r; childNodes := childNodes r;
          attributes := attributes r; expandos := assocSet p v (expandos r) |}.

Definition setProperty (n : nat) (p : string) (v : JSString) : JS unit :=
  fun w =>
    (Normal tt,
     withDom w (alter (assignProperty (srcdocSupported w) p v) n (dom w)) (SetProperty n p v)).

(** [p in node]: the property is inherited from the element's interface or
    is an own property of the object. *)
Definition hasPropertyIn (supported : bool) (p : string) (r : NodeRec) : bool :=
  reflected supported (kind r) p || bool_decide (p ∈ map fst (expandos r)).

Definition hasProperty (n : nat) (p : string) : JS bool :=
  gets (fun w => from_option (hasPropertyIn (srcdocSupported w) p) false (dom w !! n)).

(** The value read back from [node.p], for the statements below. *)
Definition propertyOf (w : World) (n : nat) (p : string) : option JSString :=
  match dom w !! n with
  | Some r =>
      if reflected (srcdocSupported w) (kind r) p
      then assocGet p (attributes r)
      else assocGet p (expandos r)
  | None => None
  end.

Definition attributeOf (w : World) (n : nat) (p : string) : option JSString :=
  dom w !! n ≫= (fun r => assocGet p (attributes r)).

Definition setParent (q : option nat) (r : NodeRec) : NodeRec :=
  {| kind := kind r; parentNode := q; childNodes := childNodes r;
     attributes := attributes r; expandos := expandos r |}.

Definition setChildren (cs : list nat) (r : NodeRec) : NodeRec :=
  {| kind := kind r; parentNode := parentNode r; childNodes := cs;
     attributes := attributes r; expandos := expandos r |}.

Definition mapChildren (f : list nat -> list nat) (r : NodeRec) : NodeRec :=
  setChildren (f (childNodes r)) r.

Definition substitute (old new : nat) (l : list nat) : list nat :=
  map (fun c => if bool_decide (c = old) then new else c) l.

(** [parent.replaceChild(newChild, oldChild)]: a NotFoundError unless
    [oldChild] is a child of [parent]; [newChild] first leaves the parent
    it has, if any, then takes the place of [oldChild], which is left
    without a parent. *)
Definition replaceChild (parent newChild oldChild : nat) : JS unit :=
  fun w =>
    if bool_decide (parentOf (dom w) oldChild = Some parent) then
      let d1 :=
        match parentOf (dom w) newChild with
        | Some q => alter (mapChildren (filter (fun c => c ≠ newChild))) q (dom w)
        | None => dom w
        end in
      let d2 := alter (mapChildren (substitute oldChild newChild)) parent d1 in
      let d3 := alter (setParent None) oldChild d2 in
      let d4 := alter (setParent (Some parent)) newChild d3 in
      (Normal tt, withDom w d4 (ReplaceChild parent newChild oldChild))
    else (Throw NotFoundError, w).

(** [setTimeout(cb, delay)] *)
Definition setTimeout (cb : Callback) (delay : Z) : JS unit :=
  fun w => (Normal tt, withTimer w (MkTimer cb delay) (SetTimeout cb delay)).

(** [Math.max] on integers, and the decimal numeral [n + ''] of an integer. *)
Definition mathMax (x : Z) (xs : list Z) : Z := fold_left Z.max xs x.

Definition numberToString (n : Z) : JSString := str (pretty n).

(** * The script *)

(** The loop of [shouldAddRule] over the rules of a grouping rule. *)
Fixpoint shouldAddRule_loop (node : nat) (nested : list CSSRule) : JS bool :=
  match nested with
  | [] => ret false
  | r :: rest =>
      let* m := matches node (selectorText r) in
      if m then ret true else shouldAddRule_loop node rest
  end.

Definition shouldAddRule (node : nat) (cssRule : CSSRule) : JS bool :=
  match cssRules cssRule with
  | Some nested => shouldAddRule_loop node nested
  | None => matches node (selectorText cssRule)
  end.

(** [sheet.cssRules || sheet.rules] *)
Definition readRuleList (sheet : StyleSheet) : JS (option (list CSSRule)) :=
  let* standard := readGetter (sheetCssRules sheet) in
  match standard with
  | Some l => ret (Some l)
  | None => readGetter (sheetRules sheet)
  end.

(** The inner loop of [getRulesImpactingNode], over the rules of a sheet. *)
Fixpoint getRules_rules (node : nat) (rules : list CSSRule) (object : JSObject) : JS JSObject :=
  match rules with
  | [] => ret object
  | r :: rest =>
      let* add := shouldAddRule node r in
      getRules_rules node rest (if add then objectSet object (cssText r) true else object)
  end.

(** The outer loop of [getRulesImpactingNode], over the style sheets. *)
Fixpoint getRules_sheets (node : nat) (sheets : list StyleSheet) (object : JSObject) : JS JSObject :=
  match sheets with
  | [] => ret object
  | sheet :: rest =>
      let* found := readRuleList sheet in
      match found with
      | None => getRules_sheets node rest object
      | Some rules =>
          let* object' := getRules_rules node rules object in
          getRules_sheets node rest object'
      end
  end.

Definition getRulesImpactingNode (node : nat) : JS JSObject :=
  let* stylesheets := gets styleSheets in
  getRules_sheets node stylesheets [].

(** [Array.prototype.reduce] with a callback that is a computation. *)
Fixpoint reduce {A B : Type} (f : B -> A -> JS B) (l : list A) (acc : B) : JS B :=
  match l with
  | [] => ret acc
  | x :: r => let* acc' := f acc x in reduce f r acc'
  end.

Definition getStylesForTree (rootNode : nat) : JS JSString :=
  let* children := querySelectorAll rootNode in
  let* first := getRulesImpactingNode rootNode in
  let* rules :=
    reduce (fun tree child =>
              let* found := getRulesImpactingNode child in
              ret (objectAssign [] [tree; found]))
           children first in
  ret (joinEmpty (objectKeys rules)).

Definition htmlOpen : JSString :=
  str "<html lang=" ++ [quote] ++ str "en" ++ [quote] ++ str ">".

Definition getIframeContentForNode (node : nat) : JS JSString :=
  let* styles := getStylesForTree node in
  let* inner := innerHTML node in
  ret (str "<!doctype html>"
       ++ htmlOpen
       ++ str "<head>"
       ++ str "<style>" ++ styles ++ str "</style>"
       ++ str "</head>"
       ++ str "<body>" ++ inner ++ str "</body>"
       ++ str "</html>").

(** The function [iframify] passes to [setTimeout]. *)
Definition measureHeight (iframe : nat) : JS unit :=
  let* window := gets (fun w => hostFrameWindow w iframe) in
  match window with
  | NoWindow => throw TypeError
  | OpaqueWindow => throw SecurityError
  | ReadableWindow html body =>
      match body, html with
      | Some body, Some html =>
          setProperty iframe "height"
            (numberToString
               (mathMax (scrollHeight body)
                  [offsetHeight body; clientHeight html; scrollHeight html; offsetHeight html])
             ++ str "px")
      | _, _ => throw TypeError
      end
  end.

Definition runCallback (cb : Callback) : JS unit :=
  match cb with
  | MeasureHeight iframe => measureHeight iframe
  end.

Definition dataPrefix : JSString := str "data:text/html;charset=utf-8,".

Definition iframify (node : nat) : JS unit :=
  let* iframe := createElement iframeTag in
  let* html := getIframeContentForNode node in
  let* _ := setProperty iframe "srcdoc" html in
  let* encoded := liftCompletion (encodeURI html) in
  let* _ := setProperty iframe "src" (dataPrefix ++ encoded) in
  let* parent := getParentNode node in
  let* _ := match parent with
            | Some p => replaceChild p iframe node
            | None => throw TypeError
            end in
  let* supported := hasProperty iframe "srcdoc" in
  if supported then setTimeout (MeasureHeight iframe) 500 else ret tt.

(** * A page to run the script on

    A small host used by the examples: its [innerHTML] serialises elements,
    their attributes and text, and its [matches] understands a selector
    made of one class name. *)

Definition escapeText (s : JSString) : JSString :=
  flat_map (fun c => if c =? 38 then str "&amp;"
                     else if c =? 60 then str "&lt;"
                     else if c =? 62 then str "&gt;"
                     else [c]) s.

Definition escapeValue (s : JSString) : JSString :=
  flat_map (fun c => if c =? 38 then str "&amp;"
                     else if c =? quote then str "&quot;"
                     else [c]) s.

Definition serializeAttribute (a : string * JSString) : JSString :=
  str " " ++ str (fst a) ++ str "=" ++ [quote] ++ escapeValue (snd a) ++ [quote].

Fixpoint serializeNode (fuel : nat) (d : Dom) (n : nat) : JSString :=
  match fuel with
  | O => []
  | S f =>
      match d !! n with
      | Some r =>
          match kind r with
          | ElementNode t =>
              str "<" ++ t ++ flat_map serializeAttribute (attributes r) ++ str ">"
              ++ flat_map (serializeNode f d) (childNodes r)
              ++ str "</" ++ t ++ str ">"
          | TextNode data => escapeText data
          | DocumentNode => flat_map (serializeNode f d) (childNodes r)
          end
      | None => []
      end
  end.

Definition serializeInner (d : Dom) (n : nat) : JSString :=
  flat_map (serializeNode (length d) d) (childrenOf d n).

Definition classSelectorMatches (d : Dom) (n : nat) (selector : option JSString) : bool :=
  match selector, d !! n with
  | Some (46 :: name), Some r =>
      isElement d n && bool_decide (assocGet "class" (attributes r) = Some name)
  | _, _ => false
  end.

(** The [matches] of the example host: a class selector matches the
    elements of that class and nothing else matches; the selector text of a
    page rule and the empty text are no selector lists. *)
Definition exampleMatches (d : Dom) (n : nat) (selector : option JSString) : Completion bool :=
  match selector with
  | Some [] => Throw SyntaxError
  | Some s =>
      if bool_decide (s = str ":first") then Throw SyntaxError
      else Normal (classSelectorMatches d n selector)
  | None => Normal (classSelectorMatches d n selector)
  end.

Definition element (tag : string) (parent : nat) (children : list nat)
    (attrs : list (string * JSString)) : NodeRec :=
  {| kind := ElementNode (str tag); parentNode := Some parent; childNodes := children;
     attributes := attrs; expandos := [] |}.

(** The page [<html><body><h1></h1><div class="box"><span>hi</span></div>
    <footer></footer></body></html>]; the box is node 3. *)
Definition pageDom : Dom :=
  [ {| kind := DocumentNode; parentNode := None; childNodes := [1%nat];
       attributes := []; expandos := [] |};
    element "html" 0 [2%nat] [];
    element "body" 1 [6%nat; 3%nat; 7%nat] [];
    element "div" 2 [4%nat] [("class"%string, str "box")];
    element "span" 3 [5%nat] [];
    {| kind := TextNode (str "hi"); parentNode := Some 4%nat; childNodes := [];
       attributes := []; expandos := [] |};
    element "h1" 2 [] [];
    element "footer" 2 [] [] ].

Definition box : nat := 3%nat.

Definition page (d : Dom) (sheets : list StyleSheet) (supported : bool)
    (frames : nat -> FrameWindow) : World :=
  {| dom := d;
     documentNode := 0%nat;
     styleSheets := sheets;
     hostMatches := exampleMatches d;
     hostInnerHTML := serializeInner d;
     srcdocSupported := supported;
     hostFrameWindow := frames;
     timers := [];
     effects := [] |}.

Definition plainRule (selector text : string) : CSSRule :=
  {| selectorText := Some (str selector); cssText := str text; cssRules := None |}.

Definition readableSheet (rules : list CSSRule) : StyleSheet :=
  {| sheetCssRules := Returns (Some rules); sheetRules := Returns None |}.

Definition boxRule : CSSRule := plainRule ".box" ".box{padding:10px}".

Definition boxPage (supported : bool) : World :=
  page pageDom [readableSheet [boxRule]] supported (fun _ => NoWindow).

(** * What the specification says, as definitions of its own *)

(** The rule list a sheet gives when read as [getRulesImpactingNode] reads
    it. *)
Definition ruleListOf (sheet : StyleSheet) : Completion (option (list CSSRule)) :=
  match sheetCssRules sheet with
  | Raises e => Throw e
  | Returns (Some l) => Normal (Some l)
  | Returns None =>
      match sheetRules sheet with
      | Raises e => Throw e
      | Returns found => Normal found
      end
  end.

(** Reading the rule list of the sheet raises. *)
Definition raisesOnRead (sheet : StyleSheet) : bool :=
  match ruleListOf sheet with Throw _ => true | Normal _ => false end.

(** The sheet yields no readable rule list. *)
Definition yieldsNoList (sheet : StyleSheet) : bool :=
  match ruleListOf sheet with Normal None => true | _ => false end.

Definition accessibleRules (sheet : StyleSheet) : list CSSRule :=
  match ruleListOf sheet with Normal (Some l) => l | _ => [] end.

(** The node matches the selector: [matches] answers true. *)
Definition answersTrue (w : World) (node : nat) (selector : option JSString) : bool :=
  match hostMatches w node selector with
  | Normal true => true
  | _ => false
  end.

(** The relevance of a rule to a node, in the words of the specification. *)
Definition isRelevant (w : World) (node : nat) (rule : CSSRule) : bool :=
  match cssRules rule with
  | Some nested => existsb (fun r => answersTrue w node (selectorText r)) nested
  | None => answersTrue w node (selectorText rule)
  end.

(** The candidate nodes: the root, then its element descendants in tree
    order. *)
Definition candidates (w : World) (root : nat) : list nat :=
  root :: descendantElements (length (dom w)) (dom w) root.

(** The texts of the relevant rules in the order of the walk: candidate by
    candidate, sheet by sheet, rule by rule. *)
Definition relevantTexts (w : World) (node : nat) : list JSString :=
  flat_map
    (fun sheet => map cssText (filter (fun r => isRelevant w node r = true) (accessibleRules sheet)))
    (styleSheets w).

Definition discovered (w : World) (root : nat) : list JSString :=
  flat_map (relevantTexts w) (candidates w root).

(** Every text once, at the place of its first occurrence. *)
Fixpoint firstOccurrences (l : list JSString) : list JSString :=
  match l with
  | [] => []
  | x :: r => x :: filter (fun y => y ≠ x) (firstOccurrences r)
  end.

Definition collectRules (w : World) (root : nat) : JSString :=
  concat (firstOccurrences (discovered w root)).

Definition noSheetRaises (w : World) : bool :=
  forallb (fun sheet => negb (raisesOnRead sheet)) (styleSheets w).

Definition plainTexts (w : World) : bool :=
  forallb (fun sheet => forallb (fun r => plainKey (cssText r)) (accessibleRules sheet))
          (styleSheets w).

(** The document the specification describes, around a style text and a
    body markup. *)
Definition standaloneDocument (styles inner : JSString) : JSString :=
  str "<!doctype html>" ++ htmlOpen ++ str "<head><style>" ++ styles
  ++ str "</style></head><body>" ++ inner ++ str "</body></html>".

Fixpoint isPrefixOf (p s : JSString) : bool :=
  match p, s with
  | [], _ => true
  | a :: p', b :: s' => (a =? b) && isPrefixOf p' s'
  | _ :: _, [] => false
  end.

Fixpoint occursIn (p s : JSString) : bool :=
  isPrefixOf p s || match s with [] => false | _ :: s' => occursIn p s' end.

Fixpoint countOccurrences (p s : JSString) : nat :=
  match s with
  | [] => O
  | _ :: s' => ((if isPrefixOf p s then 1 else 0) + countOccurrences p s')%nat
  end.

(** The stored tree is consistent: a node is among the children of its
    parent, the children of a node have it as parent and are distinct, the
    parent links lead to a root, and the document has no parent. *)
Definition wfNode (d : Dom) (n : nat) (r : NodeRec) : bool :=
  match parentNode r with
  | Some p => bool_decide (n ∈ childrenOf d p)
  | None => true
  end
  && forallb (fun c => bool_decide (parentOf d c = Some n)) (childNodes r)
  && bool_decide (NoDup (childNodes r))
  && bool_decide (is_Some (rootWithin (length d) d n)).

Definition wfDom (w : World) : bool :=
  forallb (fun nr => wfNode (dom w) (fst nr) (snd nr)) (imap pair (dom w))
  && bool_decide (parentOf (dom w) (documentNode w) = None).

(** [n] is in the tree of the document, as far as [fuel] parent links
    show. *)
Definition connectedWithin (fuel : nat) (w : World) (n : nat) : bool :=
  bool_decide (rootWithin fuel (dom w) n = Some (documentNode w)).

(** The frame [iframify] creates in [w], and the world in which it
    computes the document: the one with the new frame in it. *)
Definition newFrame (w : World) : nat := length (dom w).

Definition frameCreated (w : World) : World := snd (createElement iframeTag w).

(** The height the deferred measurement computes. *)
Definition measuredHeight (html body : ElementMetrics) : Z :=
  Z.max (scrollHeight body)
    (Z.max (offsetHeight body)
       (Z.max (clientHeight html) (Z.max (scrollHeight html) (offsetHeight html)))).

(** ** Pages for the examples *)

Definition crossOriginSheet : StyleSheet :=
  {| sheetCssRules := Raises SecurityError; sheetRules := Raises SecurityError |}.

Definition emptySheet : StyleSheet :=
  {| sheetCssRules := Returns None; sheetRules := Returns None |}.

Definition crossOriginPage : World :=
  page pageDom [crossOriginSheet; readableSheet [boxRule]] true (fun _ => NoWindow).

Definition skippedSheetPage : World :=
  page pageDom [emptySheet; readableSheet [boxRule]] true (fun _ => NoWindow).

(** The page of the examples with an unpaired surrogate as the text of the
    span. *)
Definition surrogateDom : Dom :=
  <[5%nat := {| kind := TextNode [55296]; parentNode := Some 4%nat; childNodes := [];
                attributes := []; expandos := [] |}]> pageDom.

Definition surrogatePage : World :=
  page surrogateDom [readableSheet [boxRule]] true (fun _ => NoWindow).

Definition fontFaceRule : CSSRule :=
  {| selectorText := None; cssText := str "@font-face{font-family:x}"; cssRules := None |}.

(** A host in which an absent selector matches node 3. *)
Definition lenientPage : World :=
  {| dom := pageDom;
     documentNode := 0%nat;
     styleSheets := [readableSheet [fontFaceRule]];
     hostMatches := fun n selector =>
       Normal (match selector with None => bool_decide (n = box) | Some _ => false end);
     hostInnerHTML := serializeInner pageDom;
     srcdocSupported := true;
     hostFrameWindow := fun _ => NoWindow;
     timers := [];
     effects := [] |}.

Definition renderedFrame : FrameWindow :=
  ReadableWindow
    (Some {| scrollHeight := 120; offsetHeight := 118; clientHeight := 150 |})
    (Some {| scrollHeight := 96; offsetHeight := 96; clientHeight := 96 |}).

(** The page after [iframify] ran on the box, once the frame has rendered. *)
Definition renderedPage (supported : bool) : World :=
  let w := snd (iframify box (boxPage supported)) in
  {| dom := dom w;
     documentNode := documentNode w;
     styleSheets := styleSheets w;
     hostMatches := hostMatches w;
     hostInnerHTML := hostInnerHTML w;
     srcdocSupported := srcdocSupported w;
     hostFrameWindow := fun _ => renderedFrame;
     timers := timers w;
     effects := effects w |}.

(** ** The read-only part of the script as functions of the page

    [getRulesImpactingNode] and [getStylesForTree] only read the page; these
    are their results as functions of it, proved equal to the runs of the
    script further down. *)

Definition addKey (l : list JSString) (k : JSString) : list JSString :=
  if decide (k ∈ l) then l else l ++ [k].

(** What the loop of [shouldAddRule] gives on the nested rules: the answer
    of the first [matches] that answers true or throws. *)
Fixpoint firstAnswer (w : World) (node : nat) (nested : list CSSRule) : Completion bool :=
  match nested with
  | [] => Normal false
  | r :: rest =>
      match hostMatches w node (selectorText r) with
      | Normal true => Normal true
      | Normal false => firstAnswer w node rest
      | Throw e => Throw e
      end
  end.

Definition relevance (w : World) (node : nat) (rule : CSSRule) : Completion bool :=
  match cssRules rule with
  | Some nested => firstAnswer w node nested
  | None => hostMatches w node (selectorText rule)
  end.

Definition relevanceAnswers (w : World) (node : nat) (rule : CSSRule) : bool :=
  match relevance w node rule with Normal _ => true | Throw _ => false end.

(** On each of the nodes, [shouldAddRule] answers on every rule the sheets
    give. *)
Definition matchesAnswers (w : World) (nodes : list nat) (sheets : list StyleSheet) : bool :=
  forallb
    (fun n => forallb (fun sheet => forallb (relevanceAnswers w n) (accessibleRules sheet)) sheets)
    nodes.

Definition addRule (w : World) (node : nat) (object : JSObject) (r : CSSRule) : JSObject :=
  if isRelevant w node r then objectSet object (cssText r) true else object.

(** The object after the rules of a sheet, when every test answers. *)
Definition scanRules (w : World) (node : nat) (rules : list CSSRule) (object : JSObject) : JSObject :=
  fold_left (addRule w node) rules object.

Fixpoint tryRules (w : World) (node : nat) (rules : list CSSRule) (object : JSObject)
  : Completion JSObject :=
  match rules with
  | [] => Normal object
  | r :: rest =>
      match relevance w node r with
      | Throw e => Throw e
      | Normal add =>
          tryRules w node rest (if add then objectSet object (cssText r) true else object)
      end
  end.

Fixpoint scanSheets (w : World) (node : nat) (sheets : list StyleSheet) (object : JSObject)
  : Completion JSObject :=
  match sheets with
  | [] => Normal object
  | sheet :: rest =>
      match ruleListOf sheet with
      | Throw e => Throw e
      | Normal None => scanSheets w node rest object
      | Normal (Some rules) =>
          match tryRules w node rules object with
          | Throw e => Throw e
          | Normal object' => scanSheets w node rest object'
          end
      end
  end.

Definition rulesImpacting (w : World) (node : nat) : Completion JSObject :=
  scanSheets w node (styleSheets w) [].

Fixpoint mergeOver (w : World) (nodes : list nat) (tree : JSObject) : Completion JSObject :=
  match nodes with
  | [] => Normal tree
  | n :: rest =>
      match rulesImpacting w n with
      | Throw e => Throw e
      | Normal found => mergeOver w rest (objectAssign [] [tree; found])
      end
  end.

Definition stylesForTree (w : World) (root : nat) : Completion JSString :=
  match rulesImpacting w root with
  | Throw e => Throw e
  | Normal first =>
      mapCompletion (fun rules => joinEmpty (objectKeys rules))
        (mergeOver w (descendantElements (length (dom w)) (dom w) root) first)
  end.

Definition keysOf (o : JSObject) : list JSString := map fst o.

(** A page on which two nodes of the walked tree match the same rule, a
    media rule matches through a nested rule, one sheet has no readable
    list and one rule is listed in two sheets. *)
Definition twoBoxesDom : Dom :=
  <[4%nat := element "span" 3 [5%nat] [("class"%string, str "box")]]> pageDom.

Definition mediaRule : CSSRule :=
  {| selectorText := None;
     cssText := str "@media print{.box{margin:0}}";
     cssRules := Some [plainRule ".note" ".note{color:red}"; plainRule ".box" ".box{margin:0}"] |}.

Definition noteRule : CSSRule := plainRule ".note" ".note{color:red}".

Definition twoBoxesPage : World :=
  page twoBoxesDom
       [readableSheet [noteRule; boxRule; mediaRule]; emptySheet; readableSheet [boxRule]]
       true (fun _ => NoWindow).

(** ** The steps of [iframify] *)

(** The document [iframify] computes for [node] on the page [w]. *)
Definition synthesized (w : World) (node : nat) : Completion JSString :=
  fst (getIframeContentForNode node (frameCreated w)).

(** The new frame once both sources are assigned. *)
Definition frameWithSources (supported : bool) (html encoded : JSString) : NodeRec :=
  assignProperty supported "src" (dataPrefix ++ encoded)
    (assignProperty supported "srcdoc" html (newElement iframeTag)).

Definition srcdocAssigned (w : World) (html : JSString) : World :=
  snd (setProperty (newFrame w) "srcdoc" html (frameCreated w)).

Definition sourcesAssigned (w : World) (html encoded : JSString) : World :=
  snd (setProperty (newFrame w) "src" (dataPrefix ++ encoded) (srcdocAssigned w html)).

Definition nodeReplaced (w : World) (node parent : nat) (html encoded : JSString) : World :=
  snd (replaceChild parent (newFrame w) node (sourcesAssigned w html encoded)).

Definition measurementScheduled (w : World) (node parent : nat) (html encoded : JSString) : World :=
  snd (setTimeout (MeasureHeight (newFrame w)) 500 (nodeReplaced w node parent html encoded)).

(** What is read of a node when one of its properties is read or tested. *)
Definition propsOf (r : NodeRec) : NodeKind * list (string * JSString) * list (string * JSString) :=
  (kind r, attributes r, expandos r).

Definition propsAt (d : Dom) (n : nat) : option (NodeKind * list (string * JSString) * list (string * JSString)) :=
  propsOf <$> d !! n.

(** The stored tree once the frame has taken the place of [node] among the
    children of [parent]. *)
Definition domAfterReplace (w : World) (node parent : nat) (html encoded : JSString) : Dom :=
  alter (setParent None) node
    (alter (mapChildren (substitute node (newFrame w))) parent (dom w))
  ++ [setParent (Some parent) (frameWithSources (srcdocSupported w) html encoded)].

(** The effects of a completed run of [iframify], in order. *)
Definition effectsOfIframify (w : World) (node parent : nat) (html encoded : JSString)
  : list Effect :=
  [ CreateElement iframeTag (newFrame w);
    SetProperty (newFrame w) "srcdoc" html;
    SetProperty (newFrame w) "src" (dataPrefix ++ encoded);
    ReplaceChild parent (newFrame w) node;
    SetTimeout (MeasureHeight (newFrame w)) 500 ].

(** ** Pages for the further properties *)

(** A page rule, whose selector text is no selector list, and the example
    page with it after the rule of the box, alone in a sheet, and in a media
    rule before and after the rule of the box. *)
Definition pageRule : CSSRule := plainRule ":first" "@page :first{margin:1in}".

Definition pageRulePage : World :=
  page pageDom [readableSheet [boxRule; pageRule]] true (fun _ => NoWindow).

Definition pageRuleFirst : CSSRule :=
  {| selectorText := None;
     cssText := str "@media print{@page :first{margin:1in}.box{margin:0}}";
     cssRules := Some [pageRule; plainRule ".box" ".box{margin:0}"] |}.

Definition pageRuleLast : CSSRule :=
  {| selectorText := None;
     cssText := str "@media print{.box{margin:0}@page :first{margin:1in}}";
     cssRules := Some [plainRule ".box" ".box{margin:0}"; pageRule] |}.

(** A grouping rule whose nested rule is itself a grouping rule, with the
    rule of the box two levels down, and a grouping rule whose nested rule
    has no selector and nothing below. *)
Definition nestedTwiceRule : CSSRule :=
  {| selectorText := None;
     cssText := str "@supports (display:grid){@media print{.box{margin:0}}}";
     cssRules := Some [ {| selectorText := None;
                           cssText := str "@media print{.box{margin:0}}";
                           cssRules := Some [plainRule ".box" ".box{margin:0}"] |} ] |}.

Definition keyframesRule : CSSRule :=
  {| selectorText := None;
     cssText := str "@keyframes spin{from{opacity:0}}";
     cssRules := Some [ {| selectorText := None;
                           cssText := str "from{opacity:0}";
                           cssRules := None |} ] |}.

(** The example page with a cross-origin sheet after the sheet of the box. *)
Definition lateCrossOriginPage : World :=
  page pageDom [readableSheet [boxRule]; crossOriginSheet] true (fun _ => NoWindow).

(** A page whose only rule is for a class no node has. *)
Definition notePage : World :=
  page pageDom [readableSheet [noteRule]] true (fun _ => NoWindow).

(** The example page with one more element, in no tree: node 8. *)
Definition detachedDom : Dom := pageDom ++ [newElement (str "div")].

Definition detached : nat := 8%nat.

Definition detachedPage : World :=
  page detachedDom [readableSheet [boxRule]] true (fun _ => NoWindow).

(** The example page with an element that is in no tree and whose text is
    an unpaired surrogate: node 8, with the text node 9. *)
Definition orphanDom : Dom :=
  pageDom
  ++ [ {| kind := ElementNode (str "div"); parentNode := None; childNodes := [9%nat];
          attributes := []; expandos := [] |};
       {| kind := TextNode [55296]; parentNode := Some 8%nat; childNodes := [];
          attributes := []; expandos := [] |} ].

Definition orphanPage : World :=
  page orphanDom [readableSheet [boxRule]] true (fun _ => NoWindow).

(** The example page with a colour in the rule of the box. *)
Definition colourRule : CSSRule := plainRule ".box" ".box{color:#fff}".

Definition colourPage : World :=
  page pageDom [readableSheet [colourRule]] true (fun _ => NoWindow).

(** The example page with the class of the box on the heading too, which is
    outside the box. *)
Definition headingBoxDom : Dom :=
  <[6%nat := element "h1" 2 [] [("class"%string, str "box")]]> pageDom.

Definition headingBoxPage : World :=
  {| dom := headingBoxDom;
     documentNode := 0%nat;
     styleSheets := [readableSheet [boxRule]];
     hostMatches := exampleMatches headingBoxDom;
     hostInnerHTML := serializeInner pageDom;
     srcdocSupported := true;
     hostFrameWindow := fun _ => NoWindow;
     timers := [];
     effects := [] |}.

(** * Properties *)

(** ** The monad *)

Lemma bind_ret {A B : Type} (a : A) (k : A -> JS B) (w : World) :
  bind (ret a) k w = k a w.
Proof. reflexivity. Qed.

Lemma bind_gets {A B : Type} (f : World -> A) (k : A -> JS B) (w : World) :
  bind (gets f) k w = k (f w) w.
Proof. reflexivity. Qed.

Lemma bind_normal {A B : Type} (c : JS A) (k : A -> JS B) (w w' : World) (a : A) :
  c w = (Normal a, w') -> bind c k w = k a w'.
Proof. intros H. unfold bind. now rewrite H. Qed.

Lemma bind_throw {A B : Type} (c : JS A) (k : A -> JS B) (w w' : World) (e : Exn) :
  c w = (Throw e, w') -> bind c k w = (Throw e, w').
Proof. intros H. unfold bind. now rewrite H. Qed.

(** ** Relevance of a rule *)

Lemma matches_run (node : nat) (selector : option JSString) (w : World) :
  matches node selector w = (hostMatches w node selector, w).
Proof. reflexivity. Qed.

Lemma shouldAddRule_loop_run (node : nat) (nested : list CSSRule) (w : World) :
  shouldAddRule_loop node nested w = (firstAnswer w node nested, w).
Proof.
  induction nested as [|r rest IH]; simpl.
  - reflexivity.
  - unfold bind. rewrite matches_run.
    destruct (hostMatches w node (selectorText r)) as [[|]|e]; simpl.
    + reflexivity.
    + exact IH.
    + reflexivity.
Qed.

Lemma shouldAddRule_run (node : nat) (rule : CSSRule) (w : World) :
  shouldAddRule node rule w = (relevance w node rule, w).
Proof.
  unfold shouldAddRule, relevance.
  destruct (cssRules rule) as [nested|].
  - apply shouldAddRule_loop_run.
  - apply matches_run.
Qed.

Lemma answersTrue_spec (w : World) (node : nat) (selector : option JSString) :
  answersTrue w node selector = true <-> hostMatches w node selector = Normal true.
Proof.
  unfold answersTrue. destruct (hostMatches w node selector) as [[|]|e].
  - split; reflexivity.
  - split; intros H; discriminate H.
  - split; intros H; discriminate H.
Qed.

Lemma answersTrue_normal (w : World) (node : nat) (selector : option JSString) (b : bool) :
  hostMatches w node selector = Normal b -> answersTrue w node selector = b.
Proof. unfold answersTrue. intros ->. now destruct b. Qed.

(** A completed loop answers whether some nested rule matches. *)
Lemma firstAnswer_normal (w : World) (node : nat) (nested : list CSSRule) (b : bool) :
  firstAnswer w node nested = Normal b ->
  b = existsb (fun r => answersTrue w node (selectorText r)) nested.
Proof.
  induction nested as [|r rest IH]; simpl; intros Hb.
  - congruence.
  - unfold answersTrue at 1.
    destruct (hostMatches w node (selectorText r)) as [[|]|e]; simpl.
    + congruence.
    + now apply IH.
    + discriminate Hb.
Qed.

(** The loop stops at the first nested rule on which [matches] does not
    answer false, with what it answers there. *)
Lemma firstAnswer_first (w : World) (node : nat) (before after : list CSSRule) (r : CSSRule) :
  (forall r', r' ∈ before -> hostMatches w node (selectorText r') = Normal false) ->
  hostMatches w node (selectorText r) <> Normal false ->
  firstAnswer w node (before ++ r :: after) = hostMatches w node (selectorText r).
Proof.
  intros Hbefore Hhere. induction before as [|r' rest IH]; simpl.
  - destruct (hostMatches w node (selectorText r)) as [[|]|e]; congruence.
  - rewrite (Hbefore r') by left. apply IH. intros x Hx. apply Hbefore. now right.
Qed.

Lemma firstAnswer_all_false (w : World) (node : nat) (nested : list CSSRule) :
  (forall r, r ∈ nested -> hostMatches w node (selectorText r) = Normal false) ->
  firstAnswer w node nested = Normal false.
Proof.
  induction nested as [|r rest IH]; simpl; intros Hall.
  - reflexivity.
  - rewrite (Hall r) by left. apply IH. intros x Hx. apply Hall. now right.
Qed.

(** An exception of the loop is that of [matches] on one of the nested
    rules. *)
Lemma firstAnswer_throw (w : World) (node : nat) (nested : list CSSRule) (e : Exn) :
  firstAnswer w node nested = Throw e ->
  exists r, r ∈ nested /\ hostMatches w node (selectorText r) = Throw e.
Proof.
  induction nested as [|r rest IH]; simpl; intros He.
  - discriminate He.
  - destruct (hostMatches w node (selectorText r)) as [[|]|e'] eqn:Hr.
    + discriminate He.
    + destruct (IH He) as (x & Hx & Hthrow). exists x. split; [now right | exact Hthrow].
    + exists r. split; [left | congruence].
Qed.

Lemma relevance_normal (w : World) (node : nat) (rule : CSSRule) (b : bool) :
  relevance w node rule = Normal b -> b = isRelevant w node rule.
Proof.
  unfold relevance, isRelevant. destruct (cssRules rule) as [nested|].
  - apply firstAnswer_normal.
  - intros H. symmetry. now apply answersTrue_normal.
Qed.

(** The loop looks at the selector texts of the nested rules only. *)
Lemma firstAnswer_selectors (w : World) (node : nat) (l1 l2 : list CSSRule) :
  map selectorText l1 = map selectorText l2 ->
  firstAnswer w node l1 = firstAnswer w node l2.
Proof.
  revert l2. induction l1 as [|r1 rest1 IH]; intros [|r2 rest2] Hsame; simpl in *;
    try discriminate Hsame; [reflexivity|].
  injection Hsame as Hhead Hrest. rewrite Hhead, (IH rest2 Hrest). reflexivity.
Qed.

(** What a run of the script on one world answers is what it answers on
    another whose [matches] agrees on the node. *)
Lemma relevance_local (w1 w2 : World) (node : nat) (r : CSSRule) :
  (forall selector, hostMatches w1 node selector = hostMatches w2 node selector) ->
  relevance w1 node r = relevance w2 node r.
Proof.
  intros Hsame. unfold relevance. destruct (cssRules r) as [nested|]; [|apply Hsame].
  induction nested as [|x rest IH]; simpl; [reflexivity|].
  now rewrite Hsame, IH.
Qed.

Lemma tryRules_local (w1 w2 : World) (node : nat) (rules : list CSSRule) (o : JSObject) :
  (forall selector, hostMatches w1 node selector = hostMatches w2 node selector) ->
  tryRules w1 node rules o = tryRules w2 node rules o.
Proof.
  intros Hsame. revert o. induction rules as [|r rest IH]; intros o; simpl.
  - reflexivity.
  - rewrite (relevance_local w1 w2 node r Hsame).
    destruct (relevance w2 node r) as [add|e]; [apply IH | reflexivity].
Qed.

Lemma scanSheets_local (w1 w2 : World) (node : nat) (sheets : list StyleSheet) (o : JSObject) :
  (forall selector, hostMatches w1 node selector = hostMatches w2 node selector) ->
  scanSheets w1 node sheets o = scanSheets w2 node sheets o.
Proof.
  intros Hsame. revert o. induction sheets as [|sheet rest IH]; intros o; simpl.
  - reflexivity.
  - destruct (ruleListOf sheet) as [[rules|]|e]; [|apply IH|reflexivity].
    rewrite (tryRules_local w1 w2 node rules o Hsame).
    destruct (tryRules w2 node rules o) as [o'|e]; [apply IH | reflexivity].
Qed.

(** C2.  Whatever a run of [shouldAddRule] on a node and a rule gives, it
    leaves the page exactly as it was (no side effect).  When it completes
    with a boolean, then for a rule with a nested rule list the boolean is
    true iff the selector text of at least one nested rule matches the node,
    and for a rule without one it is true iff the node matches the selector
    text of the rule itself.  When it throws, the exception is the one
    [matches] throws on the selector text of a nested rule, or of the rule
    itself when it has no nested rule list. *)
Theorem shouldAddRule_relevance (w w' : World) (node : nat) (rule : CSSRule)
    (outcome : Completion bool) :
  shouldAddRule node rule w = (outcome, w') ->
  w' = w
  /\ match outcome with
     | Normal b =>
         b = true <->
         match cssRules rule with
         | Some nested =>
             exists r, r ∈ nested /\ hostMatches w node (selectorText r) = Normal true
         | None => hostMatches w node (selectorText rule) = Normal true
         end
     | Throw e =>
         match cssRules rule with
         | Some nested =>
             exists r, r ∈ nested /\ hostMatches w node (selectorText r) = Throw e
         | None => hostMatches w node (selectorText rule) = Throw e
         end
     end.
Proof.
  rewrite shouldAddRule_run. intros Hrun.
  injection Hrun as Hanswer Hworld. split; [now symmetry|].
  destruct outcome as [b|e].
  - rewrite (relevance_normal _ _ _ _ Hanswer).
    unfold isRelevant. unfold relevance in Hanswer.
    destruct (cssRules rule) as [nested|]; [|apply answersTrue_spec].
    rewrite existsb_exists. split.
    + intros (r & Hin & Hm). exists r.
      split; [now apply list_elem_of_In | now apply answersTrue_spec].
    + intros (r & Hin & Hm). exists r.
      split; [now apply list_elem_of_In | now apply answersTrue_spec].
  - unfold relevance in Hanswer. destruct (cssRules rule) as [nested|].
    + now apply firstAnswer_throw.
    + exact Hanswer.
Qed.

(** A media rule with the rule of the box before a page rule, on the box:
    the loop answers true at the rule of the box. *)
Lemma shouldAddRule_relevance_witness :
  boxPage true = boxPage true
  /\ (true = true <->
      exists r, r ∈ [plainRule ".box" ".box{margin:0}"; pageRule]
                /\ hostMatches (boxPage true) box (selectorText r) = Normal true).
Proof.
  exact (shouldAddRule_relevance (boxPage true) (boxPage true) box pageRuleLast
           (Normal true) eq_refl).
Defined.

(** With the page rule first, [matches] throws on its selector text, and so
    does [shouldAddRule]; so does it on the page rule itself. *)
Lemma shouldAddRule_page_rule :
  shouldAddRule box pageRuleFirst (boxPage true) = (Throw SyntaxError, boxPage true)
  /\ shouldAddRule box pageRule (boxPage true) = (Throw SyntaxError, boxPage true).
Proof. split; reflexivity. Qed.

(** C10.  [shouldAddRule] passes the selector text to [matches] as it finds
    it, absent or not, at both levels, and answers what [matches] answers:
    nowhere does it answer false on its own for an absent selector.  For a
    rule with no nested rule list the run is the call of [matches] on the
    selector text of the rule, so with an absent selector text the host is
    asked with the absent selector and the rule is relevant when the host
    says so.  For a rule with a nested rule list the run gives what
    [matches] gives on the first nested rule on which it does not answer
    false, so when the nested rules (at least one) have no selector text,
    it gives what [matches] gives on the absent selector. *)
Theorem shouldAddRule_delegates (w : World) (node : nat) (rule : CSSRule) :
  (cssRules rule = None ->
   shouldAddRule node rule w = matches node (selectorText rule) w
   /\ shouldAddRule node rule w = (hostMatches w node (selectorText rule), w)
   /\ (selectorText rule = None ->
       shouldAddRule node rule w = (hostMatches w node None, w)))
  /\ (forall before r after,
        cssRules rule = Some (before ++ r :: after) ->
        (forall r', r' ∈ before -> hostMatches w node (selectorText r') = Normal false) ->
        hostMatches w node (selectorText r) <> Normal false ->
        shouldAddRule node rule w = (hostMatches w node (selectorText r), w))
  /\ (forall nested,
        cssRules rule = Some nested -> nested <> [] ->
        (forall r, r ∈ nested -> selectorText r = None) ->
        shouldAddRule node rule w = (hostMatches w node None, w)).
Proof.
  split; [|split].
  - intros Hplain. unfold shouldAddRule. rewrite Hplain.
    split; [reflexivity|]. split; [reflexivity|].
    intros Habsent. now rewrite Habsent.
  - intros before r after Hgroup Hbefore Hhere.
    rewrite shouldAddRule_run. unfold relevance. rewrite Hgroup.
    f_equal. now apply firstAnswer_first.
  - intros nested Hgroup Hsome Habsent.
    rewrite shouldAddRule_run. unfold relevance. rewrite Hgroup. f_equal.
    destruct (hostMatches w node None) as [[|]|e] eqn:Hhost.
    + destruct nested as [|r rest]; [congruence|].
      simpl. rewrite (Habsent r) by left. now rewrite Hhost.
    + apply firstAnswer_all_false. intros r Hr. now rewrite (Habsent r Hr).
    + destruct nested as [|r rest]; [congruence|].
      simpl. rewrite (Habsent r) by left. now rewrite Hhost.
Qed.

(** A font-face rule at the top level of a sheet and a keyframes rule, whose
    nested rule has no selector text, on a host that matches the absent
    selector: both are relevant. *)
Lemma shouldAddRule_delegates_witness :
  shouldAddRule box fontFaceRule lenientPage = (Normal true, lenientPage)
  /\ shouldAddRule box keyframesRule lenientPage = (Normal true, lenientPage).
Proof.
  destruct (shouldAddRule_delegates lenientPage box fontFaceRule) as (Hplain & _ & _).
  destruct (shouldAddRule_delegates lenientPage box keyframesRule) as (_ & _ & Hgroup).
  split.
  - exact (proj1 (proj2 (Hplain eq_refl))).
  - refine (Hgroup _ eq_refl _ _).
    + discriminate.
    + intros r Hr. apply list_elem_of_In in Hr. simpl in Hr.
      destruct Hr as [<-|[]]. reflexivity.
Defined.

(** The answer false for an absent selector is not the script's: a
    keyframes rule, whose only nested rule has no selector text, is relevant
    to the box on a host that matches the absent selector.  So it is not
    so that a rule whose nested rules have no selector text is never
    relevant. *)
Lemma shouldAddRule_nested_absent_selector :
  shouldAddRule box keyframesRule lenientPage = (Normal true, lenientPage)
  /\ ~ (forall (w : World) (node : nat) (rule : CSSRule) (nested : list CSSRule),
          cssRules rule = Some nested ->
          (forall r, r ∈ nested -> selectorText r = None) ->
          shouldAddRule node rule w = (Normal false, w)).
Proof.
  split; [reflexivity|].
  intros Hclaim.
  specialize (Hclaim lenientPage box keyframesRule _ eq_refl).
  assert (Habsent : forall r, r ∈ [ {| selectorText := None;
                                       cssText := str "from{opacity:0}";
                                       cssRules := None |} ] -> selectorText r = None).
  { intros r Hr. apply list_elem_of_In in Hr. simpl in Hr. destruct Hr as [<-|[]]. reflexivity. }
  specialize (Hclaim Habsent). discriminate Hclaim.
Qed.

(** ** First occurrences *)

Lemma filter_all {A : Type} (P : A -> Prop) `{forall x, Decision (P x)} (l : list A) :
  (forall x, x ∈ l -> P x) -> filter P l = l.
Proof.
  induction l as [|y r IH]; intros Hall.
  - reflexivity.
  - rewrite filter_cons_True by (apply Hall; left).
    f_equal. apply IH. intros x Hx. apply Hall. now right.
Qed.

Lemma filter_none {A : Type} (P : A -> Prop) `{forall x, Decision (P x)} (l : list A) :
  (forall x, x ∈ l -> ~ P x) -> filter P l = [].
Proof.
  induction l as [|y r IH]; intros Hall.
  - reflexivity.
  - rewrite filter_cons_False by (apply Hall; left).
    apply IH. intros x Hx. apply Hall. now right.
Qed.

Lemma elem_of_firstOccurrences (l : list JSString) (x : JSString) :
  x ∈ firstOccurrences l <-> x ∈ l.
Proof.
  induction l as [|y r IH]; simpl.
  - reflexivity.
  - rewrite !elem_of_cons, list_elem_of_filter, IH.
    destruct (decide (x = y)); intuition congruence.
Qed.

Lemma NoDup_firstOccurrences (l : list JSString) : NoDup (firstOccurrences l).
Proof.
  induction l as [|y r IH]; simpl.
  - constructor.
  - constructor.
    + rewrite list_elem_of_filter. intuition congruence.
    + now apply NoDup_filter.
Qed.

Lemma filter_firstOccurrences (P : JSString -> Prop) `{forall x, Decision (P x)}
    (l : list JSString) :
  filter P (firstOccurrences l) = firstOccurrences (filter P l).
Proof.
  induction l as [|y r IH]; simpl.
  - reflexivity.
  - rewrite !filter_cons. destruct (decide (P y)); simpl.
    + f_equal. rewrite <- IH, !list_filter_filter. apply list_filter_iff.
      intros x. split; intros [? ?]; split; assumption.
    + rewrite <- IH, list_filter_filter. apply list_filter_iff.
      intros x. split; [intros [HP _]; exact HP|].
      intros HP. split; [exact HP|]. intros ->. contradiction.
Qed.

Lemma fold_addKey (l acc : list JSString) :
  fold_left addKey l acc = acc ++ filter (fun x => x ∉ acc) (firstOccurrences l).
Proof.
  revert acc. induction l as [|y r IH]; intros acc; simpl.
  - now rewrite app_nil_r.
  - rewrite IH. unfold addKey. destruct (decide (y ∈ acc)) as [Hin|Hout].
    + rewrite filter_cons_False by (intros Hn; exact (Hn Hin)).
      f_equal. rewrite list_filter_filter. apply list_filter_iff.
      intros x. split; [|intros [Hx _]; exact Hx].
      intros Hx. split; [exact Hx|]. intros ->. exact (Hx Hin).
    + rewrite filter_cons_True by exact Hout.
      rewrite <- app_assoc. simpl. do 2 f_equal.
      rewrite list_filter_filter. apply list_filter_iff.
      intros x. rewrite elem_of_app, list_elem_of_singleton.
      split.
      * intros Hx. split; intros Hc; apply Hx; [now left | now right].
      * intros [Hx Hne] [Hc|Hc]; [exact (Hx Hc) | exact (Hne Hc)].
Qed.

Lemma firstOccurrences_fold (l : list JSString) :
  fold_left addKey l [] = firstOccurrences l.
Proof.
  rewrite fold_addKey. simpl. apply filter_all. intros x _. apply not_elem_of_nil.
Qed.

Lemma firstOccurrences_app (a b : list JSString) :
  firstOccurrences (a ++ b)
  = firstOccurrences a ++ filter (fun x => x ∉ a) (firstOccurrences b).
Proof.
  rewrite <- !firstOccurrences_fold, fold_left_app, fold_addKey.
  rewrite !firstOccurrences_fold. f_equal.
  apply list_filter_iff. intros x. now rewrite elem_of_firstOccurrences.
Qed.

Lemma firstOccurrences_idem (l : list JSString) :
  firstOccurrences (firstOccurrences l) = firstOccurrences l.
Proof.
  induction l as [|y r IH]; simpl.
  - reflexivity.
  - f_equal. rewrite <- filter_firstOccurrences, IH.
    rewrite list_filter_filter. apply list_filter_iff. intros x. intuition congruence.
Qed.

Lemma firstOccurrences_app_l (a b : list JSString) :
  firstOccurrences (firstOccurrences a ++ b) = firstOccurrences (a ++ b).
Proof.
  rewrite !firstOccurrences_app, firstOccurrences_idem. f_equal.
  apply list_filter_iff. intros x. now rewrite elem_of_firstOccurrences.
Qed.

Lemma firstOccurrences_app_r (a b : list JSString) :
  firstOccurrences (a ++ firstOccurrences b) = firstOccurrences (a ++ b).
Proof.
  now rewrite !firstOccurrences_app, firstOccurrences_idem.
Qed.

Lemma firstOccurrences_flat_map {A : Type} (f : A -> list JSString) (l : list A)
    (a : list JSString) :
  firstOccurrences (a ++ flat_map (fun x => firstOccurrences (f x)) l)
  = firstOccurrences (a ++ flat_map f l).
Proof.
  revert a. induction l as [|x r IH]; intros a; simpl.
  - reflexivity.
  - rewrite !app_assoc, IH.
    rewrite <- !app_assoc.
    rewrite (firstOccurrences_app a), (firstOccurrences_app a (f x ++ _)).
    f_equal. f_equal. apply firstOccurrences_app_l.
Qed.

Lemma firstOccurrences_NoDup (l : list JSString) :
  NoDup l -> firstOccurrences l = l.
Proof.
  induction 1 as [|x l Hx Hl IH]; simpl.
  - reflexivity.
  - rewrite IH. f_equal. apply filter_all. intros y Hy ->. exact (Hx Hy).
Qed.

(** ** Objects whose keys are plain *)

Lemma plainKey_spec (k : JSString) :
  plainKey k = true -> isArrayIndex k = false /\ k <> protoKey.
Proof.
  unfold plainKey. intros H. apply andb_true_iff in H as [H1 H2].
  apply negb_true_iff in H1. apply negb_true_iff in H2.
  split; [exact H1|]. now apply bool_decide_eq_false in H2.
Qed.

Lemma indexKeys_plain (ks : list JSString) :
  (forall k, k ∈ ks -> isArrayIndex k = false) -> indexKeys ks = [].
Proof.
  induction ks as [|k r IH]; intros Hall.
  - reflexivity.
  - unfold indexKeys in *. simpl.
    assert (Hk : isArrayIndex k = false) by (apply Hall; left).
    unfold isArrayIndex in Hk. destruct (arrayIndex k); [discriminate|]. simpl.
    apply IH. intros x Hx. apply Hall. now right.
Qed.

Lemma ownKeys_plain (o : JSObject) :
  (forall k, k ∈ keysOf o -> plainKey k = true) -> ownKeys o = keysOf o.
Proof.
  intros Hall. unfold ownKeys. fold (keysOf o).
  rewrite indexKeys_plain by (intros k Hk; now apply plainKey_spec, Hall).
  simpl. apply filter_all. intros k Hk. now apply plainKey_spec, Hall.
Qed.

Lemma keysOf_objectSet (o : JSObject) (k : JSString) (v : bool) :
  plainKey k = true -> keysOf (objectSet o k v) = addKey (keysOf o) k.
Proof.
  intros Hk. apply plainKey_spec in Hk as [_ Hproto].
  unfold objectSet, addKey, hasOwn. fold (keysOf o).
  rewrite bool_decide_eq_false_2 by exact Hproto.
  destruct (decide (k ∈ keysOf o)) as [Hin|Hout].
  - rewrite bool_decide_eq_true_2 by exact Hin.
    unfold keysOf. rewrite map_map. apply map_ext.
    intros [k' v']. simpl. destruct (bool_decide_reflect (k' = k)); simpl; congruence.
  - rewrite bool_decide_eq_false_2 by exact Hout.
    unfold keysOf. now rewrite map_app.
Qed.

Lemma objectGet_is_Some (o : JSObject) (k : JSString) :
  k ∈ keysOf o -> is_Some (objectGet o k).
Proof.
  induction o as [|[k' v'] r IH]; simpl; intros Hin.
  - now apply elem_of_nil in Hin.
  - destruct (bool_decide_reflect (k' = k)) as [->|Hne]; [eauto|].
    apply IH. apply elem_of_cons in Hin as [Heq|Hin]; [congruence | exact Hin].
Qed.

Lemma elem_of_fold_addKey (l acc : list JSString) (x : JSString) :
  x ∈ fold_left addKey l acc <-> x ∈ acc \/ x ∈ l.
Proof.
  rewrite fold_addKey, elem_of_app, list_elem_of_filter, elem_of_firstOccurrences.
  destruct (decide (x ∈ acc)); split.
  - intros [?|[_ ?]]; [now left | now right].
  - intros _. now left.
  - intros [?|[_ ?]]; [now left | now right].
  - intros [?|?]; [now left | right; now split].
Qed.

Lemma keysOf_assign_keys (source : JSObject) (ks : list JSString) (target : JSObject) :
  (forall k, k ∈ ks -> k ∈ keysOf source /\ plainKey k = true) ->
  keysOf (fold_left (fun t k => match objectGet source k with
                                | Some v => objectSet t k v
                                | None => t
                                end) ks target)
  = fold_left addKey ks (keysOf target).
Proof.
  revert target. induction ks as [|k r IH]; intros target Hall; simpl.
  - reflexivity.
  - destruct (Hall k) as [Hin Hplain]; [left|].
    destruct (objectGet_is_Some source k Hin) as [v ->].
    rewrite IH by (intros x Hx; apply Hall; now right).
    now rewrite keysOf_objectSet.
Qed.

Lemma keysOf_assignFrom (target source : JSObject) :
  (forall k, k ∈ keysOf source -> plainKey k = true) ->
  keysOf (assignFrom target source) = fold_left addKey (keysOf source) (keysOf target).
Proof.
  intros Hall. unfold assignFrom. rewrite ownKeys_plain by exact Hall.
  apply keysOf_assign_keys. intros k Hk. split; [exact Hk | now apply Hall].
Qed.

Lemma keysOf_objectAssign (tree found : JSObject) :
  (forall k, k ∈ keysOf tree -> plainKey k = true) ->
  (forall k, k ∈ keysOf found -> plainKey k = true) ->
  keysOf (objectAssign [] [tree; found]) = firstOccurrences (keysOf tree ++ keysOf found).
Proof.
  intros Htree Hfound. unfold objectAssign. simpl.
  rewrite !keysOf_assignFrom by assumption.
  rewrite <- firstOccurrences_fold, fold_left_app. reflexivity.
Qed.

(** ** The walk over rules, sheets and nodes *)

Lemma keysOf_scanRules (w : World) (node : nat) (rules : list CSSRule) (object : JSObject) :
  (forall r, r ∈ rules -> plainKey (cssText r) = true) ->
  keysOf (scanRules w node rules object)
  = fold_left addKey
      (map cssText (filter (fun r => isRelevant w node r = true) rules)) (keysOf object).
Proof.
  unfold scanRules. revert object.
  induction rules as [|r rest IH]; intros object Hall; simpl.
  - reflexivity.
  - rewrite IH by (intros x Hx; apply Hall; now right).
    rewrite filter_cons. unfold addRule.
    destruct (isRelevant w node r) eqn:Hrel.
    + destruct (decide (true = true)) as [_|Hc]; [|now elim Hc].
      simpl. rewrite keysOf_objectSet by (apply Hall; left). reflexivity.
    + destruct (decide (false = true)) as [Hc|_]; [discriminate|]. reflexivity.
Qed.

(** A completed loop over the rules of a sheet added the relevant ones. *)
Lemma tryRules_normal (w : World) (node : nat) (rules : list CSSRule) (o o' : JSObject) :
  tryRules w node rules o = Normal o' -> o' = scanRules w node rules o.
Proof.
  unfold scanRules. revert o. induction rules as [|r rest IH]; intros o Hrun; simpl in *.
  - congruence.
  - destruct (relevance w node r) as [add|e] eqn:Hrel; [|discriminate Hrun].
    unfold addRule at 2. rewrite <- (relevance_normal w node r add Hrel). now apply IH.
Qed.

(** The loop completes when [shouldAddRule] answers on every rule, and
    only then. *)
Lemma tryRules_answers (w : World) (node : nat) (rules : list CSSRule) (o : JSObject) :
  forallb (relevanceAnswers w node) rules = true ->
  exists o', tryRules w node rules o = Normal o'.
Proof.
  revert o. induction rules as [|r rest IH]; intros o Hall; simpl in *.
  - eauto.
  - apply andb_true_iff in Hall as [Hr Hrest]. unfold relevanceAnswers in Hr.
    destruct (relevance w node r) as [add|e]; [|discriminate Hr]. now apply IH.
Qed.

Lemma tryRules_completed (w : World) (node : nat) (rules : list CSSRule) (o o' : JSObject) :
  tryRules w node rules o = Normal o' -> forallb (relevanceAnswers w node) rules = true.
Proof.
  revert o. induction rules as [|r rest IH]; intros o Hrun; simpl in *.
  - reflexivity.
  - unfold relevanceAnswers at 1.
    destruct (relevance w node r) as [add|e]; [|discriminate Hrun]. simpl. eauto.
Qed.

Lemma scanSheets_readable (w : World) (node : nat) (sheets : list StyleSheet)
    (object object' : JSObject) :
  scanSheets w node sheets object = Normal object' ->
  forallb (fun sheet => forallb (fun r => plainKey (cssText r)) (accessibleRules sheet)) sheets
  = true ->
  keysOf object'
  = fold_left addKey
      (flat_map (fun sheet =>
                   map cssText (filter (fun r => isRelevant w node r = true)
                                       (accessibleRules sheet))) sheets)
      (keysOf object).
Proof.
  revert object. induction sheets as [|sheet rest IH]; intros object Hrun Hplain; simpl in *.
  - congruence.
  - apply andb_true_iff in Hplain as [Hrules Hplain].
    unfold accessibleRules in *.
    destruct (ruleListOf sheet) as [[rules|]|e]; [| |discriminate Hrun].
    + destruct (tryRules w node rules object) as [o1|e] eqn:Hrules_run; [|discriminate Hrun].
      rewrite (IH o1 Hrun Hplain), fold_left_app. f_equal.
      rewrite (tryRules_normal _ _ _ _ _ Hrules_run).
      apply keysOf_scanRules. intros r Hr.
      rewrite forallb_forall in Hrules. apply Hrules. now apply list_elem_of_In.
    + exact (IH object Hrun Hplain).
Qed.

Lemma scanSheets_answers (w : World) (node : nat) (sheets : list StyleSheet) (object : JSObject) :
  forallb (fun sheet => negb (raisesOnRead sheet)) sheets = true ->
  forallb (fun sheet => forallb (relevanceAnswers w node) (accessibleRules sheet)) sheets = true ->
  exists object', scanSheets w node sheets object = Normal object'.
Proof.
  revert object. induction sheets as [|sheet rest IH]; intros object Hread Hanswers; simpl in *.
  - eauto.
  - apply andb_true_iff in Hread as [Hsheet Hread].
    apply andb_true_iff in Hanswers as [Hrules Hanswers].
    unfold raisesOnRead in Hsheet. unfold accessibleRules in Hrules.
    destruct (ruleListOf sheet) as [[rules|]|e]; [| |discriminate Hsheet].
    + destruct (tryRules_answers w node rules object Hrules) as [o1 ->]. now apply IH.
    + now apply IH.
Qed.

Lemma scanSheets_completed (w : World) (node : nat) (sheets : list StyleSheet)
    (object object' : JSObject) :
  scanSheets w node sheets object = Normal object' ->
  forallb (fun sheet => negb (raisesOnRead sheet)) sheets = true
  /\ forallb (fun sheet => forallb (relevanceAnswers w node) (accessibleRules sheet)) sheets
     = true.
Proof.
  revert object. induction sheets as [|sheet rest IH]; intros object Hrun; simpl in *.
  - split; reflexivity.
  - unfold raisesOnRead, accessibleRules.
    destruct (ruleListOf sheet) as [[rules|]|e]; [| |discriminate Hrun]; simpl.
    + destruct (tryRules w node rules object) as [o1|e] eqn:Hrules; [|discriminate Hrun].
      rewrite (tryRules_completed _ _ _ _ _ Hrules). simpl. exact (IH o1 Hrun).
    + exact (IH object Hrun).
Qed.

Lemma relevantTexts_plain (w : World) (node : nat) (k : JSString) :
  plainTexts w = true -> k ∈ relevantTexts w node -> plainKey k = true.
Proof.
  unfold plainTexts, relevantTexts. intros Hplain Hin.
  apply list_elem_of_In, in_flat_map in Hin as (sheet & Hsheet & Hin).
  apply list_elem_of_In, list_elem_of_fmap in Hin as (r & -> & Hr).
  apply list_elem_of_filter in Hr as [_ Hr].
  rewrite forallb_forall in Hplain. specialize (Hplain sheet Hsheet).
  rewrite forallb_forall in Hplain. apply Hplain. now apply list_elem_of_In.
Qed.

Lemma rulesImpacting_readable (w : World) (node : nat) (found : JSObject) :
  rulesImpacting w node = Normal found -> plainTexts w = true ->
  keysOf found = firstOccurrences (relevantTexts w node).
Proof.
  intros Hrun Hplain.
  rewrite (scanSheets_readable w node (styleSheets w) [] found Hrun Hplain).
  simpl. apply firstOccurrences_fold.
Qed.

Lemma mergeOver_readable (w : World) (nodes : list nat) (tree rules : JSObject) :
  mergeOver w nodes tree = Normal rules -> plainTexts w = true ->
  (forall k, k ∈ keysOf tree -> plainKey k = true) ->
  NoDup (keysOf tree) ->
  keysOf rules = firstOccurrences (keysOf tree ++ flat_map (relevantTexts w) nodes)
  /\ (forall k, k ∈ keysOf rules -> plainKey k = true).
Proof.
  intros Hrun Hplain. revert tree Hrun.
  induction nodes as [|n rest IH]; intros tree Hrun Htree Hnodup; simpl in *.
  - injection Hrun as <-. rewrite app_nil_r. split; [|exact Htree].
    symmetry. now apply firstOccurrences_NoDup.
  - destruct (rulesImpacting w n) as [found|e] eqn:Hn; [|discriminate Hrun].
    pose proof (rulesImpacting_readable w n found Hn Hplain) as Hfound.
    assert (Hfound_plain : forall k, k ∈ keysOf found -> plainKey k = true).
    { intros k Hk. rewrite Hfound, elem_of_firstOccurrences in Hk.
      now apply (relevantTexts_plain w n). }
    destruct (IH (objectAssign [] [tree; found]) Hrun) as (Hkeys & Hrules).
    { intros k. rewrite keysOf_objectAssign, elem_of_firstOccurrences, elem_of_app by assumption.
      intros [Hk|Hk]; [now apply Htree | now apply Hfound_plain]. }
    { rewrite keysOf_objectAssign by assumption. apply NoDup_firstOccurrences. }
    split; [|exact Hrules].
    rewrite Hkeys, keysOf_objectAssign, Hfound by assumption.
    rewrite firstOccurrences_app_l, <- app_assoc.
    rewrite (firstOccurrences_app (keysOf tree)), (firstOccurrences_app (keysOf tree) (_ ++ _)).
    f_equal. f_equal. apply firstOccurrences_app_l.
Qed.

Lemma mergeOver_answers (w : World) (nodes : list nat) (tree : JSObject) :
  noSheetRaises w = true ->
  matchesAnswers w nodes (styleSheets w) = true ->
  exists rules, mergeOver w nodes tree = Normal rules.
Proof.
  intros Hread. revert tree. induction nodes as [|n rest IH]; intros tree Hanswers; simpl in *.
  - eauto.
  - apply andb_true_iff in Hanswers as [Hn Hrest].
    destruct (scanSheets_answers w n (styleSheets w) [] Hread Hn) as [found Hfound].
    unfold rulesImpacting. rewrite Hfound. now apply IH.
Qed.

Lemma mergeOver_completed (w : World) (nodes : list nat) (tree rules : JSObject) :
  mergeOver w nodes tree = Normal rules -> matchesAnswers w nodes (styleSheets w) = true.
Proof.
  revert tree. induction nodes as [|n rest IH]; intros tree Hrun; simpl in *.
  - reflexivity.
  - destruct (rulesImpacting w n) as [found|e] eqn:Hn; [|discriminate Hrun].
    destruct (scanSheets_completed _ _ _ _ _ Hn) as [_ ->]. simpl. exact (IH _ Hrun).
Qed.

(** ** The script only reads the page while it collects the rules *)

Lemma readRuleList_run (sheet : StyleSheet) (w : World) :
  readRuleList sheet w = (ruleListOf sheet, w).
Proof.
  unfold readRuleList, ruleListOf, bind, readGetter.
  destruct (sheetCssRules sheet) as [[l|]|e]; simpl; try reflexivity.
  destruct (sheetRules sheet); reflexivity.
Qed.

Lemma getRules_rules_run (node : nat) (rules : list CSSRule) (object : JSObject) (w : World) :
  getRules_rules node rules object w = (tryRules w node rules object, w).
Proof.
  revert object. induction rules as [|r rest IH]; intros object; simpl.
  - reflexivity.
  - unfold bind at 1. rewrite shouldAddRule_run.
    destruct (relevance w node r) as [add|e]; [apply IH | reflexivity].
Qed.

Lemma getRules_sheets_run (node : nat) (sheets : list StyleSheet) (object : JSObject) (w : World) :
  getRules_sheets node sheets object w = (scanSheets w node sheets object, w).
Proof.
  revert object. induction sheets as [|sheet rest IH]; intros object; simpl.
  - reflexivity.
  - unfold bind at 1. rewrite readRuleList_run.
    destruct (ruleListOf sheet) as [[rules|]|e]; try reflexivity.
    + unfold bind at 1. rewrite getRules_rules_run.
      destruct (tryRules w node rules object) as [o1|e]; [apply IH | reflexivity].
    + apply IH.
Qed.

Lemma getRulesImpactingNode_run (node : nat) (w : World) :
  getRulesImpactingNode node w = (rulesImpacting w node, w).
Proof.
  unfold getRulesImpactingNode, rulesImpacting. rewrite bind_gets.
  apply getRules_sheets_run.
Qed.

Lemma reduce_run (nodes : list nat) (tree : JSObject) (w : World) :
  reduce (fun tree child =>
            let* found := getRulesImpactingNode child in
            ret (objectAssign [] [tree; found])) nodes tree w
  = (mergeOver w nodes tree, w).
Proof.
  revert tree. induction nodes as [|n rest IH]; intros tree; simpl.
  - reflexivity.
  - unfold bind at 1. unfold bind at 1. rewrite getRulesImpactingNode_run.
    destruct (rulesImpacting w n) as [found|e]; [|reflexivity].
    unfold ret at 1. apply IH.
Qed.

Lemma getStylesForTree_run (root : nat) (w : World) :
  getStylesForTree root w = (stylesForTree w root, w).
Proof.
  unfold getStylesForTree, stylesForTree, querySelectorAll.
  rewrite bind_gets. unfold bind at 1. rewrite getRulesImpactingNode_run.
  destruct (rulesImpacting w root) as [first|e]; [|reflexivity].
  unfold bind at 1. rewrite reduce_run.
  destruct (mergeOver w _ first) as [rules|e]; reflexivity.
Qed.

(** A completed collection gives the texts of the relevant rules, each
    once, in the order of the walk. *)
Lemma stylesForTree_readable (w : World) (root : nat) (css : JSString) :
  stylesForTree w root = Normal css -> plainTexts w = true ->
  css = collectRules w root.
Proof.
  unfold stylesForTree, collectRules, discovered, candidates. intros Hrun Hplain.
  destruct (rulesImpacting w root) as [first|e] eqn:Hroot; [|discriminate Hrun].
  pose proof (rulesImpacting_readable w root first Hroot Hplain) as Hfirst.
  destruct (mergeOver w (descendantElements (length (dom w)) (dom w) root) first)
    as [rules|e] eqn:Hmerge; [|discriminate Hrun].
  destruct (mergeOver_readable w _ first rules Hmerge Hplain) as (Hkeys & Hrules).
  { intros k Hk. rewrite Hfirst, elem_of_firstOccurrences in Hk.
    now apply (relevantTexts_plain w root). }
  { rewrite Hfirst. apply NoDup_firstOccurrences. }
  simpl in Hrun. injection Hrun as <-.
  unfold joinEmpty, objectKeys. rewrite ownKeys_plain by exact Hrules.
  rewrite Hkeys, Hfirst. simpl. now rewrite firstOccurrences_app_l.
Qed.

(** The collection completes when no style sheet raises as its rule list is
    read and [shouldAddRule] answers on every candidate and rule, and only
    then. *)
Lemma stylesForTree_answers (w : World) (root : nat) :
  noSheetRaises w = true ->
  matchesAnswers w (candidates w root) (styleSheets w) = true ->
  exists css, stylesForTree w root = Normal css.
Proof.
  intros Hread Hanswers. unfold stylesForTree.
  unfold candidates in Hanswers. simpl in Hanswers.
  apply andb_true_iff in Hanswers as [Hroot Hrest].
  destruct (scanSheets_answers w root (styleSheets w) [] Hread Hroot) as [first Hfirst].
  unfold rulesImpacting at 1. rewrite Hfirst.
  destruct (mergeOver_answers w (descendantElements (length (dom w)) (dom w) root) first
              Hread Hrest) as [rules ->].
  simpl. eauto.
Qed.

Lemma stylesForTree_completed (w : World) (root : nat) (css : JSString) :
  stylesForTree w root = Normal css ->
  noSheetRaises w = true /\ matchesAnswers w (candidates w root) (styleSheets w) = true.
Proof.
  unfold stylesForTree, noSheetRaises, candidates. intros Hrun.
  destruct (rulesImpacting w root) as [first|e] eqn:Hroot; [|discriminate Hrun].
  destruct (scanSheets_completed _ _ _ _ _ Hroot) as [Hread Hanswers].
  split; [exact Hread|]. simpl. rewrite Hanswers. simpl.
  destruct (mergeOver w (descendantElements (length (dom w)) (dom w) root) first)
    as [rules|e] eqn:Hmerge; [|discriminate Hrun].
  exact (mergeOver_completed _ _ _ _ Hmerge).
Qed.

(** ** Collecting the rules of a tree *)

(** C1.  A run of [getStylesForTree] that completes (no style sheet raised
    as its rule list was read and [matches] answered on every selector text
    it was given), on a page where the texts of the rules are serialised
    rules, not array indices, leaves the page as it was and returns the
    texts of the relevant rules found by walking the candidates in order
    (the root, then its element descendants in tree order), for each
    candidate the style sheets in order, for each sheet its top-level rules
    in order; every distinct text is in the result once, at the place of its
    first discovery, and the texts are concatenated with nothing between
    them. *)
Theorem getStylesForTree_collects (w w' : World) (root : nat) (css : JSString) :
  plainTexts w = true ->
  getStylesForTree root w = (Normal css, w') ->
  w' = w
  /\ css = concat (firstOccurrences (discovered w root))
  /\ discovered w root
     = flat_map
         (fun n =>
            flat_map
              (fun sheet =>
                 map cssText
                   (filter (fun r => isRelevant w n r = true) (accessibleRules sheet)))
              (styleSheets w))
         (root :: descendantElements (length (dom w)) (dom w) root)
  /\ NoDup (firstOccurrences (discovered w root))
  /\ (forall t, t ∈ firstOccurrences (discovered w root) <-> t ∈ discovered w root)
  /\ (forall earlier t later,
         discovered w root = earlier ++ t :: later ->
         t ∉ earlier ->
         firstOccurrences (discovered w root)
         = firstOccurrences earlier
           ++ t :: filter (fun x => x ∉ earlier) (filter (fun x => x <> t) (firstOccurrences later))).
Proof.
  intros Hplain Hrun. rewrite getStylesForTree_run in Hrun.
  injection Hrun as Hcss Hworld.
  split; [now symmetry|]. split; [|split; [|split; [|split]]].
  - now apply stylesForTree_readable.
  - reflexivity.
  - apply NoDup_firstOccurrences.
  - intros t. apply elem_of_firstOccurrences.
  - intros earlier t later -> Hnew.
    rewrite firstOccurrences_app. simpl.
    now rewrite filter_cons_True by exact Hnew.
Qed.

(** The walk of C1 on a page where the box and the span in it match the
    same rule, which is also listed in a second sheet. *)
Lemma getStylesForTree_collects_witness :
  getStylesForTree box twoBoxesPage
  = (Normal (str ".box{padding:10px}@media print{.box{margin:0}}"), twoBoxesPage)
  /\ str ".box{padding:10px}@media print{.box{margin:0}}"
     = concat (firstOccurrences (discovered twoBoxesPage box)).
Proof.
  assert (Hrun : getStylesForTree box twoBoxesPage
                 = (Normal (str ".box{padding:10px}@media print{.box{margin:0}}"),
                    twoBoxesPage)).
  { rewrite getStylesForTree_run. f_equal. }
  split; [exact Hrun|].
  destruct (getStylesForTree_collects twoBoxesPage twoBoxesPage box _ eq_refl Hrun)
    as (_ & Hcss & _).
  exact Hcss.
Defined.

(** On an element, the run completes, with that result, when no style sheet
    raises as its rule list is read and [shouldAddRule] answers on every
    candidate and every rule the sheets give, and only then. *)
Lemma getStylesForTree_completes (w : World) (root : nat) :
  isElement (dom w) root = true ->
  (exists css, getStylesForTree root w = (Normal css, w))
  <-> noSheetRaises w = true /\ matchesAnswers w (candidates w root) (styleSheets w) = true.
Proof.
  intros _. rewrite getStylesForTree_run. split.
  - intros (css & Hrun). injection Hrun as Hcss. exact (stylesForTree_completed _ _ _ Hcss).
  - intros (Hread & Hanswers).
    destruct (stylesForTree_answers w root Hread Hanswers) as [css ->]. eauto.
Qed.

(** A page rule among the rules makes the collection throw the SyntaxError
    of [matches]. *)
Lemma getStylesForTree_page_rule :
  getStylesForTree box pageRulePage = (Throw SyntaxError, pageRulePage).
Proof. rewrite getStylesForTree_run. f_equal. Qed.

(** ** Sheets without a readable rule list *)

Lemma scanSheets_skip (w : World) (node : nat) (before after : list StyleSheet)
    (sheet : StyleSheet) (object : JSObject) :
  yieldsNoList sheet = true ->
  scanSheets w node (before ++ sheet :: after) object
  = scanSheets w node (before ++ after) object.
Proof.
  intros Hnone. revert object.
  induction before as [|s rest IH]; intros object; simpl.
  - unfold yieldsNoList in Hnone.
    destruct (ruleListOf sheet) as [[rules|]|e]; try discriminate. reflexivity.
  - destruct (ruleListOf s) as [[rules|]|e]; [|apply IH|reflexivity].
    destruct (tryRules w node rules object) as [o1|e]; [apply IH | reflexivity].
Qed.

Lemma scanSheets_withStyleSheets (w : World) (s : list StyleSheet) (node : nat)
    (sheets : list StyleSheet) (object : JSObject) :
  scanSheets (withStyleSheets w s) node sheets object = scanSheets w node sheets object.
Proof. now apply scanSheets_local. Qed.

Lemma rulesImpacting_skip (w : World) (node : nat) (before after : list StyleSheet)
    (sheet : StyleSheet) :
  styleSheets w = before ++ sheet :: after ->
  yieldsNoList sheet = true ->
  rulesImpacting w node = rulesImpacting (withStyleSheets w (before ++ after)) node.
Proof.
  intros Hsheets Hnone. unfold rulesImpacting. rewrite Hsheets. simpl.
  now rewrite scanSheets_withStyleSheets, scanSheets_skip.
Qed.

Lemma mergeOver_skip (w : World) (nodes : list nat) (tree : JSObject)
    (before after : list StyleSheet) (sheet : StyleSheet) :
  styleSheets w = before ++ sheet :: after ->
  yieldsNoList sheet = true ->
  mergeOver w nodes tree = mergeOver (withStyleSheets w (before ++ after)) nodes tree.
Proof.
  intros Hsheets Hnone. revert tree.
  induction nodes as [|n rest IH]; intros tree; simpl.
  - reflexivity.
  - rewrite <- (rulesImpacting_skip w n before after sheet Hsheets Hnone).
    destruct (rulesImpacting w n); [apply IH | reflexivity].
Qed.

Lemma stylesForTree_skip (w : World) (root : nat) (before after : list StyleSheet)
    (sheet : StyleSheet) :
  styleSheets w = before ++ sheet :: after ->
  yieldsNoList sheet = true ->
  stylesForTree w root = stylesForTree (withStyleSheets w (before ++ after)) root.
Proof.
  intros Hsheets Hnone. unfold stylesForTree.
  rewrite <- (rulesImpacting_skip w root before after sheet Hsheets Hnone).
  destruct (rulesImpacting w root) as [first|e]; [|reflexivity].
  simpl. now rewrite <- (mergeOver_skip w _ first before after sheet Hsheets Hnone).
Qed.

Lemma forallb_same {A : Type} (f g : A -> bool) (l : list A) :
  (forall x, f x = g x) -> forallb f l = forallb g l.
Proof.
  intros Hsame. induction l as [|x r IH]; simpl; [reflexivity|].
  now rewrite Hsame, IH.
Qed.

Lemma matchesAnswers_local (w1 w2 : World) (nodes : list nat) (sheets : list StyleSheet) :
  (forall n selector, hostMatches w1 n selector = hostMatches w2 n selector) ->
  matchesAnswers w1 nodes sheets = matchesAnswers w2 nodes sheets.
Proof.
  intros Hsame. unfold matchesAnswers.
  apply forallb_same. intros n. apply forallb_same. intros s.
  apply forallb_same. intros r.
  unfold relevanceAnswers. rewrite (relevance_local w1 w2 n r); [reflexivity|].
  intros selector. apply Hsame.
Qed.

Lemma plainTexts_skip (w : World) (before after : list StyleSheet) (sheet : StyleSheet) :
  styleSheets w = before ++ sheet :: after ->
  plainTexts w = true ->
  plainTexts (withStyleSheets w (before ++ after)) = true.
Proof.
  unfold plainTexts. intros -> Hplain. simpl.
  rewrite forallb_app in *. simpl in Hplain.
  apply andb_true_iff in Hplain as [Hbefore Hrest].
  apply andb_true_iff in Hrest as [_ Hafter].
  now rewrite Hbefore, Hafter.
Qed.

(** C3, as the script has it.  A style sheet that yields no readable rule
    list (neither [cssRules] nor [rules] gives one) is skipped: a run of
    [getStylesForTree] leaves the page as it was and gives what it gives on
    the page without that sheet, be it a result or an exception.  When it
    completes, on a page where the texts of the rules are serialised rules,
    what it returns is the texts of the relevant rules of the other sheets,
    each distinct text once, in the order of the walk.  On an element it
    completes when reading the other sheets does not raise and
    [shouldAddRule] answers on the candidates for their rules. *)
Theorem getStylesForTree_skips_unreadable (w : World) (root : nat)
    (before after : list StyleSheet) (sheet : StyleSheet) :
  styleSheets w = before ++ sheet :: after ->
  yieldsNoList sheet = true ->
  getStylesForTree root w
  = (fst (getStylesForTree root (withStyleSheets w (before ++ after))), w)
  /\ (forall css w',
        plainTexts w = true ->
        getStylesForTree root w = (Normal css, w') ->
        css = concat
                (firstOccurrences
                   (flat_map
                      (fun n =>
                         flat_map
                           (fun s =>
                              map cssText
                                (filter (fun r => isRelevant w n r = true) (accessibleRules s)))
                           (before ++ after))
                      (root :: descendantElements (length (dom w)) (dom w) root))))
  /\ (isElement (dom w) root = true ->
      forallb (fun s => negb (raisesOnRead s)) (before ++ after) = true ->
      matchesAnswers w (root :: descendantElements (length (dom w)) (dom w) root)
        (before ++ after) = true ->
      exists css, getStylesForTree root w = (Normal css, w)).
Proof.
  intros Hsheets Hnone.
  pose proof (stylesForTree_skip w root before after sheet Hsheets Hnone) as Hsame.
  split; [|split].
  - rewrite !getStylesForTree_run. simpl. now rewrite Hsame.
  - intros css w' Hplain Hrun. rewrite getStylesForTree_run, Hsame in Hrun.
    injection Hrun as Hcss _.
    apply stylesForTree_readable in Hcss;
      [|exact (plainTexts_skip w before after sheet Hsheets Hplain)].
    exact Hcss.
  - intros _ Hread Hanswers.
    destruct (stylesForTree_answers (withStyleSheets w (before ++ after)) root) as [css Hcss].
    + exact Hread.
    + unfold candidates. change (dom (withStyleSheets w (before ++ after))) with (dom w).
      change (styleSheets (withStyleSheets w (before ++ after))) with (before ++ after).
      rewrite <- Hanswers. now apply matchesAnswers_local.
    + exists css. rewrite getStylesForTree_run, Hsame, Hcss. reflexivity.
Qed.

(** A sheet without a rule list before the sheet with the rule of the box. *)
Lemma getStylesForTree_skips_unreadable_witness :
  getStylesForTree box skippedSheetPage
  = (Normal (str ".box{padding:10px}"), skippedSheetPage).
Proof.
  destruct (getStylesForTree_skips_unreadable skippedSheetPage box
              [] [readableSheet [boxRule]] emptySheet eq_refl eq_refl) as [Hrun _].
  rewrite Hrun. f_equal.
Defined.

(** C3 as stated fails where reading the rule list raises: with a
    cross-origin sheet before the sheet that has the rule of the box,
    [getStylesForTree] raises the SecurityError of the read and returns no
    rule of the other sheet, which on its own gives the rule. *)
Lemma getStylesForTree_raising_sheet_aborts :
  styleSheets crossOriginPage = [crossOriginSheet; readableSheet [boxRule]]
  /\ raisesOnRead crossOriginSheet = true
  /\ getStylesForTree box crossOriginPage = (Throw SecurityError, crossOriginPage)
  /\ fst (getStylesForTree box (withStyleSheets crossOriginPage [readableSheet [boxRule]]))
     = Normal (str ".box{padding:10px}").
Proof.
  split; [reflexivity|]. split; [reflexivity|]. split.
  - rewrite getStylesForTree_run. reflexivity.
  - rewrite getStylesForTree_run. vm_compute. reflexivity.
Qed.

Lemma scanSheets_raises (w : World) (node : nat) (before after : list StyleSheet)
    (sheet : StyleSheet) (e : Exn) (object : JSObject) :
  forallb (fun s => negb (raisesOnRead s)) before = true ->
  forallb (fun s => forallb (relevanceAnswers w node) (accessibleRules s)) before = true ->
  ruleListOf sheet = Throw e ->
  scanSheets w node (before ++ sheet :: after) object = Throw e.
Proof.
  intros Hbefore Hanswers Hraise. revert object.
  induction before as [|s rest IH]; intros object; simpl in *.
  - now rewrite Hraise.
  - apply andb_true_iff in Hbefore as [Hs Hrest].
    apply andb_true_iff in Hanswers as [Hrules Hanswers].
    unfold raisesOnRead in Hs. unfold accessibleRules in Hrules.
    destruct (ruleListOf s) as [[rules|]|e']; [| |discriminate].
    + destruct (tryRules_answers w node rules object Hrules) as [o1 ->]. now apply IH.
    + now apply IH.
Qed.

(** A sheet whose rule list cannot be read without an exception makes
    [getStylesForTree] throw that exception, at the first node of the walk,
    when the walk gets to that sheet: the sheets before it can be read and
    [shouldAddRule] answers on the root for their rules. *)
Lemma getStylesForTree_raises (w : World) (root : nat) (before after : list StyleSheet)
    (sheet : StyleSheet) (e : Exn) :
  styleSheets w = before ++ sheet :: after ->
  forallb (fun s => negb (raisesOnRead s)) before = true ->
  matchesAnswers w [root] before = true ->
  ruleListOf sheet = Throw e ->
  getStylesForTree root w = (Throw e, w).
Proof.
  intros Hsheets Hbefore Hanswers Hraise. rewrite getStylesForTree_run. f_equal.
  unfold stylesForTree, rulesImpacting. rewrite Hsheets.
  unfold matchesAnswers in Hanswers. simpl in Hanswers.
  rewrite andb_true_r in Hanswers.
  now rewrite (scanSheets_raises w root before after sheet e []).
Qed.

(** ** The synthesized document *)

Lemma getIframeContentForNode_run (node : nat) (w : World) :
  getIframeContentForNode node w
  = (mapCompletion (fun styles => standaloneDocument styles (hostInnerHTML w node))
       (stylesForTree w node), w).
Proof.
  unfold getIframeContentForNode. unfold bind at 1. rewrite getStylesForTree_run.
  destruct (stylesForTree w node) as [styles|e]; reflexivity.
Qed.

(** C4.  [getIframeContentForNode] leaves the page as it was and, when the
    collection of the rules completes with [styles], returns exactly the
    doctype, the [html] element with [lang="en"], a [head] with one [style]
    element holding [styles], and a [body] holding the inner markup of the
    node, and nothing else: the fixed text has one style element, no script
    element, and no attribute or rule that refers to an external resource.
    On the page with the single rule [.box{padding:10px}] and the root
    [<div class="box"><span>hi</span></div>], the body is [<span>hi</span>]
    and the style element holds [.box{padding:10px}], which occurs once in
    the document. *)
Theorem getIframeContentForNode_document (w : World) (node : nat) :
  getIframeContentForNode node w
  = (mapCompletion
       (fun styles =>
          str "<!doctype html>" ++ str "<html lang=" ++ [quote] ++ str "en" ++ [quote] ++ str ">"
          ++ str "<head>" ++ str "<style>" ++ styles ++ str "</style>" ++ str "</head>"
          ++ str "<body>" ++ hostInnerHTML w node ++ str "</body>" ++ str "</html>")
       (fst (getStylesForTree node w)), w)
  /\ countOccurrences (str "<style") (standaloneDocument [] []) = 1%nat
  /\ occursIn (str "<script") (standaloneDocument [] []) = false
  /\ occursIn (str "src=") (standaloneDocument [] []) = false
  /\ occursIn (str "href=") (standaloneDocument [] []) = false
  /\ occursIn (str "url(") (standaloneDocument [] []) = false
  /\ occursIn (str "@import") (standaloneDocument [] []) = false
  /\ hostInnerHTML (boxPage true) box = str "<span>hi</span>"
  /\ getStylesForTree box (boxPage true) = (Normal (str ".box{padding:10px}"), boxPage true)
  /\ getIframeContentForNode box (boxPage true)
     = (Normal
          (str "<!doctype html><html lang=" ++ [quote] ++ str "en" ++ [quote]
           ++ str "><head><style>.box{padding:10px}</style></head><body><span>hi</span></body></html>"),
        boxPage true)
  /\ countOccurrences (str ".box{padding:10px}")
       (standaloneDocument (str ".box{padding:10px}") (str "<span>hi</span>")) = 1%nat.
Proof.
  split.
  - rewrite getIframeContentForNode_run, getStylesForTree_run. simpl.
    destruct (stylesForTree w node); reflexivity.
  - do 7 (split; [vm_compute; reflexivity|]).
    split; [rewrite getStylesForTree_run; f_equal|].
    split; [rewrite getIframeContentForNode_run; f_equal|].
    vm_compute. reflexivity.
Qed.

(** ** The steps of [iframify] *)

Lemma createElement_run (tag : JSString) (w : World) :
  createElement tag w
  = (Normal (length (dom w)),
     withDom w (dom w ++ [newElement tag]) (CreateElement tag (length (dom w)))).
Proof. reflexivity. Qed.

Lemma setProperty_run (n : nat) (p : string) (v : JSString) (w : World) :
  setProperty n p v w = (Normal tt, snd (setProperty n p v w)).
Proof. reflexivity. Qed.

Lemma setTimeout_run (cb : Callback) (delay : Z) (w : World) :
  setTimeout cb delay w = (Normal tt, snd (setTimeout cb delay w)).
Proof. reflexivity. Qed.

Lemma replaceChild_run (parent newChild oldChild : nat) (w : World) :
  parentOf (dom w) oldChild = Some parent ->
  replaceChild parent newChild oldChild w
  = (Normal tt, snd (replaceChild parent newChild oldChild w)).
Proof.
  intros Hparent. unfold replaceChild.
  now rewrite bool_decide_eq_true_2 by exact Hparent.
Qed.

Lemma alter_last {A : Type} (f : A -> A) (l : list A) (x : A) :
  alter f (length l) (l ++ [x]) = l ++ [f x].
Proof.
  rewrite <- (Nat.add_0_r (length l)). now rewrite alter_app_r.
Qed.

Lemma sourcesAssigned_dom (w : World) (html encoded : JSString) :
  dom (sourcesAssigned w html encoded)
  = dom w ++ [frameWithSources (srcdocSupported w) html encoded].
Proof.
  unfold sourcesAssigned, srcdocAssigned, frameCreated, newFrame, frameWithSources. simpl.
  now rewrite !alter_last.
Qed.

Lemma propsAt_alter (f : NodeRec -> NodeRec) (i : nat) (d : Dom) (n : nat) :
  (forall r, propsOf (f r) = propsOf r) ->
  propsAt (alter f i d) n = propsAt d n.
Proof.
  intros Hf. unfold propsAt. destruct (decide (i = n)) as [->|Hne].
  - rewrite list_lookup_alter_eq. destruct (d !! n); simpl; [now rewrite Hf | reflexivity].
  - now rewrite list_lookup_alter_ne.
Qed.

Lemma propsAt_replaceChild (parent newChild oldChild : nat) (w : World) (n : nat) :
  propsAt (dom (snd (replaceChild parent newChild oldChild w))) n = propsAt (dom w) n.
Proof.
  unfold replaceChild. destruct (bool_decide _); [|reflexivity]. simpl.
  rewrite !propsAt_alter by reflexivity.
  destruct (parentOf (dom w) newChild); [|reflexivity].
  now rewrite propsAt_alter.
Qed.

Lemma hasProperty_props (n : nat) (p : string) (w w' : World) :
  srcdocSupported w' = srcdocSupported w ->
  propsAt (dom w') n = propsAt (dom w) n ->
  fst (hasProperty n p w') = fst (hasProperty n p w).
Proof.
  unfold hasProperty, gets, propsAt, hasPropertyIn. simpl. intros -> Hprops.
  destruct (dom w' !! n) as [r'|], (dom w !! n) as [r|]; simpl in *; try discriminate;
    [|reflexivity].
  injection Hprops as Hk _ He. now rewrite Hk, He.
Qed.

Lemma propertyOf_props (n : nat) (p : string) (w w' : World) :
  srcdocSupported w' = srcdocSupported w ->
  propsAt (dom w') n = propsAt (dom w) n ->
  propertyOf w' n p = propertyOf w n p.
Proof.
  unfold propertyOf, propsAt. intros -> Hprops.
  destruct (dom w' !! n) as [r'|], (dom w !! n) as [r|]; simpl in *; try discriminate;
    [|reflexivity].
  injection Hprops as Hk Ha He. now rewrite Hk, Ha, He.
Qed.

Lemma attributeOf_props (n : nat) (p : string) (w w' : World) :
  propsAt (dom w') n = propsAt (dom w) n ->
  attributeOf w' n p = attributeOf w n p.
Proof.
  unfold attributeOf, propsAt. intros Hprops.
  destruct (dom w' !! n) as [r'|], (dom w !! n) as [r|]; simpl in *; try discriminate;
    [|reflexivity].
  injection Hprops as _ Ha _. now rewrite Ha.
Qed.

Lemma frame_lookup (w : World) (html encoded : JSString) :
  dom (sourcesAssigned w html encoded) !! newFrame w
  = Some (frameWithSources (srcdocSupported w) html encoded).
Proof.
  rewrite sourcesAssigned_dom. unfold newFrame.
  rewrite lookup_app_r by lia. now rewrite Nat.sub_diag.
Qed.

(** Once [srcdoc] has been assigned, [srcdoc] is a property of the frame,
    on a host that supports it and on a host that does not. *)
Lemma frameWithSources_has_srcdoc (supported : bool) (html encoded : JSString) :
  hasPropertyIn supported "srcdoc" (frameWithSources supported html encoded) = true.
Proof. destruct supported; reflexivity. Qed.

Lemma frameWithSources_src (supported : bool) (html encoded : JSString) :
  assocGet "src" (attributes (frameWithSources supported html encoded))
  = Some (dataPrefix ++ encoded).
Proof. destruct supported; reflexivity. Qed.

Lemma hasProperty_fst (n : nat) (p : string) (w : World) :
  fst (hasProperty n p w)
  = Normal (from_option (hasPropertyIn (srcdocSupported w) p) false (dom w !! n)).
Proof. reflexivity. Qed.

Lemma hasProperty_after_replace (w : World) (node parent : nat) (html encoded : JSString) :
  hasProperty (newFrame w) "srcdoc" (nodeReplaced w node parent html encoded)
  = (Normal true, nodeReplaced w node parent html encoded).
Proof.
  assert (Hfst : fst (hasProperty (newFrame w) "srcdoc" (nodeReplaced w node parent html encoded))
                 = Normal true).
  { rewrite (hasProperty_props _ _ (sourcesAssigned w html encoded)).
    - rewrite hasProperty_fst, frame_lookup.
      change (srcdocSupported (sourcesAssigned w html encoded)) with (srcdocSupported w).
      simpl from_option. now rewrite frameWithSources_has_srcdoc.
    - unfold nodeReplaced, replaceChild. destruct (bool_decide _); reflexivity.
    - apply propsAt_replaceChild. }
  rewrite hasProperty_fst in Hfst. unfold hasProperty, gets. now rewrite <- Hfst.
Qed.

Lemma parentOf_sourcesAssigned (w : World) (html encoded : JSString) (n : nat) :
  parentOf (dom (sourcesAssigned w html encoded)) n = parentOf (dom w) n.
Proof.
  rewrite sourcesAssigned_dom. unfold parentOf.
  destruct (decide (n < length (dom w))%nat) as [Hlt|Hge].
  - now rewrite lookup_app_l by exact Hlt.
  - rewrite (lookup_ge_None_2 (dom w) n) by lia.
    rewrite lookup_app_r by lia.
    destruct (n - length (dom w))%nat as [|k] eqn:Hk; simpl.
    + destruct (srcdocSupported w); reflexivity.
    + reflexivity.
Qed.

Lemma childrenOf_sourcesAssigned (w : World) (html encoded : JSString) (n : nat) :
  childrenOf (dom (sourcesAssigned w html encoded)) n = childrenOf (dom w) n.
Proof.
  rewrite sourcesAssigned_dom. unfold childrenOf.
  destruct (decide (n < length (dom w))%nat) as [Hlt|Hge].
  - now rewrite lookup_app_l by exact Hlt.
  - rewrite (lookup_ge_None_2 (dom w) n) by lia.
    rewrite lookup_app_r by lia.
    destruct (n - length (dom w))%nat as [|k] eqn:Hk; simpl.
    + destruct (srcdocSupported w); reflexivity.
    + reflexivity.
Qed.

Lemma synthesized_run (w : World) (node : nat) :
  getIframeContentForNode node (frameCreated w) = (synthesized w node, frameCreated w).
Proof.
  unfold synthesized. now rewrite getIframeContentForNode_run.
Qed.

Lemma synthesized_run_normal (w : World) (node : nat) (html : JSString) :
  synthesized w node = Normal html ->
  getIframeContentForNode node (frameCreated w) = (Normal html, frameCreated w).
Proof. intros <-. apply synthesized_run. Qed.

(** The run of [iframify] up to the assignment of the sources. *)
Lemma iframify_sources (node : nat) (w : World) (html encoded : JSString) :
  synthesized w node = Normal html ->
  encodeURI html = Normal encoded ->
  iframify node w
  = (let* parent := getParentNode node in
     let* _ := match parent with
               | Some p => replaceChild p (newFrame w) node
               | None => throw TypeError
               end in
     let* supported := hasProperty (newFrame w) "srcdoc" in
     if supported then setTimeout (MeasureHeight (newFrame w)) 500 else ret tt)
      (sourcesAssigned w html encoded).
Proof.
  intros Hhtml Henc. unfold iframify.
  rewrite (bind_normal _ _ _ _ _ (createElement_run iframeTag w)).
  fold (newFrame w).
  change (withDom w (dom w ++ [newElement iframeTag]) (CreateElement iframeTag (newFrame w)))
    with (frameCreated w).
  rewrite (bind_normal _ _ _ _ html (synthesized_run_normal w node html Hhtml)).
  rewrite (bind_normal _ _ _ _ _ (setProperty_run _ _ _ _)).
  fold (srcdocAssigned w html).
  rewrite (bind_normal (liftCompletion (encodeURI html)) _ _ (srcdocAssigned w html) encoded)
    by (unfold liftCompletion; now rewrite Henc).
  rewrite (bind_normal _ _ _ _ _ (setProperty_run _ _ _ _)).
  reflexivity.
Qed.

Lemma getParentNode_run (node : nat) (w : World) :
  getParentNode node w = (Normal (parentOf (dom w) node), w).
Proof. reflexivity. Qed.

(** [iframify] completes when the document is synthesized, it can be
    encoded, and the node has a parent. *)
Lemma iframify_completes (node : nat) (w : World) (html encoded : JSString) (p : nat) :
  synthesized w node = Normal html ->
  encodeURI html = Normal encoded ->
  parentOf (dom w) node = Some p ->
  iframify node w = (Normal tt, measurementScheduled w node p html encoded).
Proof.
  intros Hhtml Henc Hparent.
  rewrite (iframify_sources node w html encoded Hhtml Henc).
  rewrite (bind_normal _ _ _ _ _ (getParentNode_run node _)).
  rewrite parentOf_sourcesAssigned, Hparent.
  rewrite (bind_normal _ _ _ _ _
             (replaceChild_run p (newFrame w) node (sourcesAssigned w html encoded)
                ltac:(now rewrite parentOf_sourcesAssigned))).
  fold (nodeReplaced w node p html encoded).
  rewrite (bind_normal _ _ _ _ _ (hasProperty_after_replace w node p html encoded)).
  reflexivity.
Qed.

Lemma iframify_no_document (node : nat) (w : World) (e : Exn) :
  synthesized w node = Throw e -> iframify node w = (Throw e, frameCreated w).
Proof.
  intros Hhtml. unfold iframify.
  rewrite (bind_normal _ _ _ _ _ (createElement_run iframeTag w)).
  change (withDom w (dom w ++ [newElement iframeTag]) (CreateElement iframeTag (length (dom w))))
    with (frameCreated w).
  apply bind_throw. rewrite synthesized_run. now rewrite Hhtml.
Qed.

Lemma iframify_not_encodable (node : nat) (w : World) (html : JSString) (e : Exn) :
  synthesized w node = Normal html ->
  encodeURI html = Throw e ->
  iframify node w = (Throw e, srcdocAssigned w html).
Proof.
  intros Hhtml Henc. unfold iframify.
  rewrite (bind_normal _ _ _ _ _ (createElement_run iframeTag w)).
  fold (newFrame w).
  change (withDom w (dom w ++ [newElement iframeTag]) (CreateElement iframeTag (newFrame w)))
    with (frameCreated w).
  rewrite (bind_normal _ _ _ _ html (synthesized_run_normal w node html Hhtml)).
  rewrite (bind_normal _ _ _ _ _ (setProperty_run _ _ _ _)).
  fold (srcdocAssigned w html).
  apply bind_throw. unfold liftCompletion. now rewrite Henc.
Qed.

Lemma iframify_no_parent (node : nat) (w : World) (html encoded : JSString) :
  synthesized w node = Normal html ->
  encodeURI html = Normal encoded ->
  parentOf (dom w) node = None ->
  iframify node w = (Throw TypeError, sourcesAssigned w html encoded).
Proof.
  intros Hhtml Henc Hparent.
  rewrite (iframify_sources node w html encoded Hhtml Henc).
  rewrite (bind_normal _ _ _ _ _ (getParentNode_run node _)).
  rewrite parentOf_sourcesAssigned, Hparent.
  reflexivity.
Qed.

(** A completed run of [iframify] went through every step. *)
Lemma iframify_inv (node : nat) (w w' : World) :
  iframify node w = (Normal tt, w') ->
  exists html encoded p,
    synthesized w node = Normal html
    /\ encodeURI html = Normal encoded
    /\ parentOf (dom w) node = Some p
    /\ w' = measurementScheduled w node p html encoded.
Proof.
  intros Hrun.
  destruct (synthesized w node) as [html|e] eqn:Hhtml.
  2: { rewrite (iframify_no_document node w e Hhtml) in Hrun. discriminate. }
  destruct (encodeURI html) as [encoded|e] eqn:Henc.
  2: { rewrite (iframify_not_encodable node w html e Hhtml Henc) in Hrun. discriminate. }
  destruct (parentOf (dom w) node) as [p|] eqn:Hparent.
  2: { rewrite (iframify_no_parent node w html encoded Hhtml Henc Hparent) in Hrun.
       discriminate. }
  rewrite (iframify_completes node w html encoded p Hhtml Henc Hparent) in Hrun.
  injection Hrun as <-. eauto 10.
Qed.

(** ** The page after a completed run *)

Lemma nodeReplaced_eq (w : World) (node p : nat) (html encoded : JSString) :
  parentOf (dom w) node = Some p ->
  nodeReplaced w node p html encoded
  = withDom (sourcesAssigned w html encoded)
      (alter (setParent (Some p)) (newFrame w)
         (alter (setParent None) node
            (alter (mapChildren (substitute node (newFrame w))) p
               (dom (sourcesAssigned w html encoded)))))
      (ReplaceChild p (newFrame w) node).
Proof.
  intros Hparent. unfold nodeReplaced, replaceChild.
  rewrite !parentOf_sourcesAssigned, Hparent.
  rewrite bool_decide_eq_true_2 by reflexivity.
  assert (Hnew : parentOf (dom w) (newFrame w) = None).
  { unfold parentOf, newFrame. now rewrite lookup_ge_None_2 by lia. }
  rewrite Hnew. reflexivity.
Qed.

Lemma parentOf_lt (d : Dom) (n p : nat) :
  parentOf d n = Some p -> (n < length d)%nat.
Proof.
  unfold parentOf. intros H. apply lookup_lt_is_Some.
  destruct (d !! n); [eauto | discriminate].
Qed.

Lemma dom_withDom (w : World) (d : Dom) (e : Effect) : dom (withDom w d e) = d.
Proof. reflexivity. Qed.

Lemma nodeReplaced_dom (w : World) (node p : nat) (html encoded : JSString) :
  parentOf (dom w) node = Some p ->
  (p < length (dom w))%nat ->
  dom (nodeReplaced w node p html encoded) = domAfterReplace w node p html encoded.
Proof.
  intros Hparent Hp. pose proof (parentOf_lt _ _ _ Hparent) as Hnode.
  rewrite (nodeReplaced_eq w node p html encoded Hparent).
  rewrite dom_withDom, sourcesAssigned_dom. unfold domAfterReplace.
  rewrite (alter_app_l _ (dom w)) by exact Hp.
  rewrite (alter_app_l _ (alter _ p (dom w))) by (now rewrite length_alter).
  unfold newFrame.
  replace (length (dom w))
    with (length (alter (setParent None) node
                    (alter (mapChildren (substitute node (length (dom w)))) p (dom w))) + 0)%nat
    at 1 by (rewrite !length_alter; lia).
  now rewrite alter_app_r.
Qed.

Lemma measurementScheduled_dom (w : World) (node p : nat) (html encoded : JSString) :
  dom (measurementScheduled w node p html encoded) = dom (nodeReplaced w node p html encoded).
Proof. reflexivity. Qed.

Lemma measurementScheduled_timers (w : World) (node p : nat) (html encoded : JSString) :
  parentOf (dom w) node = Some p ->
  timers (measurementScheduled w node p html encoded)
  = timers w ++ [MkTimer (MeasureHeight (newFrame w)) 500].
Proof.
  intros Hparent. unfold measurementScheduled.
  now rewrite (nodeReplaced_eq w node p html encoded Hparent).
Qed.

Lemma measurementScheduled_effects (w : World) (node p : nat) (html encoded : JSString) :
  parentOf (dom w) node = Some p ->
  effects (measurementScheduled w node p html encoded)
  = effects w ++ effectsOfIframify w node p html encoded.
Proof.
  intros Hparent. unfold measurementScheduled.
  rewrite (nodeReplaced_eq w node p html encoded Hparent).
  unfold effectsOfIframify. simpl. now rewrite <- !app_assoc.
Qed.

(** ** Consistent trees *)

Lemma wfDom_node (w : World) (n : nat) (r : NodeRec) :
  wfDom w = true -> dom w !! n = Some r -> wfNode (dom w) n r = true.
Proof.
  unfold wfDom. intros Hwf Hn. apply andb_true_iff in Hwf as [Hall _].
  rewrite forallb_forall in Hall.
  apply (Hall (n, r)). apply list_elem_of_In, list_elem_of_lookup.
  exists n. rewrite list_lookup_imap, Hn. reflexivity.
Qed.

Lemma wfDom_document (w : World) :
  wfDom w = true -> parentOf (dom w) (documentNode w) = None.
Proof.
  unfold wfDom. intros Hwf. apply andb_true_iff in Hwf as [_ Hdoc].
  now apply bool_decide_eq_true in Hdoc.
Qed.

Lemma wfNode_spec (d : Dom) (n : nat) (r : NodeRec) :
  wfNode d n r = true ->
  (forall p, parentNode r = Some p -> n ∈ childrenOf d p)
  /\ (forall c, c ∈ childNodes r -> parentOf d c = Some n)
  /\ NoDup (childNodes r)
  /\ is_Some (rootWithin (length d) d n).
Proof.
  unfold wfNode. intros H.
  apply andb_true_iff in H as [H Hroot].
  apply andb_true_iff in H as [H Hnodup].
  apply andb_true_iff in H as [Hparent Hchildren].
  split; [|split; [|split]].
  - intros p Hp. rewrite Hp in Hparent. now apply bool_decide_eq_true in Hparent.
  - intros c Hc. rewrite forallb_forall in Hchildren.
    apply list_elem_of_In in Hc. apply Hchildren in Hc.
    now apply bool_decide_eq_true in Hc.
  - now apply bool_decide_eq_true in Hnodup.
  - now apply bool_decide_eq_true in Hroot.
Qed.

Lemma rootWithin_self_parent (d : Dom) (n : nat) (fuel : nat) :
  parentOf d n = Some n -> rootWithin fuel d n = None.
Proof.
  intros Hself. induction fuel as [|f IH]; simpl.
  - reflexivity.
  - now rewrite Hself.
Qed.

Lemma wfDom_parent (w : World) (n p : nat) :
  wfDom w = true ->
  parentOf (dom w) n = Some p ->
  n ∈ childrenOf (dom w) p /\ (p < length (dom w))%nat /\ p <> n.
Proof.
  intros Hwf Hparent. unfold parentOf in Hparent.
  destruct (dom w !! n) as [r|] eqn:Hn; [|discriminate]. simpl in Hparent.
  destruct (wfNode_spec _ _ _ (wfDom_node w n r Hwf Hn)) as (Hin & _ & _ & Hroot).
  specialize (Hin p Hparent). split; [exact Hin|]. split.
  - unfold childrenOf in Hin. apply lookup_lt_is_Some.
    destruct (dom w !! p); [eauto|]. simpl in Hin. now apply elem_of_nil in Hin.
  - intros ->. rewrite rootWithin_self_parent in Hroot.
    + now destruct Hroot.
    + unfold parentOf. now rewrite Hn.
Qed.

Lemma wfDom_children (w : World) (n c : nat) :
  wfDom w = true ->
  c ∈ childrenOf (dom w) n ->
  parentOf (dom w) c = Some n.
Proof.
  intros Hwf Hc. unfold childrenOf in Hc.
  destruct (dom w !! n) as [r|] eqn:Hn; simpl in Hc; [|now apply elem_of_nil in Hc].
  destruct (wfNode_spec _ _ _ (wfDom_node w n r Hwf Hn)) as (_ & Hchildren & _).
  now apply Hchildren.
Qed.

Lemma wfDom_NoDup (w : World) (n : nat) :
  wfDom w = true -> NoDup (childrenOf (dom w) n).
Proof.
  intros Hwf. unfold childrenOf.
  destruct (dom w !! n) as [r|] eqn:Hn; simpl; [|constructor].
  now destruct (wfNode_spec _ _ _ (wfDom_node w n r Hwf Hn)) as (_ & _ & Hnodup & _).
Qed.

Lemma substitute_absent (old new : nat) (l : list nat) :
  old ∉ l -> substitute old new l = l.
Proof.
  intros Hout. unfold substitute. rewrite <- (map_id l) at 2.
  apply map_ext_in. intros c Hc. apply list_elem_of_In in Hc.
  rewrite bool_decide_eq_false_2; [reflexivity|]. intros ->. exact (Hout Hc).
Qed.

Lemma substitute_split (old new : nat) (before after : list nat) :
  old ∉ before -> old ∉ after ->
  substitute old new (before ++ old :: after) = before ++ new :: after.
Proof.
  intros Hb Ha. unfold substitute. rewrite map_app. simpl.
  rewrite bool_decide_eq_true_2 by reflexivity.
  fold (substitute old new before). fold (substitute old new after).
  now rewrite !substitute_absent.
Qed.

(** ** The bound on the walk of [querySelectorAll]

    On a consistent tree the bound of [descendantElements] is never hit:
    more fuel gives the same list, and a new element that is in no tree
    does not change it. *)

Lemma flat_map_ext_elem {A B : Type} (f g : A -> list B) (l : list A) :
  (forall x, x ∈ l -> f x = g x) -> flat_map f l = flat_map g l.
Proof.
  induction l as [|x r IH]; intros Hfg; simpl.
  - reflexivity.
  - rewrite (Hfg x) by left. rewrite IH; [reflexivity|].
    intros y Hy. apply Hfg. now right.
Qed.

Lemma rootWithin_more (d : Dom) (n r : nat) (fuel extra : nat) :
  rootWithin fuel d n = Some r -> rootWithin (fuel + extra) d n = Some r.
Proof.
  revert n. induction fuel as [|f IH]; intros n; simpl.
  - discriminate.
  - destruct (parentOf d n) as [p|]; [apply IH | trivial].
Qed.

Lemma wfDom_rooted (w : World) (n : nat) (fuel : nat) :
  wfDom w = true ->
  (n < length (dom w))%nat ->
  (length (dom w) <= fuel)%nat ->
  is_Some (rootWithin fuel (dom w) n).
Proof.
  intros Hwf Hn Hfuel.
  destruct (lookup_lt_is_Some_2 _ _ Hn) as [r Hr].
  destruct (wfNode_spec _ _ _ (wfDom_node w n r Hwf Hr)) as (_ & _ & _ & [root Hroot]).
  exists root. replace fuel with (length (dom w) + (fuel - length (dom w)))%nat by lia.
  now apply rootWithin_more.
Qed.

Lemma descendantElements_deep (w : World) (fuel : nat) (depth : nat) (n : nat) :
  wfDom w = true ->
  rootWithin depth (dom w) n = None ->
  (length (dom w) <= depth + fuel)%nat ->
  descendantElements fuel (dom w) n = descendantElements (S fuel) (dom w) n.
Proof.
  intros Hwf. revert depth n. induction fuel as [|f IH]; intros depth n Hdeep Hfuel.
  - destruct (decide (n < length (dom w))%nat) as [Hn|Hn].
    + destruct (wfDom_rooted w n depth Hwf Hn ltac:(lia)) as [r Hr]. congruence.
    + simpl. unfold childrenOf. now rewrite lookup_ge_None_2 by lia.
  - cbn [descendantElements]. apply flat_map_ext_elem. intros c Hc. f_equal.
    apply (IH (S depth)); [|lia].
    simpl. now rewrite (wfDom_children w n c Hwf Hc).
Qed.

Lemma descendantElements_enough (w : World) (n : nat) (extra : nat) :
  wfDom w = true ->
  descendantElements (length (dom w) + extra) (dom w) n
  = descendantElements (length (dom w)) (dom w) n.
Proof.
  intros Hwf. induction extra as [|k IH].
  - now rewrite Nat.add_0_r.
  - rewrite <- IH. rewrite Nat.add_succ_r. symmetry.
    apply (descendantElements_deep w _ 0); [exact Hwf | reflexivity | lia].
Qed.

Lemma descendantElements_new_element (w : World) (tag : JSString) (fuel : nat) (n : nat) :
  wfDom w = true ->
  descendantElements fuel (dom w ++ [newElement tag]) n = descendantElements fuel (dom w) n.
Proof.
  intros Hwf. revert n. induction fuel as [|f IH]; intros n.
  - reflexivity.
  - cbn [descendantElements].
    assert (Hchildren : childrenOf (dom w ++ [newElement tag]) n = childrenOf (dom w) n).
    { unfold childrenOf. destruct (decide (n < length (dom w))%nat) as [Hn|Hn].
      - now rewrite lookup_app_l by exact Hn.
      - rewrite (lookup_ge_None_2 (dom w)) by lia. rewrite lookup_app_r by lia.
        now destruct (n - length (dom w))%nat. }
    rewrite Hchildren. apply flat_map_ext_elem. intros c Hc.
    rewrite IH. f_equal.
    pose proof (parentOf_lt _ _ _ (wfDom_children w n c Hwf Hc)) as Hlt.
    unfold isElement, tagOf. now rewrite lookup_app_l by exact Hlt.
Qed.

Lemma scanSheets_same_host (w1 w2 : World) (node : nat) (sheets : list StyleSheet)
    (object : JSObject) :
  hostMatches w1 = hostMatches w2 ->
  scanSheets w1 node sheets object = scanSheets w2 node sheets object.
Proof.
  intros Hhost. apply scanSheets_local. intros selector. now rewrite Hhost.
Qed.

Lemma mergeOver_same_host (w1 w2 : World) (nodes : list nat) (tree : JSObject) :
  hostMatches w1 = hostMatches w2 ->
  styleSheets w1 = styleSheets w2 ->
  mergeOver w1 nodes tree = mergeOver w2 nodes tree.
Proof.
  intros Hhost Hsheets. revert tree. induction nodes as [|n rest IH]; intros tree; simpl.
  - reflexivity.
  - unfold rulesImpacting. rewrite Hsheets.
    rewrite (scanSheets_same_host w1 w2 n _ _ Hhost).
    destruct (scanSheets w2 n (styleSheets w2) []); [apply IH | reflexivity].
Qed.

(** On a consistent tree the document [iframify] computes, with the new
    frame already created, is the one [getIframeContentForNode] computes on
    the page as it was. *)
Lemma synthesized_consistent (w : World) (node : nat) :
  wfDom w = true ->
  synthesized w node = fst (getIframeContentForNode node w).
Proof.
  intros Hwf. unfold synthesized. rewrite !getIframeContentForNode_run. simpl fst.
  assert (Hsame : forall n,
    descendantElements (length (dom (frameCreated w))) (dom (frameCreated w)) n
    = descendantElements (length (dom w)) (dom w) n).
  { intros n. unfold frameCreated. simpl. rewrite length_app. simpl.
    rewrite descendantElements_new_element by exact Hwf.
    now apply descendantElements_enough. }
  unfold stylesForTree. rewrite Hsame. unfold rulesImpacting.
  rewrite (scanSheets_same_host (frameCreated w) w) by reflexivity.
  change (styleSheets (frameCreated w)) with (styleSheets w).
  destruct (scanSheets w node (styleSheets w) []) as [first|e]; [|reflexivity].
  now rewrite (mergeOver_same_host (frameCreated w) w).
Qed.

(** ** The tree after the replacement *)

Section AfterReplace.

Variables (w : World) (node p : nat) (html encoded : JSString).

Hypothesis node_stored : (node < length (dom w))%nat.
Hypothesis parent_stored : (p < length (dom w))%nat.
Hypothesis parent_differs : p <> node.

Lemma after_lookup_old (n : nat) :
  (n < length (dom w))%nat ->
  domAfterReplace w node p html encoded !! n
  = alter (setParent None) node
      (alter (mapChildren (substitute node (newFrame w))) p (dom w)) !! n.
Proof.
  intros Hn. unfold domAfterReplace.
  now rewrite lookup_app_l by (now rewrite !length_alter).
Qed.

Lemma after_lookup_frame :
  domAfterReplace w node p html encoded !! newFrame w
  = Some (setParent (Some p) (frameWithSources (srcdocSupported w) html encoded)).
Proof.
  unfold domAfterReplace, newFrame.
  rewrite lookup_app_r by (rewrite !length_alter; lia).
  rewrite !length_alter. now rewrite Nat.sub_diag.
Qed.

Lemma after_lookup_other (n : nat) :
  n <> p -> n <> node -> (n < length (dom w))%nat ->
  domAfterReplace w node p html encoded !! n = dom w !! n.
Proof.
  intros Hp Hnode Hn. rewrite after_lookup_old by exact Hn.
  rewrite list_lookup_alter_ne by congruence.
  now rewrite list_lookup_alter_ne by congruence.
Qed.

Lemma after_parent_node :
  parentOf (domAfterReplace w node p html encoded) node = None.
Proof.
  unfold parentOf. rewrite after_lookup_old by exact node_stored.
  rewrite list_lookup_alter_eq.
  destruct (alter _ p (dom w) !! node); reflexivity.
Qed.

Lemma after_parent_other (n : nat) :
  n <> node -> (n < length (dom w))%nat ->
  parentOf (domAfterReplace w node p html encoded) n = parentOf (dom w) n.
Proof.
  intros Hne Hn. unfold parentOf. rewrite after_lookup_old by exact Hn.
  rewrite list_lookup_alter_ne by congruence.
  destruct (decide (p = n)) as [->|Hpn].
  - rewrite list_lookup_alter_eq. destruct (dom w !! n); reflexivity.
  - now rewrite list_lookup_alter_ne by exact Hpn.
Qed.

Lemma after_children_node :
  childrenOf (domAfterReplace w node p html encoded) node = childrenOf (dom w) node.
Proof.
  unfold childrenOf. rewrite after_lookup_old by exact node_stored.
  rewrite list_lookup_alter_eq, list_lookup_alter_ne by exact parent_differs.
  destruct (dom w !! node); reflexivity.
Qed.

Lemma after_children_parent :
  childrenOf (domAfterReplace w node p html encoded) p
  = substitute node (newFrame w) (childrenOf (dom w) p).
Proof.
  unfold childrenOf. rewrite after_lookup_old by exact parent_stored.
  rewrite list_lookup_alter_ne by congruence.
  rewrite list_lookup_alter_eq.
  destruct (dom w !! p) eqn:Hp; [reflexivity|].
  apply lookup_ge_None in Hp. lia.
Qed.

Lemma after_parent_frame :
  parentOf (domAfterReplace w node p html encoded) (newFrame w) = Some p.
Proof. unfold parentOf. now rewrite after_lookup_frame. Qed.

Lemma after_children_frame :
  childrenOf (domAfterReplace w node p html encoded) (newFrame w) = [].
Proof.
  unfold childrenOf. rewrite after_lookup_frame. simpl.
  destruct (srcdocSupported w); reflexivity.
Qed.

Lemma after_tag_frame :
  tagOf (domAfterReplace w node p html encoded) (newFrame w) = Some iframeTag.
Proof.
  unfold tagOf. rewrite after_lookup_frame. simpl.
  destruct (srcdocSupported w); reflexivity.
Qed.

(** From a node whose parent is [node], the parent links end at [node]. *)
Lemma after_root_of_child (c : nat) (fuel : nat) :
  parentOf (domAfterReplace w node p html encoded) c = Some node ->
  rootWithin fuel (domAfterReplace w node p html encoded) c = None
  \/ rootWithin fuel (domAfterReplace w node p html encoded) c = Some node.
Proof.
  intros Hc. destruct fuel as [|[|f]]; simpl.
  - now left.
  - rewrite Hc. now left.
  - rewrite Hc, after_parent_node. now right.
Qed.

Lemma after_root_of_node (fuel : nat) :
  rootWithin fuel (domAfterReplace w node p html encoded) node = None
  \/ rootWithin fuel (domAfterReplace w node p html encoded) node = Some node.
Proof.
  destruct fuel as [|f]; simpl.
  - now left.
  - rewrite after_parent_node. now right.
Qed.

End AfterReplace.

Lemma run_completes {A : Type} (c : JS A) (w : World) (a : A) :
  fst (c w) = Normal a -> c w = (Normal a, snd (c w)).
Proof. destruct (c w) as [r w']. simpl. now intros ->. Qed.

Lemma measurementScheduled_documentNode (w : World) (node p : nat) (html encoded : JSString) :
  parentOf (dom w) node = Some p ->
  documentNode (measurementScheduled w node p html encoded) = documentNode w.
Proof.
  intros Hparent. unfold measurementScheduled.
  now rewrite (nodeReplaced_eq w node p html encoded Hparent).
Qed.

(** ** The replacement *)

(** C5.  On a page whose tree is consistent, a completed run of [iframify]
    on a node with parent [p] is one swap of one node: the only operation on
    the tree is the single [replaceChild]; afterwards the node has no
    parent, it still has its children, and neither it nor its children are
    in the tree of the document; the new frame is a child of [p] at the
    place the node had, between the same siblings; and every node other
    than [p], the node and the frame is exactly as it was. *)
Theorem iframify_replaces_node (w w' : World) (node p : nat) :
  wfDom w = true ->
  parentOf (dom w) node = Some p ->
  iframify node w = (Normal tt, w') ->
  exists before after,
    childrenOf (dom w) p = before ++ node :: after
    /\ childrenOf (dom w') p = before ++ newFrame w :: after
    /\ (node ∉ before) /\ (node ∉ after)
    /\ dom w !! newFrame w = None
    /\ tagOf (dom w') (newFrame w) = Some iframeTag
    /\ parentOf (dom w') (newFrame w) = Some p
    /\ childrenOf (dom w') (newFrame w) = []
    /\ parentOf (dom w') node = None
    /\ childrenOf (dom w') node = childrenOf (dom w) node
    /\ (forall fuel, connectedWithin fuel w' node = false)
    /\ (forall c fuel, c ∈ childrenOf (dom w) node -> connectedWithin fuel w' c = false)
    /\ (forall n, n <> p -> n <> node -> n <> newFrame w -> dom w' !! n = dom w !! n)
    /\ parentOf (dom w') p = parentOf (dom w) p
    /\ (exists html encoded,
           effects w'
           = effects w
             ++ [ CreateElement iframeTag (newFrame w);
                  SetProperty (newFrame w) "srcdoc" html;
                  SetProperty (newFrame w) "src" (dataPrefix ++ encoded);
                  ReplaceChild p (newFrame w) node;
                  SetTimeout (MeasureHeight (newFrame w)) 500 ]).
Proof.
  intros Hwf Hparent Hrun.
  destruct (iframify_inv node w w' Hrun) as (html & encoded & p' & Hhtml & Henc & Hp' & ->).
  assert (p' = p) as -> by congruence. clear Hp'.
  destruct (wfDom_parent w node p Hwf Hparent) as (Hin & Hp & Hne).
  pose proof (parentOf_lt _ _ _ Hparent) as Hnode.
  pose proof (wfDom_NoDup w p Hwf) as Hnodup.
  apply list_elem_of_split in Hin as (before & after & Hsplit).
  rewrite Hsplit in Hnodup.
  apply NoDup_app in Hnodup as (_ & Hbefore & Hafter).
  apply NoDup_cons in Hafter as [Hafter _].
  assert (Hb : node ∉ before).
  { intros Hb. apply (Hbefore node Hb). left. }
  assert (Hdoc : node <> documentNode w).
  { intros ->. rewrite (wfDom_document w Hwf) in Hparent. discriminate. }
  rewrite measurementScheduled_dom, (nodeReplaced_dom w node p html encoded Hparent Hp).
  exists before, after.
  split; [exact Hsplit|].
  split.
  { rewrite after_children_parent by assumption.
    rewrite Hsplit. now apply substitute_split. }
  split; [exact Hb|]. split; [exact Hafter|].
  split; [apply lookup_ge_None_2; unfold newFrame; lia|].
  split; [apply after_tag_frame; assumption|].
  split; [apply after_parent_frame; assumption|].
  split; [apply after_children_frame; assumption|].
  split; [apply after_parent_node; assumption|].
  split; [apply after_children_node; assumption|].
  split.
  { intros fuel. unfold connectedWithin. apply bool_decide_eq_false.
    rewrite measurementScheduled_dom, (nodeReplaced_dom w node p html encoded Hparent Hp).
    rewrite (measurementScheduled_documentNode w node p html encoded Hparent).
    destruct (after_root_of_node w node p html encoded Hnode fuel) as [-> | ->]; congruence. }
  split.
  { intros c fuel Hc. unfold connectedWithin. apply bool_decide_eq_false.
    rewrite measurementScheduled_dom, (nodeReplaced_dom w node p html encoded Hparent Hp).
    rewrite (measurementScheduled_documentNode w node p html encoded Hparent).
    pose proof (wfDom_children w node c Hwf Hc) as Hcp.
    assert (Hcn : c <> node) by (intros ->; congruence).
    assert (Hafterc : parentOf (domAfterReplace w node p html encoded) c = Some node).
    { rewrite after_parent_other; try assumption. now apply (parentOf_lt _ _ node). }
    destruct (after_root_of_child w node p html encoded Hnode c fuel Hafterc) as [-> | ->];
      congruence. }
  split.
  { intros n Hnp Hnn Hnf.
    destruct (decide (n < length (dom w))%nat) as [Hlt|Hge].
    - apply after_lookup_other; assumption.
    - rewrite (lookup_ge_None_2 (dom w)) by lia.
      apply lookup_ge_None_2. unfold domAfterReplace.
      rewrite length_app, !length_alter. simpl. unfold newFrame in Hnf. lia. }
  split.
  { apply after_parent_other; assumption. }
  exists html, encoded.
  now rewrite (measurementScheduled_effects w node p html encoded Hparent).
Qed.

(** On the page of the examples the box is the second of the three children
    of the body, and so is the frame afterwards. *)
Lemma iframify_replaces_node_witness :
  exists before after,
    childrenOf (dom (boxPage true)) 2 = before ++ box :: after
    /\ childrenOf (dom (snd (iframify box (boxPage true)))) 2
       = before ++ newFrame (boxPage true) :: after
    /\ parentOf (dom (snd (iframify box (boxPage true)))) box = None.
Proof.
  destruct (iframify_replaces_node (boxPage true) (snd (iframify box (boxPage true))) box 2)
    as (before & after & H1 & H2 & _ & _ & _ & _ & _ & _ & H3 & _).
  - vm_compute. reflexivity.
  - vm_compute. reflexivity.
  - apply run_completes. vm_compute. reflexivity.
  - exists before, after. repeat split; assumption.
Defined.

(** ** Percent-decoding undoes [encodeURI] *)

Ltac decide_tests :=
  repeat match goal with
         | |- context [?a <=? ?b] => destruct (Z.leb_spec a b); try lia
         | |- context [?a <? ?b] => destruct (Z.ltb_spec a b); try lia
         | |- context [?a =? ?b] => destruct (Z.eqb_spec a b); try lia
         end.

Lemma hexVal_hexDigit (d : Z) : 0 <= d < 16 -> hexVal (hexDigit d) = Some d.
Proof.
  intros Hd. unfold hexVal, hexDigit. decide_tests; simpl; f_equal; lia.
Qed.

Lemma percentDecodeOctets_escape (b : Z) (rest : JSString) :
  0 <= b < 256 ->
  percentDecodeOctets (escapeOctet b ++ rest) = b :: percentDecodeOctets rest.
Proof.
  intros Hb. unfold escapeOctet. simpl.
  rewrite !hexVal_hexDigit by (Z.div_mod_to_equations; lia).
  f_equal. Z.div_mod_to_equations. lia.
Qed.

Lemma percentDecodeOctets_escapes (bs : list Z) (rest : JSString) :
  Forall (fun b => 0 <= b < 256) bs ->
  percentDecodeOctets (escapeOctets bs ++ rest) = bs ++ percentDecodeOctets rest.
Proof.
  induction 1 as [|b bs Hb _ IH].
  - reflexivity.
  - change (escapeOctets (b :: bs)) with (escapeOctet b ++ escapeOctets bs).
    rewrite <- app_assoc. rewrite percentDecodeOctets_escape by exact Hb.
    now rewrite IH.
Qed.

Lemma unescaped_listed :
  Forall (fun c => 0 <= c < 128 /\ c <> 37) (uriMark ++ uriReserved).
Proof.
  assert (H : bool_decide (Forall (fun c => 0 <= c < 128 /\ c <> 37) (uriMark ++ uriReserved))
              = true) by (vm_compute; reflexivity).
  now apply bool_decide_eq_true in H.
Qed.

Lemma uriUnescaped_ascii (c : Z) :
  uriUnescaped c = true -> 0 <= c < 128 /\ c <> 37.
Proof.
  unfold uriUnescaped, isAlphaNum. intros H.
  pose proof unescaped_listed as Hall. rewrite Forall_forall in Hall.
  repeat (apply orb_true_iff in H as [H|H]).
  1-3: apply andb_true_iff in H as [H1 H2];
       apply Z.leb_le in H1; apply Z.leb_le in H2; lia.
  - apply bool_decide_eq_true in H. apply Hall. apply elem_of_app. now left.
  - apply bool_decide_eq_true in H. apply Hall. apply elem_of_app. now right.
  - apply bool_decide_eq_true in H. lia.
Qed.

Lemma utf8Octets_bytes (v : Z) :
  0 <= v <= 1114111 -> Forall (fun b => 0 <= b < 256) (utf8Octets v).
Proof.
  intros Hv. unfold utf8Octets.
  decide_tests; repeat constructor; Z.div_mod_to_equations; lia.
Qed.

Lemma utf8Decode_two (b0 b1 : Z) (bs : list Z) :
  194 <= b0 < 224 -> 128 <= b1 <= 191 ->
  utf8Decode (b0 :: b1 :: bs) = cons ((b0 - 192) * 64 + (b1 - 128)) <$> utf8Decode bs.
Proof.
  intros H0 H1. cbn [utf8Decode]. unfold isContinuation.
  decide_tests. reflexivity.
Qed.

Lemma utf8Decode_three (b0 b1 b2 : Z) (bs : list Z) :
  224 <= b0 < 240 -> 128 <= b1 <= 191 -> 128 <= b2 <= 191 ->
  2048 <= (b0 - 224) * 4096 + (b1 - 128) * 64 + (b2 - 128) ->
  ~ (55296 <= (b0 - 224) * 4096 + (b1 - 128) * 64 + (b2 - 128) <= 57343) ->
  utf8Decode (b0 :: b1 :: b2 :: bs)
  = cons ((b0 - 224) * 4096 + (b1 - 128) * 64 + (b2 - 128)) <$> utf8Decode bs.
Proof.
  intros H0 H1 H2 Hlow Hsur. cbn [utf8Decode]. unfold isContinuation.
  cbv zeta. decide_tests; reflexivity.
Qed.

Lemma utf8Decode_four (b0 b1 b2 b3 : Z) (bs : list Z) :
  240 <= b0 < 245 -> 128 <= b1 <= 191 -> 128 <= b2 <= 191 -> 128 <= b3 <= 191 ->
  65536 <= (b0 - 240) * 262144 + (b1 - 128) * 4096 + (b2 - 128) * 64 + (b3 - 128) <= 1114111 ->
  utf8Decode (b0 :: b1 :: b2 :: b3 :: bs)
  = cons ((b0 - 240) * 262144 + (b1 - 128) * 4096 + (b2 - 128) * 64 + (b3 - 128))
      <$> utf8Decode bs.
Proof.
  intros H0 H1 H2 H3 Hv. cbn [utf8Decode]. unfold isContinuation.
  cbv zeta. decide_tests; reflexivity.
Qed.

Lemma utf8Decode_octets (v : Z) (bs : list Z) :
  0 <= v < 55296 \/ 57344 <= v <= 1114111 ->
  utf8Decode (utf8Octets v ++ bs) = cons v <$> utf8Decode bs.
Proof.
  intros Hv. unfold utf8Octets.
  destruct (Z.ltb_spec v 128); [|destruct (Z.ltb_spec v 2048); [|destruct (Z.ltb_spec v 65536)]].
  - cbn [app utf8Decode]. decide_tests. reflexivity.
  - cbn [app]. rewrite utf8Decode_two by (Z.div_mod_to_equations; lia).
    do 2 f_equal. Z.div_mod_to_equations. lia.
  - cbn [app]. rewrite utf8Decode_three by (Z.div_mod_to_equations; lia).
    do 2 f_equal. Z.div_mod_to_equations. lia.
  - cbn [app]. rewrite utf8Decode_four by (Z.div_mod_to_equations; lia).
    do 2 f_equal. Z.div_mod_to_equations. lia.
Qed.

Lemma percentDecodeOctets_plain (c : Z) (rest : JSString) :
  c <> 37 -> percentDecodeOctets (c :: rest) = c :: percentDecodeOctets rest.
Proof.
  intros Hc. cbn [percentDecodeOctets]. unfold percent.
  destruct (Z.eqb_spec c 37); [contradiction | reflexivity].
Qed.

Lemma utf8Decode_ascii (c : Z) (bs : list Z) :
  0 <= c < 128 -> utf8Decode (c :: bs) = cons c <$> utf8Decode bs.
Proof.
  intros Hc. cbn [utf8Decode]. decide_tests. reflexivity.
Qed.

Lemma surrogate_range (c : Z) :
  (isHighSurrogate c = true <-> 55296 <= c <= 56319)
  /\ (isLowSurrogate c = true <-> 56320 <= c <= 57343).
Proof.
  unfold isHighSurrogate, isLowSurrogate.
  rewrite !andb_true_iff, !Z.leb_le. tauto.
Qed.

Lemma utf16Units_pair (hi lo : Z) :
  isHighSurrogate hi = true -> isLowSurrogate lo = true ->
  65536 <= codePointOfPair hi lo <= 1114111
  /\ utf16Units (codePointOfPair hi lo) = [hi; lo].
Proof.
  intros Hhi Hlo. apply surrogate_range in Hhi. apply surrogate_range in Hlo.
  unfold utf16Units, codePointOfPair. split; [lia|].
  destruct (Z.ltb_spec ((hi - 55296) * 1024 + (lo - 56320) + 65536) 65536); [lia|].
  f_equal; [|f_equal]; Z.div_mod_to_equations; lia.
Qed.

Lemma encodeURI_decodes_bounded (n : nat) (s : JSString) :
  (length s <= n)%nat ->
  wellFormedUTF16 s = true ->
  exists encoded points,
    encodeURI s = Normal encoded
    /\ utf8Decode (percentDecodeOctets encoded) = Some points
    /\ flat_map utf16Units points = s.
Proof.
  revert s. induction n as [|n IH]; intros s Hlen Hwf.
  { destruct s; [|simpl in Hlen; lia]. exists [], []. repeat split. }
  destruct s as [|c rest]; [exists [], []; repeat split|].
  simpl in Hlen. cbn [wellFormedUTF16] in Hwf. cbn [encodeURI].
  destruct (uriUnescaped c) eqn:Hun.
  - apply uriUnescaped_ascii in Hun as [Hascii Hpct].
    destruct (isHighSurrogate c) eqn:Hhi.
    { apply surrogate_range in Hhi. lia. }
    apply andb_true_iff in Hwf as [_ Hwf].
    destruct (IH rest ltac:(lia) Hwf) as (e & cps & -> & Hdec & Hunits).
    exists (c :: e), (c :: cps). split; [reflexivity|]. split.
    + rewrite percentDecodeOctets_plain by exact Hpct.
      rewrite utf8Decode_ascii by exact Hascii. now rewrite Hdec.
    + cbn [flat_map]. rewrite Hunits. unfold utf16Units.
      destruct (Z.ltb_spec c 65536); [reflexivity | lia].
  - destruct (isHighSurrogate c) eqn:Hhi.
    + destruct rest as [|d rest']; [discriminate|].
      apply andb_true_iff in Hwf as [Hlo Hwf]. rewrite Hlo.
      simpl in Hlen.
      destruct (IH rest' ltac:(lia) Hwf) as (e & cps & -> & Hdec & Hunits).
      destruct (utf16Units_pair c d Hhi Hlo) as [Hrange Hpair].
      exists (escapeOctets (utf8Octets (codePointOfPair c d)) ++ e),
             (codePointOfPair c d :: cps).
      split; [reflexivity|]. split.
      * rewrite percentDecodeOctets_escapes by (apply utf8Octets_bytes; lia).
        rewrite utf8Decode_octets by lia. now rewrite Hdec.
      * cbn [flat_map]. now rewrite Hpair, Hunits.
    + apply andb_true_iff in Hwf as [Hc Hwf].
      apply andb_true_iff in Hc as [Hunit Hlo].
      apply negb_true_iff in Hlo. rewrite Hlo.
      unfold isCodeUnit in Hunit. apply andb_true_iff in Hunit as [H0 H1].
      apply Z.leb_le in H0. apply Z.ltb_lt in H1.
      assert (Hscalar : 0 <= c < 55296 \/ 57344 <= c <= 1114111).
      { destruct (surrogate_range c) as [Hh Hl].
        destruct (Z.le_gt_cases 55296 c); [|lia].
        destruct (Z.le_gt_cases c 56319).
        - assert (isHighSurrogate c = true) by (apply Hh; lia). congruence.
        - destruct (Z.le_gt_cases c 57343); [|lia].
          assert (isLowSurrogate c = true) by (apply Hl; lia). congruence. }
      destruct (IH rest ltac:(lia) Hwf) as (e & cps & -> & Hdec & Hunits).
      exists (escapeOctets (utf8Octets c) ++ e), (c :: cps).
      split; [reflexivity|]. split.
      * rewrite percentDecodeOctets_escapes by (apply utf8Octets_bytes; lia).
        rewrite utf8Decode_octets by exact Hscalar. now rewrite Hdec.
      * cbn [flat_map]. rewrite Hunits. unfold utf16Units.
        destruct (Z.ltb_spec c 65536); [reflexivity | lia].
Qed.

(** On a string without unpaired surrogates [encodeURI] completes, and
    percent-decoding its result gives the string back. *)
Lemma percentDecode_encodeURI (s : JSString) :
  wellFormedUTF16 s = true ->
  exists encoded, encodeURI s = Normal encoded /\ percentDecode encoded = Some s.
Proof.
  intros Hwf.
  destruct (encodeURI_decodes_bounded (length s) s (le_n _) Hwf)
    as (e & cps & Henc & Hdec & Hunits).
  exists e. split; [exact Henc|].
  unfold percentDecode. rewrite Hdec. simpl. now rewrite Hunits.
Qed.

(** ** The sources of the frame *)

Lemma assocGet_assocSet {A : Type} (p : string) (v : A) (l : list (string * A)) :
  assocGet p (assocSet p v l) = Some v.
Proof.
  induction l as [|[q u] r IH]; simpl.
  - now rewrite bool_decide_eq_true_2.
  - destruct (bool_decide_reflect (q = p)) as [->|Hne]; simpl.
    + now rewrite bool_decide_eq_true_2.
    + now rewrite bool_decide_eq_false_2.
Qed.

Lemma frameWithSources_srcdoc (supported : bool) (html encoded : JSString) :
  (if reflected supported (kind (frameWithSources supported html encoded)) "srcdoc"
   then assocGet "srcdoc" (attributes (frameWithSources supported html encoded))
   else assocGet "srcdoc" (expandos (frameWithSources supported html encoded)))
  = Some html.
Proof. destruct supported; reflexivity. Qed.

Lemma frameWithSources_reflects_src (supported : bool) (html encoded : JSString) :
  reflected supported (kind (frameWithSources supported html encoded)) "src" = true.
Proof. destruct supported; reflexivity. Qed.

Lemma srcdocSupported_sourcesAssigned (w : World) (html encoded : JSString) :
  srcdocSupported (sourcesAssigned w html encoded) = srcdocSupported w.
Proof. reflexivity. Qed.

Lemma sourcesAssigned_effects (w : World) (html encoded : JSString) :
  effects (sourcesAssigned w html encoded)
  = effects w
    ++ [ CreateElement iframeTag (newFrame w);
         SetProperty (newFrame w) "srcdoc" html;
         SetProperty (newFrame w) "src" (dataPrefix ++ encoded) ].
Proof.
  unfold sourcesAssigned, srcdocAssigned, frameCreated, newFrame. simpl.
  now rewrite <- !app_assoc.
Qed.

Lemma sourcesAssigned_src (w : World) (html encoded : JSString) :
  attributeOf (sourcesAssigned w html encoded) (newFrame w) "src" = Some (dataPrefix ++ encoded)
  /\ propertyOf (sourcesAssigned w html encoded) (newFrame w) "src"
     = Some (dataPrefix ++ encoded).
Proof.
  unfold attributeOf, propertyOf. rewrite frame_lookup, srcdocSupported_sourcesAssigned.
  simpl. rewrite frameWithSources_reflects_src. split; apply frameWithSources_src.
Qed.

Lemma sourcesAssigned_srcdoc (w : World) (html encoded : JSString) :
  propertyOf (sourcesAssigned w html encoded) (newFrame w) "srcdoc" = Some html.
Proof.
  unfold propertyOf. rewrite frame_lookup, srcdocSupported_sourcesAssigned.
  apply frameWithSources_srcdoc.
Qed.

Lemma measurementScheduled_props (w : World) (node p : nat) (html encoded : JSString) (n : nat) :
  srcdocSupported (measurementScheduled w node p html encoded) = srcdocSupported w
  /\ propsAt (dom (measurementScheduled w node p html encoded)) n
     = propsAt (dom (sourcesAssigned w html encoded)) n.
Proof.
  split.
  - unfold measurementScheduled, nodeReplaced, replaceChild.
    destruct (bool_decide _); reflexivity.
  - rewrite measurementScheduled_dom. apply propsAt_replaceChild.
Qed.

(** Whatever the host supports and whether or not the node has a parent,
    the run of [iframify] leaves the data URI in the [src] of the frame once
    the document is synthesized and encoded. *)
Lemma iframify_src (w : World) (node : nat) (html encoded : JSString) :
  synthesized w node = Normal html ->
  encodeURI html = Normal encoded ->
  attributeOf (snd (iframify node w)) (newFrame w) "src" = Some (dataPrefix ++ encoded)
  /\ propertyOf (snd (iframify node w)) (newFrame w) "src" = Some (dataPrefix ++ encoded)
  /\ propertyOf (snd (iframify node w)) (newFrame w) "srcdoc" = Some html.
Proof.
  intros Hhtml Henc.
  destruct (sourcesAssigned_src w html encoded) as [Hattr Hprop].
  pose proof (sourcesAssigned_srcdoc w html encoded) as Hdoc.
  destruct (parentOf (dom w) node) as [p|] eqn:Hparent.
  - rewrite (iframify_completes node w html encoded p Hhtml Henc Hparent). simpl snd.
    destruct (measurementScheduled_props w node p html encoded (newFrame w)) as [Hs Hp].
    rewrite (attributeOf_props _ _ (sourcesAssigned w html encoded)) by exact Hp.
    rewrite (propertyOf_props _ "src" (sourcesAssigned w html encoded)) by assumption.
    rewrite (propertyOf_props _ "srcdoc" (sourcesAssigned w html encoded)) by assumption.
    repeat split; assumption.
  - rewrite (iframify_no_parent node w html encoded Hhtml Henc Hparent). simpl snd.
    repeat split; assumption.
Qed.

(** C6, as the script has it.  When the document synthesized for the node
    has no unpaired surrogate, [encodeURI] completes on it, the run of
    [iframify] sets the [src] of the frame to
    [data:text/html;charset=utf-8,] followed by the encoded document, on a
    host with [srcdoc] and on a host without it, and percent-decoding the
    encoded part gives exactly the synthesized document. *)
Theorem iframify_sets_data_uri (w : World) (node : nat) (html : JSString) :
  synthesized w node = Normal html ->
  wellFormedUTF16 html = true ->
  exists encoded,
    encodeURI html = Normal encoded
    /\ percentDecode encoded = Some html
    /\ attributeOf (snd (iframify node w)) (newFrame w) "src"
       = Some (str "data:text/html;charset=utf-8," ++ encoded)
    /\ propertyOf (snd (iframify node w)) (newFrame w) "src"
       = Some (str "data:text/html;charset=utf-8," ++ encoded).
Proof.
  intros Hhtml Hwf.
  destruct (percentDecode_encodeURI html Hwf) as (encoded & Henc & Hdec).
  exists encoded. split; [exact Henc|]. split; [exact Hdec|].
  destruct (iframify_src w node html encoded Hhtml Henc) as (Ha & Hp & _).
  split; assumption.
Qed.

(** The run on the box of the example page, on a host without [srcdoc]. *)
Lemma iframify_sets_data_uri_witness :
  exists encoded,
    encodeURI (standaloneDocument (str ".box{padding:10px}") (str "<span>hi</span>"))
    = Normal encoded
    /\ percentDecode encoded
       = Some (standaloneDocument (str ".box{padding:10px}") (str "<span>hi</span>"))
    /\ attributeOf (snd (iframify box (boxPage false))) (newFrame (boxPage false)) "src"
       = Some (str "data:text/html;charset=utf-8," ++ encoded)
    /\ propertyOf (snd (iframify box (boxPage false))) (newFrame (boxPage false)) "src"
       = Some (str "data:text/html;charset=utf-8," ++ encoded).
Proof.
  apply (iframify_sets_data_uri (boxPage false) box).
  - vm_compute. reflexivity.
  - vm_compute. reflexivity.
Defined.

(** C6 as stated fails on a node whose markup has an unpaired surrogate:
    the document is synthesized, [encodeURI] throws a URIError on it, and
    the run of [iframify] ends there, with no [src] on the frame and the
    node still in place. *)
Lemma iframify_unpaired_surrogate_no_src :
  exists html,
    synthesized surrogatePage box = Normal html
    /\ wellFormedUTF16 html = false
    /\ encodeURI html = Throw URIError
    /\ fst (iframify box surrogatePage) = Throw URIError
    /\ attributeOf (snd (iframify box surrogatePage)) (newFrame surrogatePage) "src" = None
    /\ propertyOf (snd (iframify box surrogatePage)) (newFrame surrogatePage) "src" = None
    /\ parentOf (dom (snd (iframify box surrogatePage))) box = Some 2%nat.
Proof.
  eexists. split; [vm_compute; reflexivity|].
  repeat split; vm_compute; reflexivity.
Qed.

Lemma encodeURI_throws_bounded (n : nat) (s : JSString) :
  (length s <= n)%nat ->
  forallb isCodeUnit s = true ->
  wellFormedUTF16 s = false ->
  encodeURI s = Throw URIError.
Proof.
  revert s. induction n as [|n IH]; intros s Hlen Hunits Hwf.
  { destruct s; [discriminate | simpl in Hlen; lia]. }
  destruct s as [|c rest]; [discriminate|].
  simpl in Hlen. cbn [forallb] in Hunits. apply andb_true_iff in Hunits as [Hc Hunits].
  cbn [wellFormedUTF16] in Hwf. cbn [encodeURI].
  destruct (uriUnescaped c) eqn:Hun.
  - apply uriUnescaped_ascii in Hun as [Hascii _].
    destruct (isHighSurrogate c) eqn:Hhi.
    { apply surrogate_range in Hhi. lia. }
    destruct (isLowSurrogate c) eqn:Hlo.
    { apply surrogate_range in Hlo. lia. }
    rewrite Hc in Hwf. simpl in Hwf.
    now rewrite (IH rest ltac:(lia) Hunits Hwf).
  - destruct (isHighSurrogate c) eqn:Hhi.
    + destruct rest as [|d rest']; [reflexivity|].
      destruct (isLowSurrogate d) eqn:Hlo; [|reflexivity].
      simpl in Hwf, Hlen. cbn [forallb] in Hunits.
      apply andb_true_iff in Hunits as [_ Hunits].
      now rewrite (IH rest' ltac:(lia) Hunits Hwf).
    + destruct (isLowSurrogate c) eqn:Hlo; [reflexivity|].
      rewrite Hc in Hwf. simpl in Hwf.
      now rewrite (IH rest ltac:(lia) Hunits Hwf).
Qed.

(** On a string with an unpaired surrogate [encodeURI] throws. *)
Lemma encodeURI_unpaired_surrogate (s : JSString) :
  forallb isCodeUnit s = true ->
  wellFormedUTF16 s = false ->
  encodeURI s = Throw URIError.
Proof. apply (encodeURI_throws_bounded (length s)). lia. Qed.

(** When the synthesized document has an unpaired surrogate, [iframify]
    throws after the assignment of [srcdoc]: the frame has no [src], and the
    tree is as it was. *)
Lemma iframify_unpaired_surrogate (w : World) (node : nat) (html : JSString) :
  synthesized w node = Normal html ->
  forallb isCodeUnit html = true ->
  wellFormedUTF16 html = false ->
  iframify node w = (Throw URIError, srcdocAssigned w html)
  /\ attributeOf (srcdocAssigned w html) (newFrame w) "src" = None
  /\ propertyOf (srcdocAssigned w html) (newFrame w) "src" = None
  /\ (forall n, (n < length (dom w))%nat -> dom (srcdocAssigned w html) !! n = dom w !! n).
Proof.
  intros Hhtml Hunits Hwf.
  pose proof (encodeURI_unpaired_surrogate html Hunits Hwf) as Henc.
  split; [now apply iframify_not_encodable|].
  assert (Hdom : dom (srcdocAssigned w html)
                 = dom w ++ [assignProperty (srcdocSupported w) "srcdoc" html
                               (newElement iframeTag)]).
  { unfold srcdocAssigned, frameCreated, newFrame. simpl. now rewrite alter_last. }
  assert (Hframe : dom (srcdocAssigned w html) !! newFrame w
                   = Some (assignProperty (srcdocSupported w) "srcdoc" html
                             (newElement iframeTag))).
  { rewrite Hdom. unfold newFrame. rewrite lookup_app_r by lia. now rewrite Nat.sub_diag. }
  split; [|split].
  - unfold attributeOf. rewrite Hframe. simpl. now destruct (srcdocSupported w).
  - unfold propertyOf. rewrite Hframe.
    change (srcdocSupported (srcdocAssigned w html)) with (srcdocSupported w).
    now destruct (srcdocSupported w).
  - intros n Hn. rewrite Hdom. now apply lookup_app_l.
Qed.

(** ** The deferred measurement *)

Lemma mathMax_five (a b c d e : Z) :
  mathMax a [b; c; d; e] = Z.max a (Z.max b (Z.max c (Z.max d e))).
Proof. unfold mathMax. simpl. lia. Qed.

Lemma tagOf_kind (d : Dom) (n : nat) (t : JSString) :
  tagOf d n = Some t -> exists r, d !! n = Some r /\ kind r = ElementNode t.
Proof.
  unfold tagOf. destruct (d !! n) as [r|]; [|discriminate].
  destruct (kind r) eqn:Hk; try discriminate. intros [= ->]. eauto.
Qed.

Lemma setProperty_reflected (n : nat) (p : string) (v : JSString) (w : World) (r : NodeRec) :
  dom w !! n = Some r ->
  reflected (srcdocSupported w) (kind r) p = true ->
  propertyOf (snd (setProperty n p v w)) n p = Some v
  /\ attributeOf (snd (setProperty n p v w)) n p = Some v
  /\ timers (snd (setProperty n p v w)) = timers w
  /\ effects (snd (setProperty n p v w)) = effects w ++ [SetProperty n p v]
  /\ (forall m, m <> n -> dom (snd (setProperty n p v w)) !! m = dom w !! m).
Proof.
  intros Hr Hreflected.
  assert (Hlookup : dom (snd (setProperty n p v w)) !! n
                    = Some (assignProperty (srcdocSupported w) p v r)).
  { unfold setProperty. simpl. now rewrite list_lookup_alter_eq, Hr. }
  assert (Hkind : kind (assignProperty (srcdocSupported w) p v r) = kind r).
  { unfold assignProperty. now destruct (reflected _ _ _). }
  assert (Hattrs : assocGet p (attributes (assignProperty (srcdocSupported w) p v r)) = Some v).
  { unfold assignProperty. rewrite Hreflected. simpl. apply assocGet_assocSet. }
  split; [|split; [|split; [|split]]].
  - unfold propertyOf. rewrite Hlookup.
    change (srcdocSupported (snd (setProperty n p v w))) with (srcdocSupported w).
    now rewrite Hkind, Hreflected.
  - unfold attributeOf. rewrite Hlookup. exact Hattrs.
  - reflexivity.
  - reflexivity.
  - intros m Hm. unfold setProperty. simpl. now rewrite list_lookup_alter_ne by congruence.
Qed.

(** The callback on a frame whose document can be read. *)
Lemma measureHeight_run (iframe : nat) (later : World) (html body : ElementMetrics) :
  tagOf (dom later) iframe = Some iframeTag ->
  hostFrameWindow later iframe = ReadableWindow (Some html) (Some body) ->
  exists final,
    runCallback (MeasureHeight iframe) later = (Normal tt, final)
    /\ propertyOf final iframe "height"
       = Some (numberToString (measuredHeight html body) ++ str "px")
    /\ attributeOf final iframe "height"
       = Some (numberToString (measuredHeight html body) ++ str "px")
    /\ timers final = timers later
    /\ effects final
       = effects later
         ++ [SetProperty iframe "height" (numberToString (measuredHeight html body) ++ str "px")]
    /\ (forall n, n <> iframe -> dom final !! n = dom later !! n).
Proof.
  intros Htag Hwindow.
  destruct (tagOf_kind _ _ _ Htag) as (r & Hr & Hk).
  exists (snd (setProperty iframe "height"
                 (numberToString (measuredHeight html body) ++ str "px") later)).
  split.
  - unfold runCallback, measureHeight. rewrite bind_gets, Hwindow.
    rewrite mathMax_five. reflexivity.
  - apply (setProperty_reflected iframe "height" _ later r Hr).
    rewrite Hk. reflexivity.
Qed.

(** Whatever it finds, the callback schedules nothing. *)
Lemma measureHeight_timers (iframe : nat) (later : World) :
  timers (snd (runCallback (MeasureHeight iframe) later)) = timers later.
Proof.
  unfold runCallback, measureHeight. rewrite bind_gets.
  destruct (hostFrameWindow later iframe) as [| |[html|] [body|]]; reflexivity.
Qed.

(** C7.  On a host that supports [srcdoc], a completed run of [iframify]
    has scheduled one callback, with a delay of 500, and nothing else: the
    timers of the page are the ones it had and that one.  Run on a page
    where the document of the frame can be read, the callback sets the
    height of the frame to the largest of the body's [scrollHeight] and
    [offsetHeight] and the root element's [clientHeight], [scrollHeight]
    and [offsetHeight], followed by [px], and changes nothing else; and
    on whatever page it runs, the callback schedules nothing. *)
Theorem iframify_schedules_measurement (w w' : World) (node : nat) :
  srcdocSupported w = true ->
  iframify node w = (Normal tt, w') ->
  timers w' = timers w ++ [MkTimer (MeasureHeight (newFrame w)) 500]
  /\ (exists p html encoded,
         effects w'
         = effects w
           ++ [ CreateElement iframeTag (newFrame w);
                SetProperty (newFrame w) "srcdoc" html;
                SetProperty (newFrame w) "src" (dataPrefix ++ encoded);
                ReplaceChild p (newFrame w) node;
                SetTimeout (MeasureHeight (newFrame w)) 500 ])
  /\ tagOf (dom w') (newFrame w) = Some iframeTag
  /\ (forall (later : World) (html body : ElementMetrics),
         tagOf (dom later) (newFrame w) = Some iframeTag ->
         hostFrameWindow later (newFrame w) = ReadableWindow (Some html) (Some body) ->
         exists final,
           runCallback (MeasureHeight (newFrame w)) later = (Normal tt, final)
           /\ propertyOf final (newFrame w) "height"
              = Some (numberToString
                        (Z.max (scrollHeight body)
                           (Z.max (offsetHeight body)
                              (Z.max (clientHeight html)
                                 (Z.max (scrollHeight html) (offsetHeight html)))))
                      ++ str "px")
           /\ timers final = timers later
           /\ effects final
              = effects later
                ++ [SetProperty (newFrame w) "height"
                      (numberToString (measuredHeight html body) ++ str "px")]
           /\ (forall n, n <> newFrame w -> dom final !! n = dom later !! n))
  /\ (forall later : World,
         timers (snd (runCallback (MeasureHeight (newFrame w)) later)) = timers later).
Proof.
  intros Hsupported Hrun.
  destruct (iframify_inv node w w' Hrun) as (html & encoded & p & Hhtml & Henc & Hparent & ->).
  split; [now apply measurementScheduled_timers|].
  split.
  { exists p, html, encoded. now rewrite measurementScheduled_effects. }
  split.
  { destruct (measurementScheduled_props w node p html encoded (newFrame w)) as [_ Hprops].
    unfold propsAt in Hprops. rewrite frame_lookup in Hprops. unfold tagOf.
    destruct (dom (measurementScheduled w node p html encoded) !! newFrame w) as [r|];
      [|discriminate].
    simpl in Hprops. injection Hprops as -> _ _. now rewrite Hsupported. }
  split.
  { intros later mhtml mbody Htag Hwindow.
    destruct (measureHeight_run (newFrame w) later mhtml mbody Htag Hwindow)
      as (final & Hfinal & Hheight & _ & Htimers & Heffects & Hdom).
    exists final. repeat split; assumption. }
  intros later. apply measureHeight_timers.
Qed.

(** The run on the box of the example page, on a host with [srcdoc]. *)
Lemma iframify_schedules_measurement_witness :
  timers (snd (iframify box (boxPage true)))
  = timers (boxPage true) ++ [MkTimer (MeasureHeight (newFrame (boxPage true))) 500]
  /\ exists final,
      runCallback (MeasureHeight (newFrame (boxPage true))) (renderedPage true)
      = (Normal tt, final)
      /\ propertyOf final (newFrame (boxPage true)) "height" = Some (str "150px").
Proof.
  destruct (iframify_schedules_measurement
              (boxPage true) (snd (iframify box (boxPage true))) box)
    as (Htimers & _ & _ & Hcallback & _).
  - reflexivity.
  - apply run_completes. vm_compute. reflexivity.
  - split; [exact Htimers|].
    destruct (Hcallback (renderedPage true)
                {| scrollHeight := 120; offsetHeight := 118; clientHeight := 150 |}
                {| scrollHeight := 96; offsetHeight := 96; clientHeight := 96 |})
      as (final & Hfinal & Hheight & _).
    + vm_compute. reflexivity.
    + reflexivity.
    + exists final. split; [exact Hfinal | exact Hheight].
Defined.

(** On a host without [srcdoc] the assignment of line 109 has made [srcdoc]
    an own property of the frame, the test of line 117 finds it, and the
    measurement is scheduled all the same. *)
Lemma iframify_schedules_without_srcdoc (w w' : World) (node : nat) :
  srcdocSupported w = false ->
  iframify node w = (Normal tt, w') ->
  timers w' = timers w ++ [MkTimer (MeasureHeight (newFrame w)) 500].
Proof.
  intros _ Hrun.
  destruct (iframify_inv node w w' Hrun) as (html & encoded & p & _ & _ & Hparent & ->).
  now apply measurementScheduled_timers.
Qed.

(** C8 fails on the script.  On the example page with a host that has no
    [srcdoc], the run of [iframify] on the box completes with the
    measurement scheduled, and when the callback runs on the rendered page
    it sets the height of the frame, which had none. *)
Theorem iframify_measures_without_srcdoc :
  srcdocSupported (boxPage false) = false
  /\ fst (iframify box (boxPage false)) = Normal tt
  /\ timers (boxPage false) = []
  /\ timers (snd (iframify box (boxPage false))) = [MkTimer (MeasureHeight 8%nat) 500]
  /\ propertyOf (snd (iframify box (boxPage false))) 8%nat "height" = None
  /\ fst (runCallback (MeasureHeight 8%nat) (renderedPage false)) = Normal tt
  /\ propertyOf (snd (runCallback (MeasureHeight 8%nat) (renderedPage false))) 8%nat "height"
     = Some (str "150px").
Proof. repeat split; vm_compute; reflexivity. Qed.

(** ** The order of the steps *)

(** C9.  When the document is synthesized and encoded, the run of
    [iframify] first creates the frame, assigns [srcdoc] and then [src],
    with no test before either assignment, on a host with [srcdoc] and on a
    host without it, and the tree is as it was at that point; what follows
    is the replacement and then the test of [srcdoc in iframe], on which
    only the call of [setTimeout] depends. *)
Theorem iframify_order_of_effects (w : World) (node : nat) (html encoded : JSString) :
  synthesized w node = Normal html ->
  encodeURI html = Normal encoded ->
  iframify node w
  = (let* parent := getParentNode node in
     let* _ := match parent with
               | Some p => replaceChild p (newFrame w) node
               | None => throw TypeError
               end in
     let* supported := hasProperty (newFrame w) "srcdoc" in
     if supported then setTimeout (MeasureHeight (newFrame w)) 500 else ret tt)
      (sourcesAssigned w html encoded)
  /\ effects (sourcesAssigned w html encoded)
     = effects w
       ++ [ CreateElement iframeTag (newFrame w);
            SetProperty (newFrame w) "srcdoc" html;
            SetProperty (newFrame w) "src" (dataPrefix ++ encoded) ]
  /\ propertyOf (sourcesAssigned w html encoded) (newFrame w) "srcdoc" = Some html
  /\ propertyOf (sourcesAssigned w html encoded) (newFrame w) "src"
     = Some (dataPrefix ++ encoded)
  /\ (forall n, parentOf (dom (sourcesAssigned w html encoded)) n = parentOf (dom w) n)
  /\ (forall n, childrenOf (dom (sourcesAssigned w html encoded)) n = childrenOf (dom w) n)
  /\ timers (sourcesAssigned w html encoded) = timers w
  /\ effects (snd (iframify node w))
     = effects (sourcesAssigned w html encoded)
       ++ match parentOf (dom w) node with
          | Some p =>
              [ ReplaceChild p (newFrame w) node;
                SetTimeout (MeasureHeight (newFrame w)) 500 ]
          | None => []
          end
  /\ propertyOf (snd (iframify node w)) (newFrame w) "srcdoc" = Some html
  /\ propertyOf (snd (iframify node w)) (newFrame w) "src" = Some (dataPrefix ++ encoded).
Proof.
  intros Hhtml Henc.
  split; [now apply iframify_sources|].
  split; [apply sourcesAssigned_effects|].
  split; [apply sourcesAssigned_srcdoc|].
  split; [apply sourcesAssigned_src|].
  split; [intros n; apply parentOf_sourcesAssigned|].
  split; [intros n; apply childrenOf_sourcesAssigned|].
  split; [reflexivity|].
  destruct (iframify_src w node html encoded Hhtml Henc) as (_ & Hsrc & Hsrcdoc).
  split; [|split; assumption].
  destruct (parentOf (dom w) node) as [p|] eqn:Hparent.
  - rewrite (iframify_completes node w html encoded p Hhtml Henc Hparent). simpl snd.
    rewrite (measurementScheduled_effects w node p html encoded Hparent).
    rewrite sourcesAssigned_effects. unfold effectsOfIframify.
    now rewrite <- app_assoc.
  - rewrite (iframify_no_parent node w html encoded Hhtml Henc Hparent). simpl snd.
    now rewrite app_nil_r.
Qed.

(** The run on the box of the example page, on a host without [srcdoc]. *)
Lemma iframify_order_of_effects_witness :
  effects (snd (iframify box (boxPage false)))
  = effects (sourcesAssigned (boxPage false)
               (standaloneDocument (str ".box{padding:10px}") (str "<span>hi</span>"))
               (str "%3C!doctype%20html%3E%3Chtml%20lang=%22en%22%3E%3Chead%3E%3Cstyle%3E.box%7Bpadding:10px%7D%3C/style%3E%3C/head%3E%3Cbody%3E%3Cspan%3Ehi%3C/span%3E%3C/body%3E%3C/html%3E"))
    ++ [ ReplaceChild 2 (newFrame (boxPage false)) box;
         SetTimeout (MeasureHeight (newFrame (boxPage false))) 500 ].
Proof.
  destruct (iframify_order_of_effects (boxPage false) box
              (standaloneDocument (str ".box{padding:10px}") (str "<span>hi</span>"))
              (str "%3C!doctype%20html%3E%3Chtml%20lang=%22en%22%3E%3Chead%3E%3Cstyle%3E.box%7Bpadding:10px%7D%3C/style%3E%3C/head%3E%3Cbody%3E%3Cspan%3Ehi%3C/span%3E%3C/body%3E%3C/html%3E"))
    as (_ & _ & _ & _ & _ & _ & _ & Heffects & _).
  - vm_compute. reflexivity.
  - vm_compute. reflexivity.
  - exact Heffects.
Defined.

(** * Further properties of the script *)

(** ** The object of [getRulesImpactingNode] *)

Lemma objectSet_values_true (o : JSObject) (k : JSString) :
  (forall kv, kv ∈ o -> snd kv = true) ->
  forall kv, kv ∈ objectSet o k true -> snd kv = true.
Proof.
  intros Ho kv. unfold objectSet.
  destruct (bool_decide (k = protoKey)); [apply Ho|].
  destruct (hasOwn o k).
  - intros Hin. apply list_elem_of_fmap in Hin as (kv' & -> & Hin').
    destruct (bool_decide (fst kv' = k)); [reflexivity | now apply Ho].
  - intros Hin. apply elem_of_app in Hin as [Hin|Hin]; [now apply Ho|].
    apply list_elem_of_singleton in Hin. now subst.
Qed.

Lemma scanRules_values_true (w : World) (node : nat) (rules : list CSSRule) (o : JSObject) :
  (forall kv, kv ∈ o -> snd kv = true) ->
  forall kv, kv ∈ scanRules w node rules o -> snd kv = true.
Proof.
  unfold scanRules. revert o. induction rules as [|r rest IH]; intros o Ho; simpl.
  - exact Ho.
  - apply IH. unfold addRule. destruct (isRelevant w node r); [|exact Ho].
    now apply objectSet_values_true.
Qed.

Lemma scanSheets_values_true (w : World) (node : nat) (sheets : list StyleSheet)
    (o o' : JSObject) :
  (forall kv, kv ∈ o -> snd kv = true) ->
  scanSheets w node sheets o = Normal o' ->
  forall kv, kv ∈ o' -> snd kv = true.
Proof.
  revert o. induction sheets as [|sheet rest IH]; intros o Ho; simpl.
  - now intros [= <-].
  - destruct (ruleListOf sheet) as [[rules|]|e]; [| |discriminate].
    + destruct (tryRules w node rules o) as [o1|e] eqn:Hrules; [|discriminate].
      apply IH. rewrite (tryRules_normal _ _ _ _ _ Hrules).
      now apply scanRules_values_true.
    + now apply IH.
Qed.

(** X1.  A run of [getRulesImpactingNode] that completes (no style sheet
    raised as its rule list was read and [matches] answered on every
    selector text), on a page where the texts of the rules are serialised
    rules (none is an array index or [__proto__]), leaves the page as it
    was and returns an object whose keys are the texts of the rules
    relevant to the node, each once, in the order of their first discovery
    (sheet by sheet, rule by rule), and whose values are all [true]. *)
Theorem getRulesImpactingNode_object (w w' : World) (node : nat) (object : JSObject) :
  plainTexts w = true ->
  getRulesImpactingNode node w = (Normal object, w') ->
  w' = w
  /\ map fst object = firstOccurrences (relevantTexts w node)
  /\ objectKeys object = firstOccurrences (relevantTexts w node)
  /\ NoDup (map fst object)
  /\ (forall k v, (k, v) ∈ object -> v = true).
Proof.
  intros Hplain Hrun. rewrite getRulesImpactingNode_run in Hrun.
  injection Hrun as Hrun Hworld.
  pose proof (rulesImpacting_readable w node object Hrun Hplain) as Hkeys.
  unfold keysOf in Hkeys.
  split; [now symmetry|].
  split; [exact Hkeys|].
  split.
  { unfold objectKeys. rewrite ownKeys_plain; [exact Hkeys|].
    intros k Hk. unfold keysOf in Hk. rewrite Hkeys, elem_of_firstOccurrences in Hk.
    now apply (relevantTexts_plain w node). }
  split; [rewrite Hkeys; apply NoDup_firstOccurrences|].
  intros k v Hin.
  apply (scanSheets_values_true w node (styleSheets w) [] object) in Hin; [exact Hin| |exact Hrun].
  intros kv Hkv. now apply elem_of_nil in Hkv.
Qed.

(** The box of the page with two sheets that list its rule. *)
Lemma getRulesImpactingNode_object_witness :
  getRulesImpactingNode box twoBoxesPage
  = (Normal [(str ".box{padding:10px}", true); (str "@media print{.box{margin:0}}", true)],
     twoBoxesPage)
  /\ [str ".box{padding:10px}"; str "@media print{.box{margin:0}}"]
     = firstOccurrences (relevantTexts twoBoxesPage box).
Proof.
  assert (Hrun : getRulesImpactingNode box twoBoxesPage
                 = (Normal [(str ".box{padding:10px}", true);
                            (str "@media print{.box{margin:0}}", true)], twoBoxesPage)).
  { rewrite getRulesImpactingNode_run. f_equal. }
  split; [exact Hrun|].
  destruct (getRulesImpactingNode_object twoBoxesPage twoBoxesPage box _ eq_refl Hrun)
    as (_ & Hkeys & _).
  exact Hkeys.
Defined.

(** ** Nested rules are looked at one level down *)

(** X2.  For a rule with a nested rule list, the answer of [shouldAddRule]
    depends on the selector texts of the rules of that list and on nothing
    else: not on the selector of the rule itself, and not on what the
    nested rules have below them.  Two such rules whose nested rules have
    the same selector texts, in the same order, get the same answer. *)
Theorem shouldAddRule_one_level (w : World) (node : nat) (r1 r2 : CSSRule)
    (nested1 nested2 : list CSSRule) :
  cssRules r1 = Some nested1 ->
  cssRules r2 = Some nested2 ->
  map selectorText nested1 = map selectorText nested2 ->
  shouldAddRule node r1 w = shouldAddRule node r2 w.
Proof.
  intros H1 H2 Hsame. rewrite !shouldAddRule_run. unfold relevance.
  rewrite H1, H2. f_equal. now apply firstAnswer_selectors.
Qed.

(** The rule of the box two levels down is not seen: the rule around it is
    judged like a keyframes rule. *)
Lemma shouldAddRule_one_level_witness :
  shouldAddRule box nestedTwiceRule (boxPage true)
  = shouldAddRule box keyframesRule (boxPage true).
Proof.
  apply (shouldAddRule_one_level (boxPage true) box nestedTwiceRule keyframesRule
           [ {| selectorText := None;
                cssText := str "@media print{.box{margin:0}}";
                cssRules := Some [plainRule ".box" ".box{margin:0}"] |} ]
           [ {| selectorText := None;
                cssText := str "from{opacity:0}";
                cssRules := None |} ]);
    reflexivity.
Defined.

(** ** A tree no rule is relevant to *)

Lemma scanRules_nothing_relevant (w : World) (node : nat) (rules : list CSSRule) (o : JSObject) :
  filter (fun r => isRelevant w node r = true) rules = [] ->
  scanRules w node rules o = o.
Proof.
  unfold scanRules. revert o. induction rules as [|r rest IH]; intros o Hnone; simpl.
  - reflexivity.
  - rewrite filter_cons in Hnone. unfold addRule.
    destruct (isRelevant w node r).
    + destruct (decide (true = true)); [discriminate | congruence].
    + destruct (decide (false = true)); [discriminate|]. now apply IH.
Qed.

Lemma scanSheets_nothing_relevant (w : World) (node : nat) (sheets : list StyleSheet)
    (o o' : JSObject) :
  scanSheets w node sheets o = Normal o' ->
  flat_map (fun sheet =>
              map cssText (filter (fun r => isRelevant w node r = true) (accessibleRules sheet)))
           sheets = [] ->
  o' = o.
Proof.
  revert o. induction sheets as [|sheet rest IH]; intros o Hrun Hnone; simpl in *.
  - congruence.
  - apply app_eq_nil in Hnone as [Hhere Hrest].
    unfold accessibleRules in Hhere.
    destruct (ruleListOf sheet) as [[rules|]|e]; [| |discriminate Hrun].
    + destruct (tryRules w node rules o) as [o1|e] eqn:Hrules; [|discriminate Hrun].
      apply map_eq_nil in Hhere.
      rewrite (IH o1 Hrun Hrest), (tryRules_normal _ _ _ _ _ Hrules).
      now apply scanRules_nothing_relevant.
    + now apply IH.
Qed.

Lemma mergeOver_nothing_relevant (w : World) (nodes : list nat) (rules : JSObject) :
  mergeOver w nodes [] = Normal rules ->
  flat_map (relevantTexts w) nodes = [] ->
  rules = [].
Proof.
  induction nodes as [|n rest IH]; intros Hrun Hnone; simpl in *.
  - congruence.
  - apply app_eq_nil in Hnone as [Hhere Hrest].
    destruct (rulesImpacting w n) as [found|e] eqn:Hn; [|discriminate Hrun].
    rewrite (scanSheets_nothing_relevant w n (styleSheets w) [] found Hn Hhere) in Hrun.
    now apply IH.
Qed.

(** X3.  When no rule is relevant to the root or to a descendant (in
    particular when the document has no style sheet), a run of
    [getStylesForTree] that completes returns the empty string and leaves
    the page as it was, and the document of [getIframeContentForNode] has an
    empty style element around the markup of the node. *)
Theorem getStylesForTree_nothing_relevant (w w' : World) (root : nat) (css : JSString) :
  getStylesForTree root w = (Normal css, w') ->
  discovered w root = [] ->
  css = []
  /\ w' = w
  /\ getIframeContentForNode root w
     = (Normal (str "<!doctype html>" ++ htmlOpen ++ str "<head><style></style></head><body>"
                ++ hostInnerHTML w root ++ str "</body></html>"), w).
Proof.
  intros Hrun Hnone. rewrite getStylesForTree_run in Hrun. injection Hrun as Hcss Hworld.
  assert (Hempty : css = []).
  { unfold discovered, candidates in Hnone. simpl in Hnone.
    apply app_eq_nil in Hnone as [Hroot Hrest].
    unfold stylesForTree in Hcss.
    destruct (rulesImpacting w root) as [first|e] eqn:Hfirst; [|discriminate Hcss].
    rewrite (scanSheets_nothing_relevant w root (styleSheets w) [] first Hfirst Hroot) in Hcss.
    destruct (mergeOver w (descendantElements (length (dom w)) (dom w) root) [])
      as [rules|e] eqn:Hmerge; [|discriminate Hcss].
    rewrite (mergeOver_nothing_relevant w _ rules Hmerge Hrest) in Hcss.
    simpl in Hcss. congruence. }
  split; [exact Hempty|]. split; [now symmetry|].
  rewrite getIframeContentForNode_run, Hcss, Hempty. reflexivity.
Qed.

(** The box on a page whose only rule is for another class. *)
Lemma getStylesForTree_nothing_relevant_witness :
  getStylesForTree box notePage = (Normal [], notePage)
  /\ discovered notePage box = [].
Proof.
  assert (Hrun : getStylesForTree box notePage = (Normal [], notePage)).
  { rewrite getStylesForTree_run. f_equal. }
  assert (Hnone : discovered notePage box = []) by (vm_compute; reflexivity).
  destruct (getStylesForTree_nothing_relevant notePage notePage box [] Hrun Hnone)
    as (_ & _ & _).
  split; [exact Hrun | exact Hnone].
Defined.

(** ** Runs of [iframify] that do not complete *)

Lemma sourcesAssigned_lookup_old (w : World) (html encoded : JSString) (n : nat) :
  (n < length (dom w))%nat ->
  dom (sourcesAssigned w html encoded) !! n = dom w !! n.
Proof.
  intros Hn. rewrite sourcesAssigned_dom. now apply lookup_app_l.
Qed.

(** X4.  On a node that has no parent, with a document that is synthesized
    and encoded, [iframify] throws a TypeError at the replacement, after it
    has created the frame and assigned both sources: the nodes the page had
    are all as they were, the new frame is in no tree, and nothing is
    scheduled. *)
Theorem iframify_without_parent (w : World) (node : nat) (html encoded : JSString) :
  synthesized w node = Normal html ->
  encodeURI html = Normal encoded ->
  parentOf (dom w) node = None ->
  exists w',
    iframify node w = (Throw TypeError, w')
    /\ (forall n, (n < length (dom w))%nat -> dom w' !! n = dom w !! n)
    /\ length (dom w') = S (length (dom w))
    /\ tagOf (dom w') (newFrame w) = Some iframeTag
    /\ parentOf (dom w') (newFrame w) = None
    /\ childrenOf (dom w') (newFrame w) = []
    /\ propertyOf w' (newFrame w) "srcdoc" = Some html
    /\ propertyOf w' (newFrame w) "src" = Some (dataPrefix ++ encoded)
    /\ timers w' = timers w
    /\ effects w'
       = effects w
         ++ [ CreateElement iframeTag (newFrame w);
              SetProperty (newFrame w) "srcdoc" html;
              SetProperty (newFrame w) "src" (dataPrefix ++ encoded) ].
Proof.
  intros Hhtml Henc Hparent.
  exists (sourcesAssigned w html encoded).
  split; [now apply iframify_no_parent|].
  split; [intros n Hn; now apply sourcesAssigned_lookup_old|].
  split; [rewrite sourcesAssigned_dom, length_app; simpl; lia|].
  split.
  { unfold tagOf. rewrite frame_lookup. now destruct (srcdocSupported w). }
  split.
  { rewrite parentOf_sourcesAssigned. unfold parentOf, newFrame.
    now rewrite lookup_ge_None_2 by lia. }
  split.
  { unfold childrenOf. rewrite frame_lookup. simpl. now destruct (srcdocSupported w). }
  split; [apply sourcesAssigned_srcdoc|].
  split; [apply sourcesAssigned_src|].
  split; [reflexivity|].
  apply sourcesAssigned_effects.
Qed.

(** An element that is in no tree. *)
Lemma iframify_without_parent_witness :
  fst (iframify detached detachedPage) = Throw TypeError
  /\ timers (snd (iframify detached detachedPage)) = [].
Proof.
  destruct (iframify_without_parent detachedPage detached
              (standaloneDocument [] [])
              (match encodeURI (standaloneDocument [] []) with
               | Normal encoded => encoded
               | Throw _ => []
               end))
    as (w' & Hrun & _ & _ & _ & _ & _ & _ & _ & Htimers & _).
  - vm_compute. reflexivity.
  - vm_compute. reflexivity.
  - vm_compute. reflexivity.
  - rewrite Hrun. split; [reflexivity | exact Htimers].
Defined.

(** X5.  When reading the rule list of a style sheet raises, and the walk
    gets to that sheet (the sheets before it can be read and [matches]
    answers on the node for their rules), [iframify] of an element throws
    that exception right after it has created the frame: no source is
    assigned, the node is not replaced, nothing is scheduled, and the page
    differs from what it was by the new frame only, which is in no tree and
    has no attribute. *)
Theorem iframify_sheet_raises (w : World) (node : nat) (before after : list StyleSheet)
    (sheet : StyleSheet) (e : Exn) :
  isElement (dom w) node = true ->
  styleSheets w = before ++ sheet :: after ->
  forallb (fun s => negb (raisesOnRead s)) before = true ->
  matchesAnswers w [node] before = true ->
  ruleListOf sheet = Throw e ->
  exists w',
    iframify node w = (Throw e, w')
    /\ dom w' = dom w ++ [newElement iframeTag]
    /\ attributes (newElement iframeTag) = []
    /\ parentNode (newElement iframeTag) = None
    /\ timers w' = timers w
    /\ effects w' = effects w ++ [CreateElement iframeTag (newFrame w)].
Proof.
  intros _ Hsheets Hbefore Hanswers Hraise. exists (frameCreated w).
  split; [|repeat split].
  apply iframify_no_document. unfold synthesized.
  rewrite getIframeContentForNode_run. simpl fst.
  assert (Hstyles : getStylesForTree node (frameCreated w) = (Throw e, frameCreated w)).
  { apply (getStylesForTree_raises (frameCreated w) node before after sheet e);
      try assumption.
    rewrite <- Hanswers. now apply matchesAnswers_local. }
  rewrite getStylesForTree_run in Hstyles. injection Hstyles as ->. reflexivity.
Qed.

(** The box of the page with a cross-origin sheet after the sheet of the
    box. *)
Lemma iframify_sheet_raises_witness :
  fst (iframify box lateCrossOriginPage) = Throw SecurityError
  /\ parentOf (dom (snd (iframify box lateCrossOriginPage))) box = Some 2%nat.
Proof.
  destruct (iframify_sheet_raises lateCrossOriginPage box [readableSheet [boxRule]] []
              crossOriginSheet SecurityError)
    as (w' & Hrun & Hdom & _).
  - reflexivity.
  - reflexivity.
  - reflexivity.
  - reflexivity.
  - reflexivity.
  - rewrite Hrun. simpl fst. simpl snd. split; [reflexivity|].
    rewrite Hdom. reflexivity.
Defined.

(** ** The test of line 117 *)

(** X7.  Whatever the host supports, after a completed run of [iframify]
    the test of [srcdoc in iframe] is true, because [srcdoc] has been
    assigned before it: the measurement is scheduled on every completed
    run, exactly once, with a delay of 500. *)
Theorem iframify_always_schedules (w w' : World) (node : nat) :
  iframify node w = (Normal tt, w') ->
  fst (hasProperty (newFrame w) "srcdoc" w') = Normal true
  /\ timers w' = timers w ++ [MkTimer (MeasureHeight (newFrame w)) 500].
Proof.
  intros Hrun.
  destruct (iframify_inv node w w' Hrun) as (html & encoded & p & _ & _ & Hparent & ->).
  split; [|now apply measurementScheduled_timers].
  destruct (measurementScheduled_props w node p html encoded (newFrame w)) as [Hs Hp].
  rewrite (hasProperty_props _ _ (sourcesAssigned w html encoded)) by assumption.
  rewrite hasProperty_fst, frame_lookup.
  change (srcdocSupported (sourcesAssigned w html encoded)) with (srcdocSupported w).
  simpl from_option. now rewrite frameWithSources_has_srcdoc.
Qed.

(** The box, on a host without [srcdoc]. *)
Lemma iframify_always_schedules_witness :
  fst (hasProperty (newFrame (boxPage false)) "srcdoc" (snd (iframify box (boxPage false))))
  = Normal true
  /\ timers (snd (iframify box (boxPage false)))
     = timers (boxPage false) ++ [MkTimer (MeasureHeight (newFrame (boxPage false))) 500].
Proof.
  apply (iframify_always_schedules (boxPage false) _ box).
  apply run_completes. vm_compute. reflexivity.
Defined.

(** ** How a run of [iframify] ends *)

Lemma encodeURI_completes_wellFormed (s encoded : JSString) :
  forallb isCodeUnit s = true ->
  encodeURI s = Normal encoded ->
  wellFormedUTF16 s = true.
Proof.
  intros Hunits Henc. destruct (wellFormedUTF16 s) eqn:Hwf; [reflexivity|].
  rewrite (encodeURI_unpaired_surrogate s Hunits Hwf) in Henc. discriminate.
Qed.

(** X9.  Once the document is synthesized, [iframify] ends in one of three
    ways, tried in this order: a URIError when the document has an unpaired
    surrogate, a TypeError when the node has no parent, and completion
    otherwise. *)
Theorem iframify_outcome (w : World) (node : nat) (html : JSString) :
  synthesized w node = Normal html ->
  forallb isCodeUnit html = true ->
  fst (iframify node w)
  = if wellFormedUTF16 html
    then match parentOf (dom w) node with
         | Some _ => Normal tt
         | None => Throw TypeError
         end
    else Throw URIError.
Proof.
  intros Hhtml Hunits. destruct (wellFormedUTF16 html) eqn:Hwf.
  - destruct (percentDecode_encodeURI html Hwf) as (encoded & Henc & _).
    destruct (parentOf (dom w) node) as [p|] eqn:Hparent.
    + now rewrite (iframify_completes node w html encoded p Hhtml Henc Hparent).
    + now rewrite (iframify_no_parent node w html encoded Hhtml Henc Hparent).
  - pose proof (encodeURI_unpaired_surrogate html Hunits Hwf) as Henc.
    now rewrite (iframify_not_encodable node w html URIError Hhtml Henc).
Qed.

(** An element in no tree whose text is an unpaired surrogate: the URIError
    comes first. *)
Lemma iframify_outcome_witness :
  parentOf (dom orphanPage) detached = None
  /\ fst (iframify detached orphanPage) = Throw URIError.
Proof.
  split; [reflexivity|].
  rewrite (iframify_outcome orphanPage detached (standaloneDocument [] [55296])).
  - vm_compute. reflexivity.
  - vm_compute. reflexivity.
  - vm_compute. reflexivity.
Defined.

(** X10.  After a completed run of [iframify] the two sources of the frame
    carry the same document: [srcdoc] holds the synthesized document as it
    is, and [src] holds the data URI whose encoded part percent-decodes to
    it. *)
Theorem iframify_sources_agree (w w' : World) (node : nat) (html : JSString) :
  synthesized w node = Normal html ->
  forallb isCodeUnit html = true ->
  iframify node w = (Normal tt, w') ->
  exists encoded,
    propertyOf w' (newFrame w) "srcdoc" = Some html
    /\ propertyOf w' (newFrame w) "src" = Some (dataPrefix ++ encoded)
    /\ percentDecode encoded = Some html.
Proof.
  intros Hhtml Hunits Hrun.
  destruct (iframify_inv node w w' Hrun) as (html' & encoded & p & Hhtml' & Henc & Hparent & Hw').
  assert (html' = html) as -> by congruence.
  pose proof (encodeURI_completes_wellFormed html encoded Hunits Henc) as Hwf.
  destruct (percentDecode_encodeURI html Hwf) as (encoded' & Henc' & Hdec).
  assert (encoded' = encoded) as -> by congruence.
  destruct (iframify_src w node html encoded Hhtml Henc) as (_ & Hsrc & Hsrcdoc).
  rewrite Hrun in Hsrc, Hsrcdoc. simpl snd in Hsrc, Hsrcdoc.
  exists encoded. repeat split; assumption.
Qed.

(** The box of the example page. *)
Lemma iframify_sources_agree_witness :
  exists encoded,
    propertyOf (snd (iframify box (boxPage true))) (newFrame (boxPage true)) "srcdoc"
    = Some (standaloneDocument (str ".box{padding:10px}") (str "<span>hi</span>"))
    /\ propertyOf (snd (iframify box (boxPage true))) (newFrame (boxPage true)) "src"
       = Some (dataPrefix ++ encoded)
    /\ percentDecode encoded
       = Some (standaloneDocument (str ".box{padding:10px}") (str "<span>hi</span>")).
Proof.
  apply (iframify_sources_agree (boxPage true) _ box).
  - vm_compute. reflexivity.
  - vm_compute. reflexivity.
  - apply run_completes. vm_compute. reflexivity.
Defined.

(** ** The number sign in the data URI *)

Lemma encodeURI_number_sign_bounded (n : nat) (a b ea eb : JSString) :
  (length a <= n)%nat ->
  encodeURI a = Normal ea ->
  encodeURI b = Normal eb ->
  encodeURI (a ++ 35 :: b) = Normal (ea ++ 35 :: eb).
Proof.
  revert a ea. induction n as [|n IH]; intros a ea Hlen Ha Hb.
  { destruct a; [|simpl in Hlen; lia]. injection Ha as <-. simpl. now rewrite Hb. }
  destruct a as [|c rest].
  { injection Ha as <-. simpl. now rewrite Hb. }
  simpl in Hlen. cbn [app encodeURI] in *.
  destruct (uriUnescaped c).
  - destruct (encodeURI rest) as [er|] eqn:Hrest; [|discriminate].
    injection Ha as <-. now rewrite (IH rest er ltac:(lia) Hrest Hb).
  - destruct (isHighSurrogate c).
    + destruct rest as [|d rest']; [discriminate|]. cbn [app].
      destruct (isLowSurrogate d); [|discriminate].
      destruct (encodeURI rest') as [er|] eqn:Hrest; [|discriminate].
      injection Ha as <-. simpl in Hlen.
      rewrite (IH rest' er ltac:(lia) Hrest Hb). simpl. now rewrite <- app_assoc.
    + destruct (isLowSurrogate c); [discriminate|].
      destruct (encodeURI rest) as [er|] eqn:Hrest; [|discriminate].
      injection Ha as <-.
      rewrite (IH rest er ltac:(lia) Hrest Hb). simpl. now rewrite <- app_assoc.
Qed.

Lemma hexDigit_not_number_sign (d : Z) : hexDigit d <> 35 \/ d < 0 \/ 16 <= d.
Proof.
  unfold hexDigit. destruct (Z.ltb_spec d 10); lia.
Qed.

Lemma escapeOctets_no_number_sign (bs : list Z) :
  Forall (fun b => 0 <= b < 256) bs -> 35 ∉ escapeOctets bs.
Proof.
  induction 1 as [|b bs Hb _ IH].
  - apply not_elem_of_nil.
  - change (escapeOctets (b :: bs)) with (escapeOctet b ++ escapeOctets bs).
    rewrite elem_of_app. intros [Hin|Hin]; [|exact (IH Hin)].
    unfold escapeOctet, percent in Hin.
    repeat (apply elem_of_cons in Hin as [Hin|Hin]).
    + lia.
    + destruct (hexDigit_not_number_sign (b / 16)) as [?|?]; [congruence|].
      Z.div_mod_to_equations. lia.
    + destruct (hexDigit_not_number_sign (b mod 16)) as [?|?]; [congruence|].
      Z.div_mod_to_equations. lia.
    + now apply elem_of_nil in Hin.
Qed.

Lemma encodeURI_no_number_sign_bounded (n : nat) (a ea : JSString) :
  (length a <= n)%nat ->
  forallb isCodeUnit a = true ->
  35 ∉ a ->
  encodeURI a = Normal ea ->
  35 ∉ ea.
Proof.
  revert a ea. induction n as [|n IH]; intros a ea Hlen Hunits Hout Ha.
  { destruct a; [|simpl in Hlen; lia]. injection Ha as <-. apply not_elem_of_nil. }
  destruct a as [|c rest].
  { injection Ha as <-. apply not_elem_of_nil. }
  simpl in Hlen. cbn [forallb] in Hunits. apply andb_true_iff in Hunits as [Hc Hunits].
  unfold isCodeUnit in Hc. apply andb_true_iff in Hc as [Hc0 Hc1].
  apply Z.leb_le in Hc0. apply Z.ltb_lt in Hc1.
  apply not_elem_of_cons in Hout as [Hc35 Hout].
  cbn [encodeURI] in Ha.
  destruct (uriUnescaped c).
  - destruct (encodeURI rest) as [er|] eqn:Hrest; [|discriminate].
    injection Ha as <-. apply not_elem_of_cons. split; [congruence|].
    now apply (IH rest er ltac:(lia)).
  - destruct (isHighSurrogate c) eqn:Hhi.
    + destruct rest as [|d rest']; [discriminate|].
      destruct (isLowSurrogate d) eqn:Hlo; [|discriminate].
      destruct (encodeURI rest') as [er|] eqn:Hrest; [|discriminate].
      injection Ha as <-. simpl in Hlen. cbn [forallb] in Hunits.
      apply andb_true_iff in Hunits as [_ Hunits].
      apply not_elem_of_cons in Hout as [_ Hout].
      destruct (utf16Units_pair c d Hhi Hlo) as [Hrange _].
      rewrite elem_of_app. intros [Hin|Hin].
      * revert Hin. apply escapeOctets_no_number_sign, utf8Octets_bytes. lia.
      * revert Hin. now apply (IH rest' er ltac:(lia)).
    + destruct (isLowSurrogate c); [discriminate|].
      destruct (encodeURI rest) as [er|] eqn:Hrest; [|discriminate].
      injection Ha as <-.
      rewrite elem_of_app. intros [Hin|Hin].
      * revert Hin. apply escapeOctets_no_number_sign, utf8Octets_bytes. lia.
      * revert Hin. now apply (IH rest er ltac:(lia)).
Qed.

(** X11.  [encodeURI] does not escape the number sign, so a number sign of
    the document (of a colour, an id selector, a link) is a number sign of
    the data URI.  When the document is [a], a number sign, and [b], with no
    number sign in [a], the [src] of the frame is the prefix, [a] encoded,
    the number sign and [b] encoded: its part before the first number sign
    decodes to [a] alone. *)
Theorem iframify_number_sign (w : World) (node : nat) (a b ea eb : JSString) :
  synthesized w node = Normal (a ++ 35 :: b) ->
  forallb isCodeUnit a = true ->
  35 ∉ a ->
  encodeURI a = Normal ea ->
  encodeURI b = Normal eb ->
  propertyOf (snd (iframify node w)) (newFrame w) "src"
  = Some ((str "data:text/html;charset=utf-8," ++ ea) ++ 35 :: eb)
  /\ (35 ∉ str "data:text/html;charset=utf-8," ++ ea)
  /\ percentDecode ea = Some a.
Proof.
  intros Hhtml Hunits Hout Ha Hb.
  pose proof (encodeURI_number_sign_bounded (length a) a b ea eb (le_n _) Ha Hb) as Henc.
  destruct (iframify_src w node _ _ Hhtml Henc) as (_ & Hsrc & _).
  split; [rewrite Hsrc; unfold dataPrefix; now rewrite <- app_assoc|].
  split.
  - rewrite elem_of_app. intros [Hin|Hin].
    + assert (Hprefix : bool_decide (35 ∈ str "data:text/html;charset=utf-8,") = false)
        by (vm_compute; reflexivity).
      apply bool_decide_eq_false in Hprefix. exact (Hprefix Hin).
    + revert Hin. now apply (encodeURI_no_number_sign_bounded (length a) a ea).
  - pose proof (encodeURI_completes_wellFormed a ea Hunits Ha) as Hwf.
    destruct (percentDecode_encodeURI a Hwf) as (ea' & Ha' & Hdec).
    congruence.
Qed.

(** The box of the page whose rule has a colour. *)
Lemma iframify_number_sign_witness :
  propertyOf (snd (iframify box colourPage)) (newFrame colourPage) "src"
  = Some ((str "data:text/html;charset=utf-8,"
           ++ str "%3C!doctype%20html%3E%3Chtml%20lang=%22en%22%3E%3Chead%3E%3Cstyle%3E.box%7Bcolor:")
          ++ 35 :: str "fff%7D%3C/style%3E%3C/head%3E%3Cbody%3E%3Cspan%3Ehi%3C/span%3E%3C/body%3E%3C/html%3E")
  /\ percentDecode
       (str "%3C!doctype%20html%3E%3Chtml%20lang=%22en%22%3E%3Chead%3E%3Cstyle%3E.box%7Bcolor:")
     = Some (str "<!doctype html>" ++ htmlOpen ++ str "<head><style>.box{color:").
Proof.
  destruct (iframify_number_sign colourPage box
              (str "<!doctype html>" ++ htmlOpen ++ str "<head><style>.box{color:")
              (str "fff}</style></head><body><span>hi</span></body></html>")
              (str "%3C!doctype%20html%3E%3Chtml%20lang=%22en%22%3E%3Chead%3E%3Cstyle%3E.box%7Bcolor:")
              (str "fff%7D%3C/style%3E%3C/head%3E%3Cbody%3E%3Cspan%3Ehi%3C/span%3E%3C/body%3E%3C/html%3E"))
    as (Hsrc & _ & Hdec).
  - vm_compute. reflexivity.
  - vm_compute. reflexivity.
  - assert (H : bool_decide
                  (35 ∈ str "<!doctype html>" ++ htmlOpen ++ str "<head><style>.box{color:")
                = false) by (vm_compute; reflexivity).
    now apply bool_decide_eq_false in H.
  - vm_compute. reflexivity.
  - vm_compute. reflexivity.
  - split; [exact Hsrc | exact Hdec].
Defined.

(** ** The styles of a tree depend on the tree only *)

Lemma mergeOver_local (w1 w2 : World) (nodes : list nat) (tree : JSObject) :
  styleSheets w1 = styleSheets w2 ->
  (forall n selector, n ∈ nodes -> hostMatches w1 n selector = hostMatches w2 n selector) ->
  mergeOver w1 nodes tree = mergeOver w2 nodes tree.
Proof.
  intros Hsheets. revert tree. induction nodes as [|n rest IH]; intros tree Hsame; simpl.
  - reflexivity.
  - unfold rulesImpacting. rewrite Hsheets.
    rewrite (scanSheets_local w1 w2 n) by (intros selector; apply Hsame; left).
    destruct (scanSheets w2 n (styleSheets w2) []); [|reflexivity].
    apply IH. intros m selector Hm. apply Hsame. now right.
Qed.

(** X12.  The styles [getStylesForTree] collects for a root depend on the
    style sheets, on the root and its element descendants, and on what
    [matches] answers on those nodes; nothing outside the tree of the root
    has a part in them.  Two pages with the same style sheets, the same
    candidates for the root and the same answers of [matches] on them give
    the same result. *)
Theorem getStylesForTree_local (w1 w2 : World) (root : nat) :
  styleSheets w1 = styleSheets w2 ->
  candidates w1 root = candidates w2 root ->
  (forall n selector,
      n ∈ candidates w1 root -> hostMatches w1 n selector = hostMatches w2 n selector) ->
  fst (getStylesForTree root w1) = fst (getStylesForTree root w2).
Proof.
  intros Hsheets Hcandidates Hsame. rewrite !getStylesForTree_run. simpl.
  unfold candidates in *. injection Hcandidates as Hdesc.
  unfold stylesForTree, rulesImpacting. rewrite Hsheets, Hdesc.
  rewrite (scanSheets_local w1 w2 root) by (intros selector; apply Hsame; left).
  destruct (scanSheets w2 root (styleSheets w2) []) as [first|e]; [|reflexivity].
  rewrite (mergeOver_local w1 w2); [reflexivity | exact Hsheets |].
  intros n selector Hn. apply Hsame. right. now rewrite Hdesc.
Qed.

(** The box on the example page and on the page where the heading, outside
    the box, has the class of the box too. *)
Lemma getStylesForTree_local_witness :
  fst (getStylesForTree box (boxPage true)) = fst (getStylesForTree box headingBoxPage).
Proof.
  apply getStylesForTree_local.
  - reflexivity.
  - vm_compute. reflexivity.
  - intros n selector Hn.
    assert (Hc : candidates (boxPage true) box = [3%nat; 4%nat]) by (vm_compute; reflexivity).
    rewrite Hc in Hn.
    repeat (apply elem_of_cons in Hn as [->|Hn]); [reflexivity | reflexivity |].
    now apply elem_of_nil in Hn.
Defined.

(** ** The tree stays consistent *)

Lemma wfNode_stored (d : Dom) (n : nat) (r : NodeRec) :
  d !! n = Some r ->
  (forall q, parentOf d n = Some q -> n ∈ childrenOf d q) ->
  (forall c, c ∈ childrenOf d n -> parentOf d c = Some n) ->
  NoDup (childrenOf d n) ->
  is_Some (rootWithin (length d) d n) ->
  wfNode d n r = true.
Proof.
  intros Hr Hparent Hchildren Hnodup Hroot.
  unfold parentOf in Hparent. unfold childrenOf in Hchildren, Hnodup.
  rewrite Hr in Hparent, Hchildren, Hnodup. simpl in *.
  unfold wfNode. rewrite !andb_true_iff. repeat split.
  - destruct (parentNode r) as [q|]; [|reflexivity].
    apply bool_decide_eq_true. now apply Hparent.
  - apply forallb_forall. intros c Hc. apply bool_decide_eq_true.
    apply Hchildren. now apply list_elem_of_In.
  - now apply bool_decide_eq_true.
  - now apply bool_decide_eq_true.
Qed.

Lemma wfDom_stored (w : World) :
  (forall n r, dom w !! n = Some r -> wfNode (dom w) n r = true) ->
  parentOf (dom w) (documentNode w) = None ->
  wfDom w = true.
Proof.
  intros Hnodes Hdoc. unfold wfDom. apply andb_true_iff. split.
  - apply forallb_forall. intros [n r] Hin.
    apply list_elem_of_In, list_elem_of_lookup in Hin as [i Hi].
    rewrite list_lookup_imap in Hi.
    destruct (dom w !! i) as [r'|] eqn:Hr'; [|discriminate].
    injection Hi as <- <-. simpl. now apply Hnodes.
  - now apply bool_decide_eq_true.
Qed.

Lemma rootWithin_two_cycle (d : Dom) (a b : nat) (fuel : nat) :
  parentOf d a = Some b -> parentOf d b = Some a ->
  rootWithin fuel d a = None /\ rootWithin fuel d b = None.
Proof.
  intros Ha Hb. induction fuel as [|f [IHa IHb]]; simpl.
  - now split.
  - now rewrite Ha, Hb.
Qed.

Lemma wfDom_no_two_cycle (w : World) (a b : nat) :
  wfDom w = true ->
  parentOf (dom w) a = Some b ->
  parentOf (dom w) b <> Some a.
Proof.
  intros Hwf Ha Hb.
  destruct (wfDom_rooted w a (length (dom w)) Hwf (parentOf_lt _ _ _ Ha) (le_n _)) as [r Hr].
  destruct (rootWithin_two_cycle (dom w) a b (length (dom w)) Ha Hb) as [Hnone _].
  congruence.
Qed.

Lemma childrenOf_lt (w : World) (n c : nat) :
  wfDom w = true -> c ∈ childrenOf (dom w) n -> (c < length (dom w))%nat.
Proof.
  intros Hwf Hc. exact (parentOf_lt _ _ _ (wfDom_children w n c Hwf Hc)).
Qed.

Lemma elem_of_substitute (old new c : nat) (l : list nat) :
  c ∈ l -> c <> old -> c ∈ substitute old new l.
Proof.
  intros Hc Hne. unfold substitute. apply list_elem_of_fmap. exists c.
  split; [|exact Hc]. now rewrite bool_decide_eq_false_2.
Qed.

Lemma elem_of_substitute_inv (old new c : nat) (l : list nat) :
  c ∈ substitute old new l -> c = new \/ (c ∈ l /\ c <> old).
Proof.
  unfold substitute. intros Hc. apply list_elem_of_fmap in Hc as (c' & -> & Hc').
  destruct (bool_decide_reflect (c' = old)); [now left | right; now split].
Qed.

Lemma NoDup_substitute (old new : nat) (l : list nat) :
  NoDup l -> new ∉ l -> NoDup (substitute old new l).
Proof.
  intros Hnodup Hnew. unfold substitute. apply NoDup_fmap_2_strong; [|exact Hnodup].
  intros x y Hx Hy Heq.
  destruct (bool_decide_reflect (x = old)), (bool_decide_reflect (y = old)); subst;
    congruence.
Qed.

Section Consistency.

Variables (w : World) (node p : nat) (html encoded : JSString).

Hypothesis consistent : wfDom w = true.
Hypothesis node_parent : parentOf (dom w) node = Some p.

Lemma replaced_rooted (fuel : nat) (n root : nat) :
  (n < length (dom w))%nat ->
  rootWithin fuel (dom w) n = Some root ->
  is_Some (rootWithin fuel (domAfterReplace w node p html encoded) n).
Proof.
  destruct (wfDom_parent w node p consistent node_parent) as (_ & Hp & Hne).
  pose proof (parentOf_lt _ _ _ node_parent) as Hnode.
  revert n. induction fuel as [|f IH]; intros n Hn; simpl.
  - discriminate.
  - destruct (decide (n = node)) as [->|Hnn].
    + rewrite after_parent_node by assumption. eauto.
    + rewrite after_parent_other by assumption.
      destruct (parentOf (dom w) n) as [q|] eqn:Hq; [|eauto].
      apply IH. now destruct (wfDom_parent w n q consistent Hq) as (_ & Hlt & _).
Qed.

Lemma replaced_length :
  length (domAfterReplace w node p html encoded) = S (length (dom w)).
Proof.
  unfold domAfterReplace. rewrite length_app, !length_alter. simpl. lia.
Qed.

Lemma replaced_consistent_node (n : nat) (r : NodeRec) :
  domAfterReplace w node p html encoded !! n = Some r ->
  wfNode (domAfterReplace w node p html encoded) n r = true.
Proof.
  destruct (wfDom_parent w node p consistent node_parent) as (Hin & Hp & Hne).
  pose proof (parentOf_lt _ _ _ node_parent) as Hnode.
  pose proof (wfDom_NoDup w p consistent) as Hnodup_p.
  assert (Hnew : forall m, newFrame w ∉ childrenOf (dom w) m).
  { intros m Hm. apply (childrenOf_lt w m _ consistent) in Hm. unfold newFrame in Hm. lia. }
  intros Hr. pose proof (lookup_lt_Some _ _ _ Hr) as Hn. rewrite replaced_length in Hn.
  apply (wfNode_stored _ n r Hr).
  - (* n is a child of its parent *)
    intros q Hq.
    destruct (decide (n = newFrame w)) as [->|Hnf].
    + rewrite after_parent_frame in Hq by assumption. injection Hq as <-.
      rewrite after_children_parent by assumption.
      apply list_elem_of_fmap. exists node. split; [|exact Hin].
      now rewrite bool_decide_eq_true_2.
    + assert (Hold : (n < length (dom w))%nat) by (unfold newFrame in Hnf; lia).
      destruct (decide (n = node)) as [->|Hnn].
      { rewrite after_parent_node in Hq by assumption. discriminate. }
      rewrite after_parent_other in Hq by assumption.
      destruct (wfDom_parent w n q consistent Hq) as (Hnq & Hqlt & _).
      destruct (decide (q = p)) as [->|Hqp].
      { rewrite after_children_parent by assumption. now apply elem_of_substitute. }
      destruct (decide (q = node)) as [->|Hqn].
      { now rewrite after_children_node by assumption. }
      unfold childrenOf. rewrite after_lookup_other by assumption. exact Hnq.
  - (* the children of n have n as parent *)
    intros c Hc.
    destruct (decide (n = newFrame w)) as [->|Hnf].
    { rewrite after_children_frame in Hc by assumption. now apply elem_of_nil in Hc. }
    assert (Hold : (n < length (dom w))%nat) by (unfold newFrame in Hnf; lia).
    destruct (decide (n = p)) as [->|Hnp].
    + rewrite after_children_parent in Hc by assumption.
      apply elem_of_substitute_inv in Hc as [->|[Hc Hcn]].
      * apply after_parent_frame; assumption.
      * pose proof (childrenOf_lt w p c consistent Hc) as Hclt.
        rewrite after_parent_other by assumption.
        now apply wfDom_children.
    + assert (Hcd : c ∈ childrenOf (dom w) n).
      { destruct (decide (n = node)) as [->|Hnn].
        - now rewrite after_children_node in Hc by assumption.
        - unfold childrenOf in Hc. now rewrite after_lookup_other in Hc by assumption. }
      pose proof (wfDom_children w n c consistent Hcd) as Hcp.
      assert (Hcn : c <> node) by (intros ->; congruence).
      pose proof (childrenOf_lt w n c consistent Hcd) as Hclt.
      now rewrite after_parent_other by assumption.
  - (* the children of n are distinct *)
    destruct (decide (n = newFrame w)) as [->|Hnf].
    { rewrite after_children_frame by assumption. constructor. }
    assert (Hold : (n < length (dom w))%nat) by (unfold newFrame in Hnf; lia).
    destruct (decide (n = p)) as [->|Hnp].
    + rewrite after_children_parent by assumption.
      apply NoDup_substitute; [exact Hnodup_p | apply Hnew].
    + destruct (decide (n = node)) as [->|Hnn].
      * rewrite after_children_node by assumption. now apply wfDom_NoDup.
      * unfold childrenOf. rewrite after_lookup_other by assumption.
        now apply (wfDom_NoDup w n).
  - (* the parent links end *)
    rewrite replaced_length.
    destruct (decide (n = newFrame w)) as [->|Hnf].
    + simpl. rewrite after_parent_frame by assumption.
      destruct (wfDom_rooted w p (length (dom w)) consistent Hp (le_n _)) as [root Hroot].
      now apply (replaced_rooted _ p root).
    + assert (Hold : (n < length (dom w))%nat) by (unfold newFrame in Hnf; lia).
      destruct (wfDom_rooted w n (length (dom w)) consistent Hold (le_n _)) as [root Hroot].
      destruct (replaced_rooted _ n root Hold Hroot) as [root' Hroot'].
      exists root'. replace (S (length (dom w))) with (length (dom w) + 1)%nat by lia.
      now apply rootWithin_more.
Qed.

End Consistency.

(** The page after a completed run on a consistent tree. *)
Lemma completed_run_consistent (w w' : World) (node : nat) :
  wfDom w = true ->
  (documentNode w < length (dom w))%nat ->
  iframify node w = (Normal tt, w') ->
  wfDom w' = true
  /\ documentNode w' = documentNode w
  /\ (documentNode w' < length (dom w'))%nat.
Proof.
  intros Hwf Hdoc Hrun.
  destruct (iframify_inv node w w' Hrun) as (html & encoded & p & _ & _ & Hparent & ->).
  destruct (wfDom_parent w node p Hwf Hparent) as (_ & Hp & Hne).
  pose proof (parentOf_lt _ _ _ Hparent) as Hnode.
  pose proof (measurementScheduled_documentNode w node p html encoded Hparent) as Hsame.
  assert (Hdom : dom (measurementScheduled w node p html encoded)
                 = domAfterReplace w node p html encoded).
  { rewrite measurementScheduled_dom. now apply nodeReplaced_dom. }
  split; [|split; [exact Hsame|]].
  - apply wfDom_stored; rewrite Hdom.
    + intros n r. now apply replaced_consistent_node.
    + rewrite Hsame.
      assert (Hdn : documentNode w <> node).
      { intros Heq. rewrite <- Heq, (wfDom_document w Hwf) in Hparent. discriminate. }
      rewrite after_parent_other by assumption. now apply wfDom_document.
  - rewrite Hsame, Hdom, replaced_length. lia.
Qed.

(** X6.  A completed run of [iframify] on a consistent tree leaves a
    consistent tree: every node is among the children of its parent, the
    children of a node have it as parent and are distinct, the parent links
    end, and the document has no parent.  So [iframify] can be run again,
    on another node of the page. *)
Theorem iframify_keeps_consistent (w w' : World) (node : nat) :
  wfDom w = true ->
  (documentNode w < length (dom w))%nat ->
  iframify node w = (Normal tt, w') ->
  wfDom w' = true
  /\ documentNode w' = documentNode w
  /\ (documentNode w' < length (dom w'))%nat.
Proof. apply completed_run_consistent. Qed.

(** The example page after the run on the box. *)
Lemma iframify_keeps_consistent_witness :
  wfDom (snd (iframify box (boxPage true))) = true.
Proof.
  destruct (iframify_keeps_consistent (boxPage true) (snd (iframify box (boxPage true))) box)
    as [Hwf _].
  - vm_compute. reflexivity.
  - vm_compute. lia.
  - apply run_completes. vm_compute. reflexivity.
  - exact Hwf.
Defined.

(** ** Two runs in a row *)



